(** * Accessible widgets of new.smslive247.com: a shallow embedding

  The development follows the four scripts under [src/js]:

  - [accessibility-utils.js]       ([Module A11y]): the live-region announcer;
    ([Module FocusManager]): [manageFocus], [restoreFocus], [trapFocus];
  - [accessible-infinite-scroll.js] ([Module Pagination]): the load-more controller;
  - [accessible-carousel.js]       ([Module Carousel]); ([Module CarouselPlayer]):
    autoplay and the listeners;
  - [accessible-dropdown.js]       ([Module Dropdown]); ([Module DropdownEvents]):
    the listeners.

  DOM nodes are records holding the attributes the scripts read or write,
  JavaScript numbers that serve as indices are [JS.number] (an integer or
  [NaN]), a method that can raise a [TypeError] returns a [JS.completion],
  and [setTimeout] callbacks sit in a queue ordered by due time. *)

From Stdlib Require Import ZArith DecimalString Lia.
From stdpp Require Import base list strings.

Local Open Scope Z_scope.

(** ** JavaScript values used by the widgets *)

Module JS.

(** The numbers the widgets compute with are integers, or [NaN] once a
    remainder by zero has been taken.  Negative zero behaves as zero in
    every operation used here ([<], [>=], [===], array indexing, template
    literals) and is identified with it. *)
Inductive number : Type :=
| Num (z : Z)
| NaN.

Definition add (a b : number) : number :=
  match a, b with
  | Num x, Num y => Num (x + y)
  | _, _ => NaN
  end.

Definition sub (a b : number) : number :=
  match a, b with
  | Num x, Num y => Num (x - y)
  | _, _ => NaN
  end.

(** [a % b]: the sign follows the dividend, and [x % 0] is [NaN]. *)
Definition rem (a b : number) : number :=
  match a, b with
  | Num x, Num y => if y =? 0 then NaN else Num (Z.rem x y)
  | _, _ => NaN
  end.

(** Comparisons: every comparison with [NaN] is false. *)
Definition lt (a b : number) : bool :=
  match a, b with
  | Num x, Num y => x <? y
  | _, _ => false
  end.

Definition ge (a b : number) : bool :=
  match a, b with
  | Num x, Num y => y <=? x
  | _, _ => false
  end.

Definition strict_eq (a b : number) : bool :=
  match a, b with
  | Num x, Num y => x =? y
  | _, _ => false
  end.

(** [arr.length] as a number. *)
Definition length_of {A} (l : list A) : number := Num (Z.of_nat (length l)).

(** [arr[i]]: [None] is [undefined]. *)
Definition index {A} (l : list A) (i : number) : option A :=
  match i with
  | Num z => if z <? 0 then None else l !! Z.to_nat z
  | NaN => None
  end.

(** [`${n}`] for an integer. *)
Definition show (z : Z) : string := NilZero.string_of_int (Z.to_int z).

Definition show_bool (b : bool) : string := if b then "true" else "false".

(** The result of running a method body on a state of type [S]: it
    returns, or it throws a [TypeError] (a property read on [undefined] or
    [null]).  Either way the mutations made so far are kept. *)
Inductive completion (S : Type) : Type :=
| Returns (s : S)
| Throws (s : S).
Arguments Returns {S} s.
Arguments Throws {S} s.

Definition bind {S} (c : completion S) (k : S -> completion S) : completion S :=
  match c with
  | Returns s => k s
  | Throws s => Throws s
  end.

Definition state_of {S} (c : completion S) : S :=
  match c with
  | Returns s => s
  | Throws s => s
  end.

Definition returned {S} (c : completion S) : bool :=
  match c with
  | Returns _ => true
  | Throws _ => false
  end.

(** [n] calls of a method in a row, stopping at the first that throws. *)
Fixpoint times {S} (n : nat) (f : S -> completion S) (s : S) : completion S :=
  match n with
  | O => Returns s
  | Datatypes.S k => bind (f s) (times k f)
  end.

(** The positions, counted from [n], of the elements of a list that pass
    a test. *)
Fixpoint positions_from {A} (test : A -> bool) (n : nat) (l : list A) : list nat :=
  match l with
  | [] => []
  | x :: l' =>
      if test x then n :: positions_from test (Datatypes.S n) l'
      else positions_from test (Datatypes.S n) l'
  end.

Definition positions {A} (test : A -> bool) (l : list A) : list nat :=
  positions_from test 0 l.

End JS.

Notation "c >>> k" := (JS.bind c k) (at level 50, left associativity).

(** ** accessibility-utils.js *)

Module A11y.

(** The live region created by [createLiveRegion], with the manager's
    reduced-motion flag.  [writes] is the history of assignments to
    [announcer.textContent], oldest first; the script has no such field,
    it is kept so that the order of the writes can be stated. *)
Record AccessibilityManager : Type := {
  aria_live : string;
  textContent : string;
  reducedMotion : bool;
  writes : list string
}.

(** [new AccessibilityManager()]: [createLiveRegion] makes a polite, empty
    region; [reduced] is the result of the media query. *)
Definition create (reduced : bool) : AccessibilityManager :=
  {| aria_live := "polite"; textContent := ""; reducedMotion := reduced;
     writes := [] |}.

Definition shouldReduceMotion (am : AccessibilityManager) : bool :=
  reducedMotion am.

Definition set_text (s : string) (am : AccessibilityManager) : AccessibilityManager :=
  {| aria_live := aria_live am; textContent := s;
     reducedMotion := reducedMotion am; writes := writes am ++ [s] |}.

Definition set_live (p : string) (am : AccessibilityManager) : AccessibilityManager :=
  {| aria_live := p; textContent := textContent am;
     reducedMotion := reducedMotion am; writes := writes am |}.

(** The callbacks handed to [setTimeout] by the scripts. *)
Inductive TimerAction : Type :=
| ClearAnnouncer                 (* announce: announcer.textContent = '' *)
| RemoveTabindex (child : nat).  (* addItems: firstNewItem.removeAttribute('tabindex') *)

#[global] Instance TimerAction_eq_dec : EqDecision TimerAction.
Proof. solve_decision. Defined.

(** The page-wide state shared by the widgets: a clock in milliseconds,
    the pending timers ordered by due time (ties in scheduling order),
    [window.a11y] ([None] when accessibility-utils.js is not loaded) and
    the messages passed to [console.error]. *)
Record Window : Type := {
  now : Z;
  timers : list (Z * TimerAction);
  a11y : option AccessibilityManager;
  console : list string
}.

Definition with_a11y (o : option AccessibilityManager) (w : Window) : Window :=
  {| now := now w; timers := timers w; a11y := o; console := console w |}.

Definition with_timers (q : list (Z * TimerAction)) (w : Window) : Window :=
  {| now := now w; timers := q; a11y := a11y w; console := console w |}.

Definition console_error (msg : string) (w : Window) : Window :=
  {| now := now w; timers := timers w; a11y := a11y w;
     console := console w ++ [msg] |}.

Fixpoint schedule (t : Z * TimerAction) (q : list (Z * TimerAction))
  : list (Z * TimerAction) :=
  match q with
  | [] => [t]
  | u :: q' => if fst t <? fst u then t :: q else u :: schedule t q'
  end.

(** [setTimeout(action, delay)]. *)
Definition setTimeout (action : TimerAction) (delay : Z) (w : Window) : Window :=
  with_timers (schedule (now w + delay, action) (timers w)) w.

(** [announce(message, priority = 'polite')].  Callers test [window.a11y]
    first; without a manager there is nothing to call. *)
Definition announce (message priority : string) (w : Window) : Window :=
  match a11y w with
  | Some am =>
      setTimeout ClearAnnouncer 1000
        (with_a11y (Some (set_text message (set_live priority am))) w)
  | None => w
  end.

Definition has_a11y (w : Window) : bool :=
  match a11y w with Some _ => true | None => false end.

(** What a timer callback does to the page-wide state. *)
Definition fire (a : TimerAction) (w : Window) : Window :=
  match a with
  | ClearAnnouncer => with_a11y (set_text "" <$> a11y w) w
  | RemoveTabindex _ => w
  end.

Definition due (t : Z) (q : list (Z * TimerAction)) : list TimerAction :=
  snd <$> filter (fun u => fst u <= t) q.

Definition not_due (t : Z) (q : list (Z * TimerAction)) : list (Z * TimerAction) :=
  filter (fun u => ~ fst u <= t) q.

(** Let [dt] milliseconds pass on a page that holds no other widget: the
    timers that fall due run in order. *)
Definition elapse (dt : Z) (w : Window) : Window :=
  let t := now w + Z.max 0 dt in
  let w' := {| now := t; timers := not_due t (timers w); a11y := a11y w;
               console := console w |} in
  foldl (fun s a => fire a s) w' (due t (timers w)).

(** The text changes a live region reports: the writes that put a
    non-empty text different from the content just before it. *)
Fixpoint content_changes (before : string) (ws : list string) : list string :=
  match ws with
  | [] => []
  | s :: ws' =>
      if decide (s = before) then content_changes s ws'
      else if decide (s = "") then content_changes s ws'
      else s :: content_changes s ws'
  end.

(** What assistive technology finds in the live region: its priority and
    its text. *)
Definition channel (w : Window) : option (string * string) :=
  (fun am => (aria_live am, textContent am)) <$> a11y w.

Definition announcer_writes (w : Window) : list string :=
  match a11y w with Some am => writes am | None => [] end.

(** A page with the announcer loaded and nothing pending. *)
Definition fresh_window : Window :=
  {| now := 0; timers := []; a11y := Some (create false); console := [] |}.

End A11y.

(** ** accessible-infinite-scroll.js *)

Module Pagination.
Import A11y.

Record Options : Type := {
  itemsPerPage : Z;
  loadMoreText : string;
  loadingText : string;
  noMoreText : string;
  announceNewItems : bool;
  showPageNumbers : bool
}.

(** The defaults of the constructor. *)
Definition defaults : Options :=
  {| itemsPerPage := 10;
     loadMoreText := "Load more items";
     loadingText := "Loading more items...";
     noMoreText := "No more items to load";
     announceNewItems := true;
     showPageNumbers := false |}.

(** An item as the source of items hands it over; an empty string stands
    for any falsy [title] or [description]. *)
Record ItemData : Type := { title : string; description : string }.

(** The children of [itemsContainer]. *)
Inductive ChildKind : Type :=
| Markup                                      (* present before the script ran *)
| SkipLink                                    (* createSkipLink *)
| Controls                                    (* setupControls *)
| EndAnchor                                   (* createSkipLink *)
| Item (label heading paragraph : string).    (* createItemElement *)

Record Child : Type := { kind : ChildKind; tabindex : option string }.

Record AccessiblePagination : Type := {
  options : Options;
  currentPage : Z;
  totalItems : Z;
  isLoading : bool;
  hasMore : bool;
  children : list Child;          (* itemsContainer.children *)
  aria_busy : string;             (* itemsContainer[aria-busy] *)
  btn_disabled : bool;            (* loadMoreBtn.disabled *)
  btn_text : string;              (* loadMoreBtn.textContent *)
  statusMessage : string;         (* statusMessage.textContent *)
  pageInfo : option string;       (* pageInfo.textContent, when created *)
  focused : option nat            (* the child that last received focus() *)
}.

(** A controller on its page; [fetchCalls] counts the calls of
    [fetchMoreItems] and [inFlight] those not yet settled. *)
Record World : Type := {
  win : Window;
  ctl : AccessiblePagination;
  fetchCalls : nat;
  inFlight : nat
}.

Definition on_ctl (f : AccessiblePagination -> AccessiblePagination) (s : World) : World :=
  {| win := win s; ctl := f (ctl s); fetchCalls := fetchCalls s; inFlight := inFlight s |}.

Definition on_win (f : Window -> Window) (s : World) : World :=
  {| win := f (win s); ctl := ctl s; fetchCalls := fetchCalls s; inFlight := inFlight s |}.

Definition page_text (p : AccessiblePagination) : string :=
  "Page " +:+ JS.show (currentPage p) +:+ " • " +:+ JS.show (totalItems p)
    +:+ " items loaded".

Definition updatePageInfo (p : AccessiblePagination) : AccessiblePagination :=
  match pageInfo p with
  | Some _ =>
      {| options := options p; currentPage := currentPage p; totalItems := totalItems p;
         isLoading := isLoading p; hasMore := hasMore p; children := children p;
         aria_busy := aria_busy p; btn_disabled := btn_disabled p; btn_text := btn_text p;
         statusMessage := statusMessage p; pageInfo := Some (page_text p);
         focused := focused p |}
  | None => p
  end.

Definition setLoading (loading : bool) (p : AccessiblePagination) : AccessiblePagination :=
  {| options := options p; currentPage := currentPage p; totalItems := totalItems p;
     isLoading := loading; hasMore := hasMore p; children := children p;
     aria_busy := JS.show_bool loading;
     btn_disabled := if loading then true else false;
     btn_text := if loading then loadingText (options p)
                 else if hasMore p then loadMoreText (options p)
                      else noMoreText (options p);
     statusMessage := if loading then "Loading new items..." else "";
     pageInfo := pageInfo p; focused := focused p |}.

Definition set_status (msg : string) (p : AccessiblePagination) : AccessiblePagination :=
  {| options := options p; currentPage := currentPage p; totalItems := totalItems p;
     isLoading := isLoading p; hasMore := hasMore p; children := children p;
     aria_busy := aria_busy p; btn_disabled := btn_disabled p; btn_text := btn_text p;
     statusMessage := msg; pageInfo := pageInfo p; focused := focused p |}.

(** The [else] branch of [loadMore]: the source of items is exhausted. *)
Definition exhaust (p : AccessiblePagination) : AccessiblePagination :=
  {| options := options p; currentPage := currentPage p; totalItems := totalItems p;
     isLoading := isLoading p; hasMore := false; children := children p;
     aria_busy := aria_busy p; btn_disabled := true; btn_text := noMoreText (options p);
     statusMessage := "All items have been loaded."; pageInfo := pageInfo p;
     focused := focused p |}.

Definition next_page (p : AccessiblePagination) : AccessiblePagination :=
  {| options := options p; currentPage := currentPage p + 1; totalItems := totalItems p;
     isLoading := isLoading p; hasMore := hasMore p; children := children p;
     aria_busy := aria_busy p; btn_disabled := btn_disabled p; btn_text := btn_text p;
     statusMessage := statusMessage p; pageInfo := pageInfo p; focused := focused p |}.

Definition or_else (s fallback : string) : string :=
  if decide (s = "") then fallback else s.

Definition createItemElement (itemData : ItemData) (index : Z) : Child :=
  {| kind := Item ("Item " +:+ JS.show index)
                  (or_else (title itemData) ("Item " +:+ JS.show index))
                  (or_else (description itemData)
                           ("Description for item " +:+ JS.show index));
     tabindex := None |}.

Definition set_tabindex (v : option string) (c : Child) : Child :=
  {| kind := kind c; tabindex := v |}.

(** [items.forEach((itemData, index) => ...)] building the fragment. *)
Definition fragment (total : Z) (items : list ItemData) : list Child :=
  imap (fun index itemData => createItemElement itemData (total + Z.of_nat index + 1)) items.

(** [addItems] up to the focus handling: append, count, refresh the page
    information. *)
Definition append_items (items : list ItemData) (p : AccessiblePagination)
  : AccessiblePagination :=
  let p' :=
    {| options := options p; currentPage := currentPage p;
       totalItems := totalItems p + Z.of_nat (length items);
       isLoading := isLoading p; hasMore := hasMore p;
       children := children p ++ fragment (totalItems p) items;
       aria_busy := aria_busy p; btn_disabled := btn_disabled p; btn_text := btn_text p;
       statusMessage := statusMessage p; pageInfo := pageInfo p; focused := focused p |} in
  if showPageNumbers (options p) then updatePageInfo p' else p'.

(** [firstNewItem.setAttribute('tabindex', '-1'); firstNewItem.focus(...)]. *)
Definition focus_child (i : nat) (p : AccessiblePagination) : AccessiblePagination :=
  {| options := options p; currentPage := currentPage p; totalItems := totalItems p;
     isLoading := isLoading p; hasMore := hasMore p;
     children := alter (set_tabindex (Some "-1")) i (children p);
     aria_busy := aria_busy p; btn_disabled := btn_disabled p; btn_text := btn_text p;
     statusMessage := statusMessage p; pageInfo := pageInfo p; focused := Some i |}.

Definition remove_tabindex (i : nat) (p : AccessiblePagination) : AccessiblePagination :=
  {| options := options p; currentPage := currentPage p; totalItems := totalItems p;
     isLoading := isLoading p; hasMore := hasMore p;
     children := alter (set_tabindex None) i (children p);
     aria_busy := aria_busy p; btn_disabled := btn_disabled p; btn_text := btn_text p;
     statusMessage := statusMessage p; pageInfo := pageInfo p; focused := focused p |}.

Definition addItems (items : list ItemData) (s : World) : World :=
  let s1 := on_ctl (append_items items) s in
  let first := totalItems (ctl s1) - Z.of_nat (length items) in
  match JS.index (children (ctl s1)) (JS.Num first) with
  | Some _ =>
      on_win (setTimeout (RemoveTabindex (Z.to_nat first)) 100)
             (on_ctl (focus_child (Z.to_nat first)) s1)
  | None => s1
  end.

(** [loadMore] up to its [await]: the guard, [setLoading(true)] and the
    call of [fetchMoreItems]. *)
Definition loadMore (s : World) : World :=
  if isLoading (ctl s) || negb (hasMore (ctl s)) then s
  else {| win := win s; ctl := setLoading true (ctl s);
          fetchCalls := S (fetchCalls s); inFlight := S (inFlight s) |}.

(** How the promise of [fetchMoreItems] settles: with the new items
    ([None] for [null] or [undefined]), or with an error. *)
Inductive Fetched : Type :=
| Resolved (newItems : option (list ItemData))
| Rejected (error : string).

Definition loaded_message (n : nat) (total : Z) : string :=
  "Loaded " +:+ JS.show (Z.of_nat n) +:+ " more items. Total items: " +:+ JS.show total.

(** The [try] / [catch] part of [loadMore] after the [await]. *)
Definition loadMore_body (r : Fetched) (s : World) : World :=
  match r with
  | Resolved (Some ((_ :: _) as newItems)) =>
      let s1 := on_ctl next_page (addItems newItems s) in
      if announceNewItems (options (ctl s1)) && has_a11y (win s1)
      then on_win (announce (loaded_message (length newItems) (totalItems (ctl s1)))
                            "polite") s1
      else s1
  | Resolved _ => on_ctl exhaust s
  | Rejected _ =>
      let s1 := on_ctl (set_status "Error loading items. Please try again.")
                       (on_win (console_error "Error loading more items:") s) in
      if has_a11y (win s1)
      then on_win (announce "Error loading more items" "assertive") s1
      else s1
  end.

(** [loadMore] from its [await] to its end, [finally] included. *)
Definition loadMore_settled (r : Fetched) (s : World) : World :=
  let s1 := on_ctl (setLoading false) (loadMore_body r s) in
  {| win := win s1; ctl := ctl s1; fetchCalls := fetchCalls s1;
     inFlight := Nat.pred (inFlight s1) |}.

(** The simulated source of items, [fetchMoreItems], once its delay is
    over. *)
Definition fetchMoreItems (p : AccessiblePagination) : list ItemData :=
  let itemsToLoad := Z.min (itemsPerPage (options p)) (50 - totalItems p) in
  (fun i : nat =>
     {| title := "Item " +:+ JS.show (totalItems p + Z.of_nat i + 1);
        description := "This is the description for item "
                         +:+ JS.show (totalItems p + Z.of_nat i + 1) |})
    <$> seq 0 (Z.to_nat itemsToLoad).

(** A timer callback on a page with a pagination controller. *)
Definition fire (a : TimerAction) (s : World) : World :=
  match a with
  | ClearAnnouncer => on_win (A11y.fire a) s
  | RemoveTabindex i => on_ctl (remove_tabindex i) s
  end.

Definition elapse (dt : Z) (s : World) : World :=
  let t := now (win s) + Z.max 0 dt in
  let q := timers (win s) in
  foldl (fun x a => fire a x)
        (on_win (fun w => {| now := t; timers := not_due t q; a11y := a11y w;
                             console := console w |}) s)
        (due t q).

(** What can happen to a controller: the user asks for more (a click on
    the button or Ctrl+PageDown), a fetch settles, time passes. *)
Inductive Event : Type :=
| LoadMore
| Settle (r : Fetched)
| Elapse (dt : Z).

Definition step (s : World) (e : Event) : World :=
  match e with
  | LoadMore => loadMore s
  | Settle r => match inFlight s with
                | O => s
                | S _ => loadMore_settled r s
                end
  | Elapse dt => elapse dt s
  end.

Definition run (es : list Event) (s : World) : World := foldl step s es.

(** One whole [loadMore()] against the simulated source: the call, the
    second of simulated delay, the items computed then. *)
Definition response (s : World) : list ItemData :=
  fetchMoreItems (ctl (elapse 1000 (loadMore s))).

Definition loadMore_simulated (s : World) : World :=
  if isLoading (ctl s) || negb (hasMore (ctl s)) then s
  else loadMore_settled (Resolved (Some (response s))) (elapse 1000 (loadMore s)).

(** [new AccessiblePagination(container, options)].  [wrapper] tells
    whether the container holds a [.pagination-items] element; [markup]
    are the children of the items container before the script runs.
    Without a wrapper the items container is the container itself, which
    also receives the skip link, the controls and the end anchor. *)
Definition construct (opts : Options) (wrapper : bool) (markup : list Child)
  : AccessiblePagination :=
  let p0 :=
    {| options := opts; currentPage := 1; totalItems := Z.of_nat (length markup);
       isLoading := false; hasMore := true; children := markup;
       aria_busy := "false"; btn_disabled := false; btn_text := loadMoreText opts;
       statusMessage := "";
       pageInfo := if showPageNumbers opts then Some "" else None;
       focused := None |} in
  let p1 := if showPageNumbers opts then updatePageInfo p0 else p0 in
  if wrapper then p1
  else
    {| options := options p1; currentPage := currentPage p1; totalItems := totalItems p1;
       isLoading := isLoading p1; hasMore := hasMore p1;
       children := {| kind := SkipLink; tabindex := None |} :: children p1
                     ++ [ {| kind := Controls; tabindex := None |};
                          {| kind := EndAnchor; tabindex := Some "-1" |} ];
       aria_busy := aria_busy p1; btn_disabled := btn_disabled p1; btn_text := btn_text p1;
       statusMessage := statusMessage p1; pageInfo := pageInfo p1; focused := focused p1 |}.

Definition start (opts : Options) (wrapper : bool) (markup : list Child) (w : Window)
  : World :=
  {| win := w; ctl := construct opts wrapper markup; fetchCalls := 0; inFlight := 0 |}.

(** Everything a controller holds apart from the children of its items
    container. *)
Definition surface (p : AccessiblePagination) :=
  (options p, currentPage p, totalItems p, isLoading p, hasMore p,
   (aria_busy p, btn_disabled p, btn_text p, statusMessage p, pageInfo p, focused p)).

(** The button, the status text and [aria-busy] are as [setLoading] last
    left them. *)
Definition presented (p : AccessiblePagination) : Prop :=
  setLoading (isLoading p) p = p.

(** The states a controller can be in: those its events lead to from its
    construction. *)
Definition reachable (s : World) : Prop :=
  exists opts wrapper markup w es, s = run es (start opts wrapper markup w).

(** The controller after [k] whole calls against the simulated source. *)
Definition after_calls (k : nat) (s : World) : World :=
  Nat.iter k loadMore_simulated s.

(** The scenario of the specification: three items in the markup, the
    default options. *)
Definition three_items : list Child :=
  replicate 3 {| kind := Markup; tabindex := None |}.

Definition scenario : World := start defaults true three_items fresh_window.

End Pagination.

(** ** accessible-carousel.js *)

Module Carousel.
Import A11y.

Record Options : Type := {
  autoPlay : bool;
  pauseOnHover : bool;
  pauseOnFocus : bool;
  showDots : bool;
  showArrows : bool;
  announceSlides : bool
}.

Definition defaults : Options :=
  {| autoPlay := false; pauseOnHover := true; pauseOnFocus := true;
     showDots := true; showArrows := true; announceSlides := true |}.

(** A [.carousel-slide] element: whether its class list holds [hidden],
    and two of its attributes. *)
Record Slide : Type := {
  hidden : bool;
  tabindex : option string;
  aria_label : option string
}.

(** A [.carousel-dot] button: the two pairs of colour classes and
    [aria-selected]. *)
Record Dot : Type := {
  blue : bool;       (* bg-blue-600 border-blue-600 *)
  gray : bool;       (* bg-gray-300 border-gray-300 *)
  aria_selected : string
}.

(** Autoplay is off by default and its interval only calls [nextSlide];
    the play state is not part of the model. *)
Record AccessibleCarousel : Type := {
  options : Options;
  currentSlide : JS.number;
  slides : list Slide;
  dots : list Dot        (* container.querySelectorAll('.carousel-dot') *)
}.

Record World : Type := { win : Window; car : AccessibleCarousel }.

Definition on_win (f : Window -> Window) (s : World) : World :=
  {| win := f (win s); car := car s |}.

Definition set_current (i : JS.number) (s : World) : World :=
  {| win := win s;
     car := {| options := options (car s); currentSlide := i;
               slides := slides (car s); dots := dots (car s) |} |}.

Definition position (i : JS.number) : nat :=
  match i with JS.Num z => Z.to_nat z | JS.NaN => 0%nat end.

(** [this.slides[i].<mutation>]: a [TypeError] when [slides[i]] is
    [undefined]. *)
Definition on_slide (i : JS.number) (f : Slide -> Slide) (s : World) : JS.completion World :=
  match JS.index (slides (car s)) i with
  | Some _ =>
      JS.Returns
        {| win := win s;
           car := {| options := options (car s); currentSlide := currentSlide (car s);
                     slides := alter f (position i) (slides (car s));
                     dots := dots (car s) |} |}
  | None => JS.Throws s
  end.

Definition on_dot (i : JS.number) (f : Dot -> Dot) (s : World) : JS.completion World :=
  match JS.index (dots (car s)) i with
  | Some _ =>
      JS.Returns
        {| win := win s;
           car := {| options := options (car s); currentSlide := currentSlide (car s);
                     slides := slides (car s);
                     dots := alter f (position i) (dots (car s)) |} |}
  | None => JS.Throws s
  end.

Definition hide (x : Slide) : Slide :=
  {| hidden := true; tabindex := Some "-1"; aria_label := aria_label x |}.

Definition show (x : Slide) : Slide :=
  {| hidden := false; tabindex := Some "0"; aria_label := aria_label x |}.

Definition deselect (d : Dot) : Dot :=
  {| blue := false; gray := true; aria_selected := "false" |}.

Definition select (d : Dot) : Dot :=
  {| blue := true; gray := false; aria_selected := "true" |}.

Definition show_number (i : JS.number) : string :=
  match i with JS.Num z => JS.show z | JS.NaN => "NaN" end.

Definition slide_message (s : World) : string :=
  "Slide " +:+ show_number (JS.add (currentSlide (car s)) (JS.Num 1)) +:+ " of "
    +:+ JS.show (Z.of_nat (length (slides (car s)))).

Definition update_dots (previousSlide : JS.number) (s : World) : JS.completion World :=
  if (0 <? Z.of_nat (length (dots (car s))))
  then on_dot previousSlide deselect s >>> on_dot (currentSlide (car s)) select
  else JS.Returns s.

Definition announce_slide (s : World) : JS.completion World :=
  if announceSlides (options (car s)) && has_a11y (win s)
  then JS.Returns (on_win (announce (slide_message s) "polite") s)
  else JS.Returns s.

Definition goToSlide (index : JS.number) (s : World) : JS.completion World :=
  if JS.lt index (JS.Num 0)
     || JS.ge index (JS.length_of (slides (car s)))
     || JS.strict_eq index (currentSlide (car s))
  then JS.Returns s
  else
    let previousSlide := currentSlide (car s) in
    JS.Returns (set_current index s)
      >>> on_slide previousSlide hide
      >>> on_slide index show
      >>> update_dots previousSlide
      >>> announce_slide.

Definition nextSlide (s : World) : JS.completion World :=
  let n := JS.length_of (slides (car s)) in
  goToSlide (JS.rem (JS.add (currentSlide (car s)) (JS.Num 1)) n) s.

Definition previousSlide (s : World) : JS.completion World :=
  let n := JS.length_of (slides (car s)) in
  goToSlide (JS.rem (JS.add (JS.sub (currentSlide (car s)) (JS.Num 1)) n) n) s.

(** [setupStructure] on the slides found in the container. *)
Definition setupStructure (markup : list Slide) : list Slide :=
  imap (fun index x =>
          {| hidden := if decide (index = 0%nat) then hidden x else true;
             tabindex := Some (if decide (index = 0%nat) then "0" else "-1");
             aria_label := Some ("Slide " +:+ JS.show (Z.of_nat index + 1) +:+ " of "
                                   +:+ JS.show (Z.of_nat (length markup))) |})
       markup.

(** The dot indicators made by [setupControls]. *)
Definition make_dots (opts : Options) (n : nat) : list Dot :=
  if showDots opts && (1 <? Z.of_nat n)
  then (fun index : nat =>
          if decide (index = 0%nat)
          then {| blue := true; gray := false; aria_selected := "true" |}
          else {| blue := false; gray := true; aria_selected := "false" |})
         <$> seq 0 n
  else [].

(** [setupAccessibility]: reduced motion switches autoplay off. *)
Definition effective_options (opts : Options) (w : Window) : Options :=
  match a11y w with
  | Some am =>
      if shouldReduceMotion am
      then {| autoPlay := false; pauseOnHover := pauseOnHover opts;
              pauseOnFocus := pauseOnFocus opts; showDots := showDots opts;
              showArrows := showArrows opts; announceSlides := announceSlides opts |}
      else opts
  | None => opts
  end.

(** [new AccessibleCarousel(container, options)] over the slides found
    in the container.  With no slide [setupStructure] returns at once and
    the rest of [init] still runs. *)
Definition construct (opts : Options) (markup : list Slide) (w : Window) : World :=
  {| win := w;
     car := {| options := effective_options opts w;
               currentSlide := JS.Num 0;
               slides := setupStructure markup;
               dots := make_dots opts (length markup) |} |}.

(** The operations that move between slides: the arrows, the arrow keys
    and the autoplay interval call [nextSlide] and [previousSlide]; the
    dots, Home and End call [goToSlide] with an integer. *)
Inductive Op : Type :=
| GoTo (index : Z)
| Next
| Previous.

Definition apply (o : Op) (s : World) : JS.completion World :=
  match o with
  | GoTo z => goToSlide (JS.Num z) s
  | Next => nextSlide s
  | Previous => previousSlide s
  end.

Definition run (os : list Op) (s : World) : JS.completion World :=
  foldl (fun c o => c >>> apply o) (JS.Returns s) os.

(** The positions of the slides that carry [tabindex="0"]. *)
Definition tab_stop (x : Slide) : bool := bool_decide (tabindex x = Some "0").

Definition tab_stops (s : World) : list nat := JS.positions tab_stop (slides (car s)).

(** A carousel whose current slide is the [i]-th of its slides and whose
    dots, when it has any, are one per slide. *)
Definition well_formed (s : World) (i : Z) : Prop :=
  currentSlide (car s) = JS.Num i
  /\ 0 <= i < Z.of_nat (length (slides (car s)))
  /\ (dots (car s) = [] \/ length (dots (car s)) = length (slides (car s))).

(** The slide at position [i], and no other, carries [tabindex="0"]. *)
Definition roving (s : World) (i : Z) : Prop :=
  forall (k : nat) (x : Slide),
    slides (car s) !! k = Some x -> (tabindex x = Some "0" <-> k = Z.to_nat i).

(** Slides as they may stand in the markup. *)
Definition plain_slide : Slide :=
  {| hidden := false; tabindex := None; aria_label := None |}.

Definition four_slides : World :=
  construct defaults [plain_slide; plain_slide; plain_slide; plain_slide] fresh_window.

End Carousel.

(** ** accessible-dropdown.js *)

Module Dropdown.
Import A11y.

Record Options : Type := {
  closeOnClickOutside : bool;
  closeOnEscape : bool;
  announceStateChanges : bool
}.

Definition defaults : Options :=
  {| closeOnClickOutside := true; closeOnEscape := true; announceStateChanges := true |}.

Record MenuItem : Type := {
  role : option string;
  tabindex : option string
}.

(** The menu element: whether its class list holds [hidden] and whether
    the screen-reader instructions were appended. *)
Record Menu : Type := { hidden : bool; instructions : bool }.

Inductive Focus : Type :=
| OnTrigger
| OnItem (i : nat).

Record AccessibleDropdown : Type := {
  options : Options;
  menu : option Menu;              (* None is null *)
  menuItems : list MenuItem;
  isOpen : bool;
  currentIndex : JS.number;
  aria_expanded : option string;   (* trigger[aria-expanded] *)
  active : option Focus            (* the element focus() was last called on *)
}.

Record World : Type := { win : Window; dd : AccessibleDropdown }.

Definition on_win (f : Window -> Window) (s : World) : World :=
  {| win := f (win s); dd := dd s |}.

Definition position (i : JS.number) : nat :=
  match i with JS.Num z => Z.to_nat z | JS.NaN => 0%nat end.

Definition set_isOpen (b : bool) (s : World) : World :=
  {| win := win s;
     dd := {| options := options (dd s); menu := menu (dd s); menuItems := menuItems (dd s);
              isOpen := b; currentIndex := currentIndex (dd s);
              aria_expanded := aria_expanded (dd s); active := active (dd s) |} |}.

Definition set_currentIndex (i : JS.number) (s : World) : World :=
  {| win := win s;
     dd := {| options := options (dd s); menu := menu (dd s); menuItems := menuItems (dd s);
              isOpen := isOpen (dd s); currentIndex := i;
              aria_expanded := aria_expanded (dd s); active := active (dd s) |} |}.

Definition set_expanded (v : string) (s : World) : World :=
  {| win := win s;
     dd := {| options := options (dd s); menu := menu (dd s); menuItems := menuItems (dd s);
              isOpen := isOpen (dd s); currentIndex := currentIndex (dd s);
              aria_expanded := Some v; active := active (dd s) |} |}.

Definition set_active (f : Focus) (s : World) : World :=
  {| win := win s;
     dd := {| options := options (dd s); menu := menu (dd s); menuItems := menuItems (dd s);
              isOpen := isOpen (dd s); currentIndex := currentIndex (dd s);
              aria_expanded := aria_expanded (dd s); active := Some f |} |}.

(** [this.menu.<mutation>]: a [TypeError] when [menu] is [null]. *)
Definition on_menu (f : Menu -> Menu) (s : World) : JS.completion World :=
  match menu (dd s) with
  | Some m =>
      JS.Returns
        {| win := win s;
           dd := {| options := options (dd s); menu := Some (f m);
                    menuItems := menuItems (dd s); isOpen := isOpen (dd s);
                    currentIndex := currentIndex (dd s);
                    aria_expanded := aria_expanded (dd s); active := active (dd s) |} |}
  | None => JS.Throws s
  end.

Definition with_tabindex (v : string) (x : MenuItem) : MenuItem :=
  {| role := role x; tabindex := Some v |}.

(** [this.menuItems[i].setAttribute('tabindex', v)]: a [TypeError] when
    [menuItems[i]] is [undefined]. *)
Definition set_tabindex (i : JS.number) (v : string) (s : World) : JS.completion World :=
  match JS.index (menuItems (dd s)) i with
  | Some _ =>
      JS.Returns
        {| win := win s;
           dd := {| options := options (dd s); menu := menu (dd s);
                    menuItems :=
                      alter (with_tabindex v) (position i) (menuItems (dd s));
                    isOpen := isOpen (dd s); currentIndex := currentIndex (dd s);
                    aria_expanded := aria_expanded (dd s); active := active (dd s) |} |}
  | None => JS.Throws s
  end.

Definition show_menu (m : Menu) : Menu := {| hidden := false; instructions := instructions m |}.
Definition hide_menu (m : Menu) : Menu := {| hidden := true; instructions := instructions m |}.
Definition add_instructions (m : Menu) : Menu := {| hidden := hidden m; instructions := true |}.

Definition announce_state (msg : string) (s : World) : JS.completion World :=
  if announceStateChanges (options (dd s)) && has_a11y (win s)
  then JS.Returns (on_win (announce msg "polite") s)
  else JS.Returns s.

Definition focusItem (index : JS.number) (s : World) : JS.completion World :=
  if JS.lt index (JS.Num 0) || JS.ge index (JS.length_of (menuItems (dd s)))
  then JS.Returns s
  else
    (if JS.ge (currentIndex (dd s)) (JS.Num 0)
     then set_tabindex (currentIndex (dd s)) "-1" s
     else JS.Returns s)
      >>> (fun s1 => JS.Returns (set_currentIndex index s1))
      >>> set_tabindex index "0"
      >>> (fun s1 => JS.Returns (set_active (OnItem (position index)) s1)).

Definition focusFirstItem (s : World) : JS.completion World :=
  focusItem (JS.Num 0) s.

Definition focusLastItem (s : World) : JS.completion World :=
  focusItem (JS.sub (JS.length_of (menuItems (dd s))) (JS.Num 1)) s.

Definition focusNextItem (s : World) : JS.completion World :=
  let n := JS.length_of (menuItems (dd s)) in
  focusItem (JS.rem (JS.add (currentIndex (dd s)) (JS.Num 1)) n) s.

Definition focusPreviousItem (s : World) : JS.completion World :=
  let n := JS.length_of (menuItems (dd s)) in
  focusItem (JS.rem (JS.add (JS.sub (currentIndex (dd s)) (JS.Num 1)) n) n) s.

Definition open (s : World) : JS.completion World :=
  if isOpen (dd s) then JS.Returns s
  else
    on_menu show_menu (set_isOpen true s)
      >>> (fun s1 => JS.Returns (set_expanded "true" s1))
      >>> announce_state "Menu opened"
      >>> focusFirstItem.

Definition close (s : World) : JS.completion World :=
  if negb (isOpen (dd s)) then JS.Returns s
  else
    on_menu hide_menu (set_isOpen false s)
      >>> (fun s1 => JS.Returns (set_currentIndex (JS.Num (-1)) (set_expanded "false" s1)))
      >>> announce_state "Menu closed".

Definition toggle (s : World) : JS.completion World :=
  if isOpen (dd s) then close s else open s.

(** [setupStructure] on the items found in the menu: a missing role
    becomes [menuitem], every [tabindex] becomes ["-1"]. *)
Definition setup_item (x : MenuItem) : MenuItem :=
  {| role := match role x with Some r => Some r | None => Some "menuitem" end;
     tabindex := Some "-1" |}.

(** [new AccessibleDropdown(trigger, options)].  [found] is the menu
    element the trigger designates, with the items the selector matches
    in it, or [None] when there is no such element.  [setupStructure]
    returns early without a menu; [setupEventListeners] guards the menu
    listeners; [setupAccessibility] appends the instructions to the
    menu. *)
Definition construct (opts : Options) (found : option (Menu * list MenuItem)) (w : Window)
  : JS.completion World :=
  let d :=
    match found with
    | Some (m, items) =>
        {| options := opts; menu := Some (hide_menu m);
           menuItems := setup_item <$> items; isOpen := false;
           currentIndex := JS.Num (-1); aria_expanded := Some "false"; active := None |}
    | None =>
        {| options := opts; menu := None; menuItems := []; isOpen := false;
           currentIndex := JS.Num (-1); aria_expanded := None; active := None |}
    end in
  on_menu add_instructions {| win := w; dd := d |}.

(** The operations on the focused item: the keys on the trigger and in
    the menu call them. *)
Inductive Op : Type :=
| Open
| FocusItem (index : Z)
| FocusFirst
| FocusLast
| FocusNext
| FocusPrevious.

Definition apply (o : Op) (s : World) : JS.completion World :=
  match o with
  | Open => open s
  | FocusItem z => focusItem (JS.Num z) s
  | FocusFirst => focusFirstItem s
  | FocusLast => focusLastItem s
  | FocusNext => focusNextItem s
  | FocusPrevious => focusPreviousItem s
  end.

Definition run (os : list Op) (s : World) : JS.completion World :=
  foldl (fun c o => c >>> apply o) (JS.Returns s) os.

(** The positions of the items that carry [tabindex="0"]. *)
Definition tab_stop (x : MenuItem) : bool := bool_decide (tabindex x = Some "0").

Definition tab_stops (s : World) : list nat := JS.positions tab_stop (menuItems (dd s)).

(** A dropdown with at least one item, whose current index is [i]: an
    item, or [-1] for none. *)
Definition well_formed (s : World) (i : Z) : Prop :=
  currentIndex (dd s) = JS.Num i
  /\ -1 <= i < Z.of_nat (length (menuItems (dd s)))
  /\ (1 <= length (menuItems (dd s)))%nat.

(** The item at position [i], and no other, carries [tabindex="0"]; none
    does when [i] is [-1]. *)
Definition roving (s : World) (i : Z) : Prop :=
  forall (k : nat) (x : MenuItem),
    menuItems (dd s) !! k = Some x -> (tabindex x = Some "0" <-> Z.of_nat k = i).

(** A menu and items as they may stand in the markup. *)
Definition plain_menu : Menu := {| hidden := false; instructions := false |}.

Definition plain_item : MenuItem := {| role := None; tabindex := None |}.

Definition three_entries : JS.completion World :=
  construct defaults (Some (plain_menu, [plain_item; plain_item; plain_item])) fresh_window.

End Dropdown.

(** ** Views of the load-more controller used by the further facts *)

Module PaginationViews.
Import A11y Pagination.

(** What the children of the items container are, leaving their
    [tabindex] aside. *)
Definition kinds (p : AccessiblePagination) : list ChildKind := kind <$> children p.

(** The number of children the items container holds besides the counted
    items: none with a wrapper, else the skip link, the controls and the
    end anchor. *)
Definition extra_children (wrapper : bool) : Z := if wrapper then 0 else 3.

End PaginationViews.

(** ** accessibility-utils.js: focus management *)

Module FocusManager.

(** Elements are told apart by a number. *)
Definition Element : Type := nat.

(** The part of the manager and of the document that [manageFocus],
    [restoreFocus] and [trapFocus] use: the focus history, the element
    that has the focus ([document.activeElement], [None] for [null]) and
    the [handleEscape] listeners, one entry per listener, by the element
    it listens on. *)
Record Manager : Type := {
  focusHistory : list (option Element);
  activeElement : option Element;
  escapeListeners : list Element
}.

(** The options of [manageFocus]. *)
Record FocusOptions : Type := {
  preventScroll : bool;
  savePrevious : bool;
  restoreOnEscape : bool
}.

Definition defaults : FocusOptions :=
  {| preventScroll := false; savePrevious := true; restoreOnEscape := true |}.

Section Document.

(** What the document decides.  [canFocus e] tells whether [e.focus()]
    moves the focus to [e]: on an element that is not focusable, such as
    a [body] without [tabindex], the call does nothing.  [ancestor a x]
    tells whether [a] is an ancestor of [x], other than [x] itself. *)
Variable canFocus : Element -> bool.
Variable ancestor : Element -> Element -> bool.

(** [e.focus()]. *)
Definition focus (e : Element) (m : Manager) : Manager :=
  if canFocus e
  then {| focusHistory := focusHistory m; activeElement := Some e;
          escapeListeners := escapeListeners m |}
  else m.

(** [manageFocus(element, options)]; [None] is a falsy [element]. *)
Definition manageFocus (element : option Element) (o : FocusOptions) (m : Manager)
  : Manager :=
  match element with
  | None => m
  | Some e =>
      let saved :=
        {| focusHistory := if savePrevious o then focusHistory m ++ [activeElement m]
                           else focusHistory m;
           activeElement := activeElement m;
           escapeListeners := escapeListeners m |} in
      let focused := focus e saved in
      {| focusHistory := focusHistory focused;
         activeElement := activeElement focused;
         escapeListeners := if restoreOnEscape o then escapeListeners focused ++ [e]
                            else escapeListeners focused |}
  end.

(** [restoreFocus()]: pop the history and, when the popped entry is an
    element, call its [focus()]. *)
Definition restoreFocus (m : Manager) : Manager :=
  match last (focusHistory m) with
  | None => m
  | Some previousElement =>
      let popped :=
        {| focusHistory := take (length (focusHistory m) - 1) (focusHistory m);
           activeElement := activeElement m;
           escapeListeners := escapeListeners m |} in
      match previousElement with
      | Some p => focus p popped
      | None => popped
      end
  end.

(** Whether a listener set on [x] runs for a [keydown] dispatched to
    [target]: the event bubbles from the target through its ancestors,
    and [handleEscape] does not look at the target. *)
Definition hears (target x : Element) : bool :=
  bool_decide (x = target) || ancestor x target.

(** A [keydown] with key [Escape] dispatched to [target]: each
    [handleEscape] listener on the way restores the focus and removes
    itself. *)
Definition pressEscape (target : Element) (m : Manager) : Manager :=
  let n := length (filter (fun x => hears target x = true) (escapeListeners m)) in
  let m' := Nat.iter n restoreFocus m in
  {| focusHistory := focusHistory m';
     activeElement := activeElement m';
     escapeListeners := filter (fun x => hears target x <> true) (escapeListeners m) |}.

(** The element that has the focus once everything managed has been
    restored, when [p] had it at the start and the focus of [es] was
    managed: [p] if it can take the focus back, else the first of [es]
    that could take it, else [p], which never lost it. *)
Definition resting (p : Element) (es : list Element) : Element :=
  if canFocus p then p
  else default p (head (filter (fun x => canFocus x = true) es)).

End Document.

(** [handleTabKey] of [trapFocus] over the focusable elements of the
    container: the element that has the focus afterwards and whether
    [preventDefault] was called.  The first and the last of the elements
    the selector matched are taken to accept [focus()]. *)
Definition handleTabKey (focusable : list Element) (key : string) (shiftKey : bool)
    (active : option Element) : option Element * bool :=
  if decide (key = "Tab") then
    match head focusable, last focusable with
    | Some firstElement, Some lastElement =>
        if shiftKey
        then if decide (active = Some firstElement) then (Some lastElement, true)
             else (active, false)
        else if decide (active = Some lastElement) then (Some firstElement, true)
             else (active, false)
    | _, _ => (active, false)
    end
  else (active, false).

(** [trapFocus(container)]: with no focusable element it returns at once
    and sets no listener. *)
Definition trapFocus (focusable : list Element)
  : option (string -> bool -> option Element -> option Element * bool) :=
  match focusable with
  | [] => None
  | _ :: _ => Some (handleTabKey focusable)
  end.

Section Navigation.

(** Where the browser itself moves the focus on Tab ([forward]) and on
    Shift+Tab ([backward]). *)
Variable forward backward : Element -> Element.

(** A Tab key press in a container whose focus is trapped: the listener
    runs, then the browser moves the focus unless the listener prevented
    it. *)
Definition pressTab (focusable : list Element) (shiftKey : bool)
    (active : option Element) : option Element :=
  match trapFocus focusable with
  | Some handler =>
      let r := handler "Tab" shiftKey active in
      if snd r then fst r
      else (if shiftKey then backward else forward) <$> fst r
  | None => (if shiftKey then backward else forward) <$> active
  end.

Definition pressTabs (focusable : list Element) (shifts : list bool)
    (active : option Element) : option Element :=
  foldl (fun a shiftKey => pressTab focusable shiftKey a) active shifts.

End Navigation.

(** A page where the element 7 has the focus and nothing is managed. *)
Definition idle : Manager :=
  {| focusHistory := []; activeElement := Some 7%nat; escapeListeners := [] |}.

(** A page where nothing has the focus: [document.activeElement] is the
    body, element 0. *)
Definition unfocused : Manager :=
  {| focusHistory := []; activeElement := Some 0%nat; escapeListeners := [] |}.

(** A flat document: the body, element 0, is not focusable and is the
    parent of every other element, which is focusable. *)
Definition flat_canFocus (e : Element) : bool := negb (e =? 0)%nat.

Definition flat_ancestor (a x : Element) : bool := (a =? 0)%nat && negb (x =? 0)%nat.

End FocusManager.

(** ** accessible-carousel.js: what is shown, autoplay and the keyboard *)

Module CarouselPlayer.
Import A11y.

(** Every slide but the [i]-th is hidden and out of the tab order, the
    [i]-th is shown and in it, and the dots, when there are any, mark the
    [i]-th. *)
Definition canonical (s : Carousel.World) (i : Z) : Prop :=
  (forall (k : nat) (x : Carousel.Slide),
      Carousel.slides (Carousel.car s) !! k = Some x ->
      Carousel.hidden x = bool_decide (Z.of_nat k <> i)
      /\ Carousel.tabindex x = Some (if decide (Z.of_nat k = i) then "0" else "-1"))
  /\ (forall (k : nat) (d : Carousel.Dot),
         Carousel.dots (Carousel.car s) !! k = Some d ->
         d = if decide (Z.of_nat k = i) then Carousel.select d else Carousel.deselect d).

(** A carousel with its play state.  [playInterval] tells whether the
    field holds an interval, [intervals] counts the intervals set and not
    cleared, [playPauseBtn] is the [aria-label] of the play/pause button
    when [setupControls] made one. *)
Record Player : Type := {
  world : Carousel.World;
  isPlaying : bool;
  playInterval : bool;
  intervals : nat;
  playPauseBtn : option string
}.

Definition options (p : Player) : Carousel.Options :=
  Carousel.options (Carousel.car (world p)).

(** [new AccessibleCarousel(container, options)]: the button is made when
    the options given ask for autoplay, before [setupAccessibility] may
    switch autoplay off. *)
Definition construct (opts : Carousel.Options) (markup : list Carousel.Slide) (w : Window)
  : Player :=
  {| world := Carousel.construct opts markup w;
     isPlaying := false;
     playInterval := false;
     intervals := 0;
     playPauseBtn := if Carousel.autoPlay opts then Some "Play carousel" else None |}.

Definition play (p : Player) : Player :=
  if negb (Carousel.autoPlay (options p)) || isPlaying p then p
  else {| world := world p;
          isPlaying := true;
          playInterval := true;
          intervals := S (intervals p);
          playPauseBtn := match playPauseBtn p with
                          | Some _ => Some "Pause carousel"
                          | None => None
                          end |}.

Definition pause (p : Player) : Player :=
  {| world := world p;
     isPlaying := false;
     playInterval := false;
     intervals := if playInterval p then Nat.pred (intervals p) else intervals p;
     playPauseBtn := match playPauseBtn p with
                     | Some _ => Some "Play carousel"
                     | None => None
                     end |}.

Definition togglePlayPause (p : Player) : Player :=
  if isPlaying p then pause p else play p.

(** A method of the carousel proper, run on the player. *)
Definition on_world (f : Carousel.World -> JS.completion Carousel.World) (p : Player)
  : JS.completion Player :=
  let put w := {| world := w; isPlaying := isPlaying p; playInterval := playInterval p;
                  intervals := intervals p; playPauseBtn := playPauseBtn p |} in
  match f (world p) with
  | JS.Returns w => JS.Returns (put w)
  | JS.Throws w => JS.Throws (put w)
  end.

Definition last_index (p : Player) : JS.number :=
  JS.sub (JS.length_of (Carousel.slides (Carousel.car (world p)))) (JS.Num 1).

(** A click on the [i]-th dot, if there is one: its listener calls
    [goToSlide(i)]. *)
Definition clickDot (i : nat) (p : Player) : JS.completion Player :=
  match Carousel.dots (Carousel.car (world p)) !! i with
  | Some _ => on_world (Carousel.goToSlide (JS.Num (Z.of_nat i))) p
  | None => JS.Returns p
  end.

(** The listener of [setupKeyboardNavigation]; [dot] is the index of the
    dot the event targets, if it targets one: [e.target.click()] runs the
    click listener of that dot. *)
Definition keydown (key : string) (dot : option nat) (p : Player) : JS.completion Player :=
  if decide (key = "ArrowLeft") then on_world Carousel.previousSlide p
  else if decide (key = "ArrowRight") then on_world Carousel.nextSlide p
  else if decide (key = "Home") then on_world (Carousel.goToSlide (JS.Num 0)) p
  else if decide (key = "End") then on_world (Carousel.goToSlide (last_index p)) p
  else if decide (key = " " \/ key = "Enter") then
    match dot with
    | Some i => clickDot i p
    | None => JS.Returns p
    end
  else JS.Returns p.

(** The events the carousel listens to, and the firing of its autoplay
    interval. *)
Inductive Event : Type :=
| ClickPlayPause
| ClickPrev
| ClickNext
| ClickDot (i : nat)
| Keydown (key : string) (dot : option nat)
| MouseEnter
| MouseLeave
| FocusIn
| FocusOut
| Tick.

(** A listener runs only if [init] has set it: the play/pause button and
    the arrows exist according to the options, a dot exists if its index
    is within the dots, the interval fires only while one is set. *)
Definition handle (e : Event) (p : Player) : JS.completion Player :=
  match e with
  | ClickPlayPause =>
      match playPauseBtn p with
      | Some _ => JS.Returns (togglePlayPause p)
      | None => JS.Returns p
      end
  | ClickPrev =>
      if Carousel.showArrows (options p) then on_world Carousel.previousSlide p
      else JS.Returns p
  | ClickNext =>
      if Carousel.showArrows (options p) then on_world Carousel.nextSlide p
      else JS.Returns p
  | ClickDot i => clickDot i p
  | Keydown key dot => keydown key dot p
  | MouseEnter =>
      if Carousel.pauseOnHover (options p) then JS.Returns (pause p) else JS.Returns p
  | MouseLeave =>
      if Carousel.pauseOnHover (options p) && Carousel.autoPlay (options p)
      then JS.Returns (play p) else JS.Returns p
  | FocusIn =>
      if Carousel.pauseOnFocus (options p) then JS.Returns (pause p) else JS.Returns p
  | FocusOut =>
      if Carousel.pauseOnFocus (options p) && Carousel.autoPlay (options p)
      then JS.Returns (play p) else JS.Returns p
  | Tick =>
      match intervals p with
      | O => JS.Returns p
      | S _ => on_world Carousel.nextSlide p
      end
  end.

(** The events one after the other; an exception thrown by a listener is
    reported and the page goes on with the next event. *)
Definition run (es : list Event) (p : Player) : Player :=
  foldl (fun q e => JS.state_of (handle e q)) p es.

(** A page whose user asks for reduced motion. *)
Definition calm_window : Window :=
  {| now := 0; timers := []; a11y := Some (create true); console := [] |}.

Definition autoplaying : Carousel.Options :=
  {| Carousel.autoPlay := true; Carousel.pauseOnHover := true;
     Carousel.pauseOnFocus := true; Carousel.showDots := true;
     Carousel.showArrows := true; Carousel.announceSlides := true |}.

End CarouselPlayer.

(** ** accessible-dropdown.js: the listeners *)

Module DropdownEvents.
Import A11y Dropdown.

(** [this.trigger.focus()]. *)
Definition focus_trigger (s : World) : JS.completion World :=
  JS.Returns (set_active OnTrigger s).

(** The [keydown] listener of the trigger. *)
Definition triggerKeydown (key : string) (s : World) : JS.completion World :=
  if decide (key = "Enter" \/ key = " ") then open s
  else if decide (key = "ArrowDown") then open s >>> focusFirstItem
  else if decide (key = "ArrowUp") then open s >>> focusLastItem
  else JS.Returns s.

Section Selection.

(** What [selectCurrentItem] does depends on the items themselves (it
    clicks links and buttons); it is left open here. *)
Variable selectCurrentItem : World -> JS.completion World.

Definition handleMenuKeydown (key : string) (s : World) : JS.completion World :=
  if decide (key = "ArrowDown") then focusNextItem s
  else if decide (key = "ArrowUp") then focusPreviousItem s
  else if decide (key = "Home") then focusFirstItem s
  else if decide (key = "End") then focusLastItem s
  else if decide (key = "Enter" \/ key = " ") then selectCurrentItem s
  else if decide (key = "Escape") then close s >>> focus_trigger
  else if decide (key = "Tab") then close s
  else JS.Returns s.

(** The [keydown] listener of the document, set when [closeOnEscape]. *)
Definition documentKeydown (key : string) (s : World) : JS.completion World :=
  if closeOnEscape (options (dd s)) && bool_decide (key = "Escape") && isOpen (dd s)
  then close s >>> focus_trigger
  else JS.Returns s.

(** The [click] listener of the document, set when [closeOnClickOutside],
    for a click outside the trigger: [this.menu.contains] is a
    [TypeError] without a menu; [inMenu] tells whether the menu contains
    the target. *)
Definition documentClick (inMenu : bool) (s : World) : JS.completion World :=
  if closeOnClickOutside (options (dd s)) then
    match menu (dd s) with
    | Some _ => if inMenu then JS.Returns s else close s
    | None => JS.Throws s
    end
  else JS.Returns s.

(** A second listener for the same event: it runs on the state the first
    left, also when the first threw. *)
Definition and_then (c : JS.completion World) (k : World -> JS.completion World)
  : JS.completion World :=
  match c with
  | JS.Returns s => k s
  | JS.Throws s => JS.Throws (JS.state_of (k s))
  end.

(** The events a dropdown listens to.  A key pressed on the trigger or
    in the menu bubbles to the document; the menu has its listener only if
    there is a menu. *)
Inductive Event : Type :=
| TriggerClick
| TriggerKey (key : string)
| MenuKey (key : string)
| OutsideClick
| OutsideKey (key : string).

Definition handle (e : Event) (s : World) : JS.completion World :=
  match e with
  | TriggerClick => toggle s
  | TriggerKey key => and_then (triggerKeydown key s) (documentKeydown key)
  | MenuKey key =>
      match menu (dd s) with
      | Some _ => and_then (handleMenuKeydown key s) (documentKeydown key)
      | None => documentKeydown key s
      end
  | OutsideClick => documentClick false s
  | OutsideKey key => documentKeydown key s
  end.

Definition run (es : list Event) (s : World) : JS.completion World :=
  foldl (fun c e => c >>> handle e) (JS.Returns s) es.

End Selection.

(** An event that selects an item. *)
Definition selects (e : Event) : Prop :=
  e = MenuKey "Enter" \/ e = MenuKey " ".

(** The open state, the visibility of the menu and [aria-expanded] of the
    trigger agree. *)
Definition agrees (s : World) : Prop :=
  exists m, menu (dd s) = Some m
            /\ hidden m = negb (isOpen (dd s))
            /\ aria_expanded (dd s) = Some (JS.show_bool (isOpen (dd s))).

(** What the focus operations leave alone. *)
Definition same_shell (s s' : World) : Prop :=
  options (dd s') = options (dd s) /\ menu (dd s') = menu (dd s)
  /\ isOpen (dd s') = isOpen (dd s) /\ aria_expanded (dd s') = aria_expanded (dd s)
  /\ win s' = win s.

(** The state the listeners keep, for a menu of [n] items: the open state
    and the menu agree, the current index is [-1] or an item, and it is an
    item while the dropdown is open. *)
Definition steady (n : nat) (s : World) : Prop :=
  agrees s
  /\ length (menuItems (dd s)) = n
  /\ exists i, well_formed s i /\ (isOpen (dd s) = true -> 0 <= i).

(** What a listener that closes the dropdown [s] leaves: the dropdown
    closed with no current item, the menu hidden, the items as they were
    and the focus on [focus]. *)
Definition closed_from (s : World) (focus : option Focus) (s' : World) : Prop :=
  isOpen (dd s') = false /\ currentIndex (dd s') = JS.Num (-1)
  /\ hidden <$> menu (dd s') = Some true
  /\ aria_expanded (dd s') = Some "false"
  /\ menuItems (dd s') = menuItems (dd s)
  /\ active (dd s') = focus.

(** A dropdown of three items, open on the last of them. *)
Definition open_on_last : World :=
  JS.state_of (three_entries >>> open >>> focusLastItem).

End DropdownEvents.

(** * Facts about indices *)

Module JSFacts.

Lemma index_valid {A} (l : list A) (z : Z) :
  0 <= z < Z.of_nat (length l) -> exists x, JS.index l (JS.Num z) = Some x.
Proof.
  intros H. unfold JS.index. rewrite (proj2 (Z.ltb_ge z 0)) by lia.
  apply lookup_lt_is_Some_2. lia.
Qed.

(** [%] on a dividend that is not negative is the mathematical
    remainder. *)
Lemma rem_nonneg (a n : Z) :
  0 <= a -> 0 < n -> JS.rem (JS.Num a) (JS.Num n) = JS.Num (a mod n).
Proof.
  intros Ha Hn. cbn. rewrite (proj2 (Z.eqb_neq n 0)) by lia.
  by rewrite Z.rem_mod_nonneg by lia.
Qed.

Lemma positions_from_none {A} (test : A -> bool) (l : list A) (n : nat) :
  (forall k x, l !! k = Some x -> test x = false) ->
  JS.positions_from test n l = [].
Proof.
  revert n. induction l as [|y l IH]; intros n H; [done|]. cbn.
  rewrite (H 0%nat y) by done. apply IH. intros k x. apply (H (S k)).
Qed.

(** When exactly the element at position [c] passes the test, the list
    of positions is [c] alone. *)
Lemma positions_from_unique {A} (test : A -> bool) (l : list A) (n c : nat) :
  (c < length l)%nat ->
  (forall k x, l !! k = Some x -> (test x = true <-> k = c)) ->
  JS.positions_from test n l = [(n + c)%nat].
Proof.
  revert n c. induction l as [|y l IH]; intros n c Hc H; [cbn in Hc; lia|].
  cbn. destruct c as [|c].
  - rewrite (proj2 (H 0%nat y eq_refl)) by done.
    rewrite positions_from_none; [by rewrite Nat.add_0_r|].
    intros k x Hk. destruct (test x) eqn:E; [|done].
    by apply (H (S k)) in E.
  - destruct (test y) eqn:E; [by apply (H 0%nat) in E|].
    rewrite (IH (S n) c); [f_equal; lia | cbn in Hc; lia |].
    intros k x Hk. rewrite (H (S k) x Hk). lia.
Qed.

Lemma times_S_r {S} (f : S -> JS.completion S) (n : nat) (s : S) :
  JS.times (Datatypes.S n) f s = JS.times n f s >>> f.
Proof.
  revert s. induction n as [|n IH]; intros s.
  - cbn [JS.times JS.bind]. destruct (f s); reflexivity.
  - change (JS.times (Datatypes.S (Datatypes.S n)) f s)
      with (f s >>> JS.times (Datatypes.S n) f).
    change (JS.times (Datatypes.S n) f s) with (f s >>> JS.times n f).
    destruct (f s) as [s1|s1]; [|done]. cbn [JS.bind]. apply IH.
Qed.

End JSFacts.

(** * Facts about the announcer *)

Module A11yFacts.
Import A11y.

Lemma schedule_elem (t : Z * TimerAction) (q : list (Z * TimerAction)) :
  t ∈ schedule t q.
Proof.
  induction q as [|u q IH]; cbn; [by apply list_elem_of_singleton|].
  destruct (fst t <? fst u); apply elem_of_cons; auto.
Qed.

Lemma schedule_keeps (t u : Z * TimerAction) (q : list (Z * TimerAction)) :
  u ∈ q -> u ∈ schedule t q.
Proof.
  induction q as [|v q IH]; cbn; [by intros ?%elem_of_nil|].
  intros [->|H]%elem_of_cons; destruct (fst t <? fst v);
    repeat (apply elem_of_cons; auto; right).
Qed.

Lemma due_elem (t d : Z) (a : TimerAction) (q : list (Z * TimerAction)) :
  (d, a) ∈ q -> d <= t -> a ∈ due t q.
Proof.
  intros Hq Hd. unfold due. apply list_elem_of_fmap. exists (d, a).
  split; [done|]. apply list_elem_of_filter. done.
Qed.

Lemma fire_all_channel (l : list TimerAction) (w : Window) (am : AccessibilityManager) :
  a11y w = Some am ->
  channel (foldl (fun s a => fire a s) w l)
  = Some (aria_live am, if decide (ClearAnnouncer ∈ l) then "" else textContent am).
Proof.
  revert w. induction l as [|a l IH] using rev_ind; intros w Ha.
  - unfold channel. cbn. rewrite Ha. cbn.
    case_decide as H; [by apply elem_of_nil in H|done].
  - rewrite foldl_app. cbn [foldl]. specialize (IH w Ha).
    destruct a as [|i].
    + unfold channel in *. cbn.
      destruct (a11y (foldl _ w l)) as [am'|]; [|done].
      cbn in *. rewrite decide_True; [congruence|].
      apply elem_of_app. right. by apply list_elem_of_singleton.
    + cbn. rewrite IH. f_equal. f_equal. apply decide_ext.
      rewrite elem_of_app, list_elem_of_singleton.
      split; [tauto | intros [?|?]; [done | discriminate]].
Qed.

Lemma elapse_channel (dt : Z) (w : Window) (am : AccessibilityManager) :
  a11y w = Some am ->
  channel (elapse dt w)
  = Some (aria_live am,
          if decide (ClearAnnouncer ∈ due (now w + Z.max 0 dt) (timers w))
          then "" else textContent am).
Proof. intros Ha. unfold elapse. by apply fire_all_channel. Qed.

(** C5, as stated, fails: the second of two immediate identical
    announcements is written over the first with no clearing write in
    between, the channel reads the same before and after it, and the
    live region has changed its text once, not twice. *)
Lemma repeated_announcement_not_cleared_first :
  let w1 := announce "Slide 2 of 4" "polite" fresh_window in
  let w2 := announce "Slide 2 of 4" "polite" w1 in
  announcer_writes w2 = ["Slide 2 of 4"; "Slide 2 of 4"]
  /\ channel w2 = channel w1
  /\ ~ ("" ∈ announcer_writes w2
        /\ length (content_changes "" (announcer_writes w2)) = 2%nat).
Proof.
  cbn. repeat split. intros (_ & H). vm_compute in H. discriminate.
Qed.

(** C5, amended: [announce(m)] writes [m] at the given priority without
    clearing the channel first and schedules a clearing one second
    later.  Called twice in a row it writes [m] twice with nothing in
    between, the channel reads the same after the second call as after
    the first, and the second write adds no change of text; one second
    after the calls the channel is empty. *)
Theorem repeated_announcement (m p : string) (w : Window) (am : AccessibilityManager) :
  a11y w = Some am ->
  let w1 := announce m p w in
  let w2 := announce m p w1 in
  channel w1 = Some (p, m)
  /\ channel w2 = Some (p, m)
  /\ announcer_writes w2 = writes am ++ [m; m]
  /\ content_changes (textContent am) [m; m] = content_changes (textContent am) [m]
  /\ timers w2 = schedule (now w + 1000, ClearAnnouncer)
                   (schedule (now w + 1000, ClearAnnouncer) (timers w))
  /\ channel (elapse 1000 w2) = Some (p, "").
Proof.
  intros Ha w1 w2.
  assert (a11y w1 = Some (set_text m (set_live p am))) as Ha1.
  { subst w1. unfold announce. by rewrite Ha. }
  assert (a11y w2 = Some (set_text m (set_live p (set_text m (set_live p am))))) as Ha2.
  { subst w2. unfold announce. by rewrite Ha1. }
  assert (timers w1 = schedule (now w + 1000, ClearAnnouncer) (timers w)
          /\ now w1 = now w) as (Ht1 & Hn1).
  { subst w1. unfold announce. by rewrite Ha. }
  assert (timers w2 = schedule (now w + 1000, ClearAnnouncer) (timers w1)
          /\ now w2 = now w) as (Ht2 & Hn2).
  { subst w2. unfold announce. rewrite Ha1. cbn. by rewrite Hn1. }
  split; [unfold channel; by rewrite Ha1|].
  split; [unfold channel; by rewrite Ha2|].
  split; [unfold announcer_writes; rewrite Ha2; cbn; by rewrite <- app_assoc|].
  split.
  { cbn. repeat case_decide; congruence. }
  split; [by rewrite Ht2, Ht1|].
  rewrite (elapse_channel 1000 w2 _ Ha2). cbn [aria_live set_text set_live].
  rewrite decide_True; [done|].
  apply (due_elem _ (now w + 1000)); [|rewrite Hn2; lia].
  rewrite Ht2. apply schedule_elem.
Qed.

Lemma repeated_announcement_witness :
  a11y fresh_window = Some (create false)
  /\ channel (announce "Slide 2 of 4" "polite"
                (announce "Slide 2 of 4" "polite" fresh_window))
     = Some ("polite", "Slide 2 of 4")
  /\ channel (elapse 1000 (announce "Slide 2 of 4" "polite"
                             (announce "Slide 2 of 4" "polite" fresh_window)))
     = Some ("polite", "").
Proof.
  split; [reflexivity|].
  pose proof (repeated_announcement "Slide 2 of 4" "polite" fresh_window (create false)
                eq_refl) as H.
  cbv zeta in H. split; apply H.
Defined.

(** Until that second is over, and with no older timer pending, the
    message stays. *)
Lemma announcement_stays_until_due (m p : string) (w : Window) (am : AccessibilityManager)
    (dt : Z) :
  a11y w = Some am -> timers w = [] -> dt < 1000 ->
  channel (elapse dt (announce m p w)) = Some (p, m).
Proof.
  intros Ha Hq Hdt. unfold announce. rewrite Ha.
  erewrite elapse_channel; [|done]. cbn. rewrite Hq. cbn.
  rewrite decide_False; [done|].
  unfold due. cbn. rewrite decide_False by lia. cbn. apply not_elem_of_nil.
Qed.

(** A message announced while an older one is still pending is erased by
    the older timer, here after half a second. *)
Example later_announcement_cut_short :
  channel (elapse 500 (announce "second" "polite"
                         (elapse 500 (announce "first" "polite" fresh_window))))
  = Some ("polite", "").
Proof. reflexivity. Qed.

End A11yFacts.

(** * Facts about the load-more controller *)

Module PaginationFacts.
Import A11y Pagination.

Lemma loadMore_guarded (s : World) :
  isLoading (ctl s) || negb (hasMore (ctl s)) = true -> loadMore s = s.
Proof. intros H. unfold loadMore. by rewrite H. Qed.

Lemma loadMore_guarded_run (s : World) (n : nat) :
  isLoading (ctl s) || negb (hasMore (ctl s)) = true ->
  run (replicate n LoadMore) s = s.
Proof.
  intros H. induction n as [|n IH]; [done|].
  cbn [replicate run foldl step]. rewrite loadMore_guarded by done. exact IH.
Qed.

Lemma fire_surface (a : TimerAction) (s : World) :
  surface (ctl (fire a s)) = surface (ctl s)
  /\ fetchCalls (fire a s) = fetchCalls s
  /\ inFlight (fire a s) = inFlight s.
Proof. destruct a; done. Qed.

Lemma fire_all_surface (l : list TimerAction) (s : World) :
  surface (ctl (foldl (fun x a => fire a x) s l)) = surface (ctl s)
  /\ fetchCalls (foldl (fun x a => fire a x) s l) = fetchCalls s
  /\ inFlight (foldl (fun x a => fire a x) s l) = inFlight s.
Proof.
  revert s. induction l as [|a l IH]; intros s; [done|].
  cbn [foldl]. destruct (IH (fire a s)) as (-> & -> & ->).
  apply fire_surface.
Qed.

Lemma elapse_surface (dt : Z) (s : World) :
  surface (ctl (elapse dt s)) = surface (ctl s)
  /\ fetchCalls (elapse dt s) = fetchCalls s
  /\ inFlight (elapse dt s) = inFlight s.
Proof.
  unfold elapse.
  destruct (fire_all_surface (due (now (win s) + Z.max 0 dt) (timers (win s)))
              (on_win (fun w => {| now := now (win s) + Z.max 0 dt;
                                   timers := not_due (now (win s) + Z.max 0 dt)
                                                     (timers (win s));
                                   a11y := a11y w; console := console w |}) s))
    as (-> & -> & ->).
  done.
Qed.

Lemma surface_hasMore p q : surface p = surface q -> hasMore p = hasMore q.
Proof. unfold surface. congruence. Qed.

Lemma surface_isLoading p q : surface p = surface q -> isLoading p = isLoading q.
Proof. unfold surface. congruence. Qed.

Lemma addItems_hasMore (items : list ItemData) (s : World) :
  hasMore (ctl (addItems items s)) = hasMore (ctl s).
Proof.
  unfold addItems. destruct (JS.index _ _); cbn; unfold append_items;
    destruct (showPageNumbers _); try done; unfold updatePageInfo; cbn;
    by destruct (pageInfo _).
Qed.

Lemma loadMore_body_exhausted (r : Fetched) (s : World) :
  hasMore (ctl s) = false -> hasMore (ctl (loadMore_body r s)) = false.
Proof.
  intros H. destruct r as [[[|i l]|]|e]; cbn; try done.
  - destruct (_ && _); cbn; by rewrite addItems_hasMore.
  - by destruct (has_a11y _).
Qed.

Lemma loadMore_body_fetchCalls (r : Fetched) (s : World) :
  fetchCalls (loadMore_body r s) = fetchCalls s.
Proof.
  destruct r as [[[|i l]|]|e]; cbn; try done.
  - destruct (_ && _); cbn; unfold addItems; by destruct (JS.index _ _).
  - by destruct (has_a11y _).
Qed.

(** Once exhausted and idle, a controller stays so and calls
    [fetchMoreItems] no more, whatever happens. *)
Lemma exhausted_step (s : World) (e : Event) :
  hasMore (ctl s) = false -> isLoading (ctl s) = false ->
  hasMore (ctl (step s e)) = false
  /\ isLoading (ctl (step s e)) = false
  /\ fetchCalls (step s e) = fetchCalls s.
Proof.
  intros Hm Hl. destruct e as [|r|dt]; cbn [step].
  - rewrite loadMore_guarded; [done|]. by rewrite Hm, orb_true_r.
  - destruct (inFlight s); [done|]. cbn.
    rewrite loadMore_body_exhausted, loadMore_body_fetchCalls; done.
  - destruct (elapse_surface dt s) as (Hs & Hf & _).
    rewrite (surface_hasMore _ _ Hs), (surface_isLoading _ _ Hs). done.
Qed.

Lemma exhausted_run (es : list Event) (s : World) :
  hasMore (ctl s) = false -> isLoading (ctl s) = false ->
  hasMore (ctl (run es s)) = false
  /\ isLoading (ctl (run es s)) = false
  /\ fetchCalls (run es s) = fetchCalls s.
Proof.
  revert s. induction es as [|e es IH]; intros s Hm Hl; [done|].
  destruct (exhausted_step s e Hm Hl) as (Hm' & Hl' & Hf').
  destruct (IH (step s e) Hm' Hl') as (? & ? & ?).
  unfold run in *. cbn [foldl]. by rewrite <- Hf'.
Qed.

Lemma addItems_fields (items : list ItemData) (s : World) :
  totalItems (ctl (addItems items s)) = totalItems (ctl s) + Z.of_nat (length items)
  /\ options (ctl (addItems items s)) = options (ctl s)
  /\ currentPage (ctl (addItems items s)) = currentPage (ctl s)
  /\ isLoading (ctl (addItems items s)) = isLoading (ctl s).
Proof.
  unfold addItems. destruct (JS.index _ _); cbn; unfold append_items;
    destruct (showPageNumbers _); try done; unfold updatePageInfo; cbn;
    by destruct (pageInfo _).
Qed.

(** A settlement with at least one item. *)
Lemma settled_with_items (x : ItemData) (l : list ItemData) (s : World) :
  let s' := loadMore_settled (Resolved (Some (x :: l))) s in
  totalItems (ctl s') = totalItems (ctl s) + Z.of_nat (length (x :: l))
  /\ currentPage (ctl s') = currentPage (ctl s) + 1
  /\ hasMore (ctl s') = hasMore (ctl s)
  /\ isLoading (ctl s') = false
  /\ options (ctl s') = options (ctl s).
Proof.
  destruct (addItems_fields (x :: l) s) as (Ht & Ho & Hc & _).
  pose proof (addItems_hasMore (x :: l) s) as Hm.
  cbn. destruct (_ && _); cbn; rewrite Ht, Ho, Hc, Hm; done.
Qed.

(** A settlement with no item. *)
Lemma settled_without_items (s : World) :
  let s' := loadMore_settled (Resolved (Some [])) s in
  totalItems (ctl s') = totalItems (ctl s)
  /\ currentPage (ctl s') = currentPage (ctl s)
  /\ hasMore (ctl s') = false
  /\ isLoading (ctl s') = false
  /\ options (ctl s') = options (ctl s)
  /\ children (ctl s') = children (ctl s)
  /\ fetchCalls s' = fetchCalls s.
Proof. done. Qed.

Lemma fetchMoreItems_surface p q :
  surface p = surface q -> fetchMoreItems p = fetchMoreItems q.
Proof.
  unfold surface, fetchMoreItems. intros H.
  assert (options p = options q) as -> by congruence.
  assert (totalItems p = totalItems q) as -> by congruence. done.
Qed.

Lemma response_length (s : World) :
  isLoading (ctl s) = false -> hasMore (ctl s) = true ->
  length (response s)
  = Z.to_nat (Z.min (itemsPerPage (options (ctl s))) (50 - totalItems (ctl s))).
Proof.
  intros Hl Hm. unfold response.
  destruct (elapse_surface 1000 (loadMore s)) as (Hs & _).
  rewrite (fetchMoreItems_surface _ _ Hs).
  unfold loadMore. rewrite Hl, Hm. cbn.
  unfold fetchMoreItems. cbn. by rewrite length_fmap, length_seq.
Qed.

(** One call against the simulated source: the items still missing up
    to fifty are loaded, ten at most; the call that finds none left
    exhausts the controller. *)
Lemma loadMore_simulated_spec (s : World) :
  isLoading (ctl s) = false -> hasMore (ctl s) = true ->
  let n := Z.min (itemsPerPage (options (ctl s))) (50 - totalItems (ctl s)) in
  let s' := loadMore_simulated s in
  length (response s) = Z.to_nat n
  /\ totalItems (ctl s') = totalItems (ctl s) + Z.max 0 n
  /\ hasMore (ctl s') = (0 <? n)
  /\ isLoading (ctl s') = false
  /\ options (ctl s') = options (ctl s).
Proof.
  intros Hl Hm n s'. pose proof (response_length s Hl Hm) as Hlen.
  fold n in Hlen. split; [done|].
  subst s'. unfold loadMore_simulated. rewrite Hl, Hm. cbn [orb negb].
  destruct (elapse_surface 1000 (loadMore s)) as (Hs & _).
  assert (surface (ctl (loadMore s)) = surface (setLoading true (ctl s))) as Hs'.
  { unfold loadMore. by rewrite Hl, Hm. }
  rewrite Hs' in Hs. unfold surface in Hs. cbn in Hs.
  assert (totalItems (ctl (elapse 1000 (loadMore s))) = totalItems (ctl s)) as Ht by congruence.
  assert (options (ctl (elapse 1000 (loadMore s))) = options (ctl s)) as Ho by congruence.
  assert (hasMore (ctl (elapse 1000 (loadMore s))) = hasMore (ctl s)) as Hh by congruence.
  destruct (response s) as [|x l] eqn:Hr.
  - destruct (settled_without_items (elapse 1000 (loadMore s))) as (-> & _ & -> & -> & -> & _).
    cbn in Hlen. rewrite Ht, Ho.
    assert (n <= 0) by lia.
    repeat split; [lia|]. symmetry. apply Z.ltb_ge. lia.
  - destruct (settled_with_items x l (elapse 1000 (loadMore s))) as (-> & _ & -> & -> & ->).
    rewrite Ht, Ho, Hh, Hm, Hlen.
    assert (0 < n) by (cbn in Hlen; lia).
    repeat split; [lia|]. symmetry. apply Z.ltb_lt. lia.
Qed.

Lemma presented_construct opts wrapper markup : presented (construct opts wrapper markup).
Proof.
  unfold presented, construct.
  destruct wrapper, (showPageNumbers opts) eqn:E; cbn; rewrite ?E; done.
Qed.

Lemma presented_surface p q : surface p = surface q -> presented p -> presented q.
Proof.
  unfold presented, surface. destruct p, q; cbn. intros H1 H2.
  inversion H1; subst. inversion H2 as [[Hb Hd Ht Hs]].
  reflexivity.
Qed.

Lemma presented_step (s : World) (e : Event) :
  presented (ctl s) -> presented (ctl (step s e)).
Proof.
  intros H. destruct e as [|r|dt]; cbn [step].
  - unfold loadMore. by destruct (_ || _).
  - by destruct (inFlight s).
  - destruct (elapse_surface dt s) as (Hs & _).
    by apply (presented_surface (ctl s)).
Qed.

Lemma presented_reachable (s : World) : reachable s -> presented (ctl s).
Proof.
  intros (opts & wrapper & markup & w & es & ->).
  assert (presented (ctl (start opts wrapper markup w))) as H
    by apply presented_construct.
  revert H. generalize (start opts wrapper markup w).
  induction es as [|e es IH]; intros s H; [done|].
  apply (IH (step s e)). by apply presented_step.
Qed.

(** On a reachable idle controller a failed call leaves the controller
    exactly as it was. *)
Lemma failed_call_restores (e : string) (s : World) :
  reachable s -> isLoading (ctl s) = false -> hasMore (ctl s) = true ->
  ctl (loadMore_settled (Rejected e) (loadMore s)) = ctl s.
Proof.
  intros Hr Hl Hm. pose proof (presented_reachable s Hr) as Hp.
  unfold presented in Hp. rewrite Hl in Hp.
  unfold loadMore. rewrite Hl, Hm. cbn [orb negb].
  rewrite <- Hp at 2. cbn. by destruct (has_a11y _).
Qed.

(** C1: while [isLoading] is true or [hasMore] is false, [loadMore()]
    returns at its guard: the state of the controller and of the page is
    the one before the call, no fetch is counted, and the same holds for
    any number of calls in a row. *)
Theorem loadMore_noop_when_loading_or_exhausted (s : World) :
  isLoading (ctl s) = true \/ hasMore (ctl s) = false ->
  loadMore s = s
  /\ fetchCalls (loadMore s) = fetchCalls s
  /\ forall n, run (replicate n LoadMore) s = s.
Proof.
  intros H.
  assert (isLoading (ctl s) || negb (hasMore (ctl s)) = true) as G.
  { destruct H as [-> | ->]; [done | by rewrite orb_true_r]. }
  rewrite loadMore_guarded by done.
  repeat split. intros n. by apply loadMore_guarded_run.
Qed.

Lemma loadMore_noop_when_loading_or_exhausted_witness :
  (isLoading (ctl (loadMore scenario)) = true
   \/ hasMore (ctl (loadMore scenario)) = false)
  /\ loadMore (loadMore scenario) = loadMore scenario
  /\ fetchCalls (loadMore (loadMore scenario)) = fetchCalls (loadMore scenario)
  /\ forall n, run (replicate n LoadMore) (loadMore scenario) = loadMore scenario.
Proof.
  split; [left; reflexivity|].
  apply (loadMore_noop_when_loading_or_exhausted (loadMore scenario)).
  left; reflexivity.
Defined.

(** C2: when the fetch of a [loadMore()] call settles with no item,
    [hasMore] becomes false; whatever events follow (calls, settlements,
    time passing), [hasMore] and [isLoading] stay false, no fetch is
    issued any more and [loadMore()] changes nothing. *)
Theorem exhaustion_is_terminal (s : World) (es : list Event) :
  let s1 := loadMore_settled (Resolved (Some [])) s in
  let s2 := run es s1 in
  hasMore (ctl s1) = false
  /\ hasMore (ctl s2) = false
  /\ isLoading (ctl s2) = false
  /\ fetchCalls s2 = fetchCalls s1
  /\ loadMore s2 = s2.
Proof.
  intros s1 s2.
  destruct (exhausted_run es s1) as (Hm & Hl & Hf); [done..|].
  fold s2 in Hm, Hl, Hf. repeat split; try done.
  apply loadMore_guarded. by rewrite Hm, orb_true_r.
Qed.

(** C3: after a fetch that fails, [hasMore] is what it was, [isLoading]
    is false and the announcer, when there is one, carries the error at
    assertive priority; the status element however is empty: the error
    text written by the [catch] block is erased by [setLoading(false)]
    in the [finally] block. *)
Theorem failed_fetch_status_is_erased (e : string) (s : World) :
  let s' := loadMore_settled (Rejected e) s in
  statusMessage (ctl s') = ""
  /\ statusMessage (ctl (loadMore_body (Rejected e) s))
     = "Error loading items. Please try again."
  /\ hasMore (ctl s') = hasMore (ctl s)
  /\ isLoading (ctl s') = false
  /\ match a11y (win s) with
     | Some _ =>
         aria_live <$> a11y (win s') = Some "assertive"
         /\ textContent <$> a11y (win s') = Some "Error loading more items"
     | None => a11y (win s') = None
     end.
Proof.
  cbn. unfold has_a11y, announce. cbn.
  destruct (a11y (win s)) as [am|] eqn:E; cbn; rewrite ?E; done.
Qed.

(** C10: a call whose fetch fails leaves [currentPage], [totalItems],
    the children of the items container, [hasMore], the options, the
    page information and the focus as they were, and [isLoading] false;
    the status text does not keep the error either, it is empty. *)
Theorem failed_call_frame (e : string) (s : World) :
  let s' := loadMore_settled (Rejected e) (loadMore s) in
  currentPage (ctl s') = currentPage (ctl s)
  /\ totalItems (ctl s') = totalItems (ctl s)
  /\ children (ctl s') = children (ctl s)
  /\ hasMore (ctl s') = hasMore (ctl s)
  /\ options (ctl s') = options (ctl s)
  /\ pageInfo (ctl s') = pageInfo (ctl s)
  /\ focused (ctl s') = focused (ctl s)
  /\ isLoading (ctl s') = false
  /\ statusMessage (ctl s') = "".
Proof.
  cbn. unfold loadMore. destruct (_ || _); cbn; by destruct (has_a11y _).
Qed.

(** C4, as stated, fails on the scenario: the fifth response holds seven
    items, not none, and the controller is not exhausted after it. *)
Lemma fifth_call_does_not_exhaust :
  ~ (totalItems (ctl (after_calls 5 scenario)) = 50
     /\ response (after_calls 4 scenario) = []
     /\ hasMore (ctl (after_calls 5 scenario)) = false).
Proof. intros (_ & _ & H). vm_compute in H. discriminate. Qed.

Lemma after_calls_S k s : after_calls (S k) s = loadMore_simulated (after_calls k s).
Proof. done. Qed.

(** C4, amended: from three items in the markup and ten per page, five
    calls against the simulated source bring [totalItems] to fifty, the
    fifth response holding the seven items still missing and leaving
    [hasMore] true; the sixth response is empty and exhausts the
    controller. *)
Theorem sixth_call_exhausts (opts : Options) (wrapper : bool) (markup : list Child)
    (w : Window) :
  length markup = 3%nat -> itemsPerPage opts = 10 ->
  let s := start opts wrapper markup w in
  totalItems (ctl (after_calls 5 s)) = 50
  /\ length (response (after_calls 4 s)) = 7%nat
  /\ hasMore (ctl (after_calls 5 s)) = true
  /\ response (after_calls 5 s) = []
  /\ hasMore (ctl (after_calls 6 s)) = false
  /\ totalItems (ctl (after_calls 6 s)) = 50.
Proof.
  intros Hlen Hper s.
  assert (forall k t,
            isLoading (ctl (after_calls k s)) = false ->
            hasMore (ctl (after_calls k s)) = true ->
            options (ctl (after_calls k s)) = opts ->
            totalItems (ctl (after_calls k s)) = t ->
            length (response (after_calls k s)) = Z.to_nat (Z.min 10 (50 - t))
            /\ totalItems (ctl (after_calls (S k) s)) = t + Z.max 0 (Z.min 10 (50 - t))
            /\ hasMore (ctl (after_calls (S k) s)) = (0 <? Z.min 10 (50 - t))
            /\ isLoading (ctl (after_calls (S k) s)) = false
            /\ options (ctl (after_calls (S k) s)) = opts) as Step.
  { intros k t Hl Hm Ho Ht. rewrite after_calls_S.
    destruct (loadMore_simulated_spec _ Hl Hm) as (H1 & H2 & H3 & H4 & H5).
    rewrite Ho, Hper, Ht in *. done. }
  assert (totalItems (ctl (after_calls 0 s)) = 3) as T0.
  { cbn. unfold construct.
    destruct wrapper, (showPageNumbers opts); cbn; rewrite Hlen; done. }
  assert (isLoading (ctl (after_calls 0 s)) = false
          /\ hasMore (ctl (after_calls 0 s)) = true
          /\ options (ctl (after_calls 0 s)) = opts) as (L0 & M0 & O0).
  { cbn. unfold construct. destruct wrapper, (showPageNumbers opts); done. }
  destruct (Step 0%nat 3 L0 M0 O0 T0) as (_ & T1 & M1 & L1 & O1).
  destruct (Step 1%nat 13 L1 M1 O1 T1) as (_ & T2 & M2 & L2 & O2).
  destruct (Step 2%nat 23 L2 M2 O2 T2) as (_ & T3 & M3 & L3 & O3).
  destruct (Step 3%nat 33 L3 M3 O3 T3) as (_ & T4 & M4 & L4 & O4).
  destruct (Step 4%nat 43 L4 M4 O4 T4) as (R5 & T5 & M5 & L5 & O5).
  destruct (Step 5%nat 50 L5 M5 O5 T5) as (R6 & T6 & M6 & L6 & O6).
  repeat split; try done.
  by apply nil_length_inv.
Qed.

Lemma sixth_call_exhausts_witness :
  length three_items = 3%nat /\ itemsPerPage defaults = 10
  /\ totalItems (ctl (after_calls 5 scenario)) = 50
  /\ length (response (after_calls 4 scenario)) = 7%nat
  /\ hasMore (ctl (after_calls 5 scenario)) = true
  /\ response (after_calls 5 scenario) = []
  /\ hasMore (ctl (after_calls 6 scenario)) = false
  /\ totalItems (ctl (after_calls 6 scenario)) = 50.
Proof.
  split; [reflexivity|]. split; [reflexivity|].
  apply (sixth_call_exhausts defaults true three_items fresh_window); reflexivity.
Defined.

End PaginationFacts.

(** * Facts about the carousel *)

Module CarouselFacts.
Import A11y Carousel JSFacts.

Lemma goToSlide_current (s : World) (z : Z) :
  currentSlide (car s) = JS.Num z -> goToSlide (JS.Num z) s = JS.Returns s.
Proof.
  intros H. unfold goToSlide. rewrite H. cbn [JS.strict_eq].
  by rewrite Z.eqb_refl, orb_true_r.
Qed.

Lemma goToSlide_out_of_range (s : World) (z : Z) :
  z < 0 \/ Z.of_nat (length (slides (car s))) <= z ->
  goToSlide (JS.Num z) s = JS.Returns s.
Proof.
  intros H. unfold goToSlide. cbn [JS.lt JS.ge JS.length_of].
  destruct H as [H|H].
  - by rewrite (proj2 (Z.ltb_lt z 0)) by lia.
  - by rewrite (proj2 (Z.leb_le _ z)), orb_true_r by lia.
Qed.

Lemma on_slide_valid (z : Z) (f : Slide -> Slide) (s : World) :
  0 <= z < Z.of_nat (length (slides (car s))) ->
  on_slide (JS.Num z) f s
  = JS.Returns
      {| win := win s;
         car := {| options := options (car s); currentSlide := currentSlide (car s);
                   slides := alter f (Z.to_nat z) (slides (car s));
                   dots := dots (car s) |} |}.
Proof.
  intros H. unfold on_slide. by destruct (index_valid (slides (car s)) z H) as [x ->].
Qed.

Lemma on_dot_valid (z : Z) (f : Dot -> Dot) (s : World) :
  0 <= z < Z.of_nat (length (dots (car s))) ->
  on_dot (JS.Num z) f s
  = JS.Returns
      {| win := win s;
         car := {| options := options (car s); currentSlide := currentSlide (car s);
                   slides := slides (car s);
                   dots := alter f (Z.to_nat z) (dots (car s)) |} |}.
Proof.
  intros H. unfold on_dot. by destruct (index_valid (dots (car s)) z H) as [x ->].
Qed.

Lemma update_dots_valid (i : Z) (s : World) (j : Z) :
  currentSlide (car s) = JS.Num j ->
  0 <= i < Z.of_nat (length (slides (car s))) ->
  0 <= j < Z.of_nat (length (slides (car s))) ->
  dots (car s) = [] \/ length (dots (car s)) = length (slides (car s)) ->
  exists s', update_dots (JS.Num i) s = JS.Returns s'
             /\ win s' = win s
             /\ options (car s') = options (car s)
             /\ currentSlide (car s') = currentSlide (car s)
             /\ slides (car s') = slides (car s)
             /\ length (dots (car s')) = length (dots (car s)).
Proof.
  intros Hc Hi Hj [Hd|Hd]; unfold update_dots.
  - exists s. by rewrite Hd.
  - rewrite (proj2 (Z.ltb_lt 0 _)) by lia.
    rewrite on_dot_valid by (by rewrite Hd). cbn [JS.bind].
    rewrite Hc, on_dot_valid by (cbn; by rewrite length_alter, Hd).
    eexists. split; [reflexivity|]. cbn. by rewrite !length_alter.
Qed.

Lemma announce_slide_returns (s : World) :
  exists s', announce_slide s = JS.Returns s' /\ car s' = car s.
Proof. unfold announce_slide. destruct (_ && _); by eexists. Qed.

(** A move to another slide in range: the previous slide is hidden, the
    new one shown, and the call returns. *)
Lemma goToSlide_moves (s : World) (i j : Z) :
  well_formed s i -> 0 <= j < Z.of_nat (length (slides (car s))) -> j <> i ->
  exists s', goToSlide (JS.Num j) s = JS.Returns s'
             /\ currentSlide (car s') = JS.Num j
             /\ slides (car s')
                = alter show (Z.to_nat j) (alter hide (Z.to_nat i) (slides (car s)))
             /\ length (dots (car s')) = length (dots (car s)).
Proof.
  intros (Hc & Hi & Hd) Hj Hne. unfold goToSlide. rewrite Hc.
  cbn [JS.lt JS.ge JS.length_of JS.strict_eq].
  rewrite (proj2 (Z.ltb_ge j 0)), (proj2 (Z.leb_gt _ j)), (proj2 (Z.eqb_neq j i)) by lia.
  cbn [orb JS.bind].
  rewrite on_slide_valid by done. cbn [JS.bind].
  rewrite on_slide_valid by (cbn; by rewrite length_alter). cbn [JS.bind].
  match goal with
  | |- context [update_dots _ ?t] =>
      destruct (update_dots_valid i t j) as (s1 & -> & Hw & Ho & Hc1 & Hs1 & Hd1)
  end.
  - done.
  - cbn. by rewrite !length_alter.
  - cbn. by rewrite !length_alter.
  - cbn. by rewrite !length_alter.
  - cbn [JS.bind]. destruct (announce_slide_returns s1) as (s2 & -> & Hcar).
    exists s2. split; [done|]. rewrite Hcar, Hc1, Hs1, Hd1. done.
Qed.

Lemma goToSlide_valid (s : World) (i j : Z) :
  well_formed s i -> 0 <= j < Z.of_nat (length (slides (car s))) ->
  exists s', goToSlide (JS.Num j) s = JS.Returns s'
             /\ well_formed s' j
             /\ length (slides (car s')) = length (slides (car s))
             /\ (roving s i -> roving s' j).
Proof.
  intros Hwf Hj. destruct (decide (j = i)) as [->|Hne].
  - exists s. split; [apply goToSlide_current, Hwf|done].
  - destruct (goToSlide_moves s i j Hwf Hj Hne) as (s' & Hr & Hc & Hs & Hd).
    exists s'. split; [done|].
    assert (length (slides (car s')) = length (slides (car s))) as Hlen
      by (by rewrite Hs, !length_alter).
    destruct Hwf as (_ & Hi & Hdots).
    split; [|split; [done|]].
    + split; [done|]. split; [lia|].
      destruct Hdots as [Hn|Hn]; [left|right].
      * apply nil_length_inv. by rewrite Hd, Hn.
      * by rewrite Hd, Hlen.
    + intros Hrov k x. rewrite Hs. 
      destruct (decide (k = Z.to_nat j)) as [->|Hkj].
      * rewrite list_lookup_alter, decide_True by done.
        intros [y [_ ->]]%fmap_Some. done.
      * rewrite list_lookup_alter_ne by done.
        destruct (decide (k = Z.to_nat i)) as [->|Hki].
        -- rewrite list_lookup_alter, decide_True by done.
           intros [y [_ ->]]%fmap_Some. cbn. split; [done|lia].
        -- rewrite list_lookup_alter_ne by done. intros Hk.
           rewrite (Hrov k x Hk). split; [done|]. done.
Qed.

Lemma nextSlide_valid (s : World) (i : Z) :
  well_formed s i ->
  let n := Z.of_nat (length (slides (car s))) in
  exists s', nextSlide s = JS.Returns s'
             /\ well_formed s' ((i + 1) mod n)
             /\ length (slides (car s')) = length (slides (car s))
             /\ (roving s i -> roving s' ((i + 1) mod n)).
Proof.
  intros Hwf n. pose proof Hwf as (Hc & Hi & _).
  unfold nextSlide, JS.length_of. rewrite Hc. cbn [JS.add].
  rewrite rem_nonneg by lia.
  apply goToSlide_valid; [done|]. apply Z.mod_pos_bound. lia.
Qed.

Lemma previousSlide_valid (s : World) (i : Z) :
  well_formed s i ->
  let n := Z.of_nat (length (slides (car s))) in
  exists s', previousSlide s = JS.Returns s'
             /\ well_formed s' ((i - 1 + n) mod n)
             /\ length (slides (car s')) = length (slides (car s))
             /\ (roving s i -> roving s' ((i - 1 + n) mod n)).
Proof.
  intros Hwf n. pose proof Hwf as (Hc & Hi & _).
  unfold previousSlide, JS.length_of. rewrite Hc. cbn [JS.add JS.sub].
  rewrite rem_nonneg by lia.
  apply goToSlide_valid; [done|]. apply Z.mod_pos_bound. lia.
Qed.

(** Every operation returns and keeps the carousel well formed, with
    its single tab stop on the current slide. *)
Lemma carousel_apply_valid (o : Op) (s : World) (i : Z) :
  well_formed s i -> roving s i ->
  exists s' j, apply o s = JS.Returns s' /\ well_formed s' j /\ roving s' j.
Proof.
  intros Hwf Hr. destruct o as [z| |]; cbn [apply].
  - destruct (decide (0 <= z < Z.of_nat (length (slides (car s))))) as [Hz|Hz].
    + destruct (goToSlide_valid s i z Hwf Hz) as (s' & ? & ? & _ & ?).
      exists s', z. auto.
    + exists s, i. split; [|done]. apply goToSlide_out_of_range. lia.
  - destruct (nextSlide_valid s i Hwf) as (s' & ? & ? & _ & ?).
    exists s'. eexists. eauto.
  - destruct (previousSlide_valid s i Hwf) as (s' & ? & ? & _ & ?).
    exists s'. eexists. eauto.
Qed.

Lemma carousel_run_valid (os : list Op) (s : World) (i : Z) :
  well_formed s i -> roving s i ->
  exists s' j, run os s = JS.Returns s' /\ well_formed s' j /\ roving s' j.
Proof.
  revert s i. induction os as [|o os IH]; intros s i Hwf Hr.
  - by exists s, i.
  - destruct (carousel_apply_valid o s i Hwf Hr) as (s1 & j & Ha & Hwf1 & Hr1).
    destruct (IH s1 j Hwf1 Hr1) as (s' & j' & Hrun & ? & ?).
    exists s', j'. split; [|done].
    unfold run in *. cbn [foldl JS.bind]. by rewrite Ha.
Qed.

Lemma carousel_construct_valid (opts : Options) (markup : list Slide) (w : Window) :
  markup <> [] ->
  well_formed (construct opts markup w) 0 /\ roving (construct opts markup w) 0.
Proof.
  intros Hne. split.
  - split; [done|]. cbn. unfold setupStructure, make_dots.
    rewrite length_imap. split.
    + destruct markup; [done|]. cbn. lia.
    + destruct (_ && _); [right|by left]. by rewrite length_fmap, length_seq.
  - intros k x. cbn. unfold setupStructure. rewrite list_lookup_imap.
    intros [y [_ ->]]%fmap_Some. cbn.
    destruct (decide (k = 0%nat)) as [->|Hk]; [done|]. split; [done|lia].
Qed.

Lemma carousel_roving_tab_stops (s : World) (i : Z) :
  well_formed s i -> roving s i -> tab_stops s = [Z.to_nat i].
Proof.
  intros (_ & Hi & _) Hr. unfold tab_stops, JS.positions.
  rewrite (positions_from_unique _ _ 0 (Z.to_nat i)); [done|lia|].
  intros k x Hk. unfold tab_stop. rewrite bool_decide_eq_true. by apply Hr.
Qed.

(** After [k] calls of [nextSlide] the current slide has advanced by
    [k], around the end. *)
Lemma nextSlide_times (k : nat) (s : World) (i : Z) :
  well_formed s i ->
  let n := Z.of_nat (length (slides (car s))) in
  exists s', JS.times k nextSlide s = JS.Returns s'
             /\ well_formed s' ((i + Z.of_nat k) mod n)
             /\ length (slides (car s')) = length (slides (car s)).
Proof.
  intros Hwf n. induction k as [|k IH].
  - exists s. cbn. rewrite Z.add_0_r, Z.mod_small by apply Hwf. done.
  - destruct IH as (s1 & Hrun & Hwf1 & Hlen).
    destruct (nextSlide_valid s1 _ Hwf1) as (s' & Hn & Hwf' & Hlen' & _).
    exists s'. rewrite times_S_r, Hrun. cbn [JS.bind].
    split; [done|]. split; [|congruence].
    rewrite Hlen in Hwf'. fold n in Hwf'.
    rewrite Z.add_mod_idemp_l in Hwf' by (destruct Hwf as (_ & ? & _); lia).
    by replace (i + Z.of_nat (S k)) with (i + Z.of_nat k + 1) by lia.
Qed.

End CarouselFacts.

(** * Facts about the dropdown *)

Module DropdownFacts.
Import A11y Dropdown JSFacts.

Lemma set_tabindex_valid (z : Z) (v : string) (s : World) :
  0 <= z < Z.of_nat (length (menuItems (dd s))) ->
  set_tabindex (JS.Num z) v s
  = JS.Returns
      {| win := win s;
         dd := {| options := options (dd s); menu := menu (dd s);
                  menuItems := alter (with_tabindex v) (Z.to_nat z) (menuItems (dd s));
                  isOpen := isOpen (dd s); currentIndex := currentIndex (dd s);
                  aria_expanded := aria_expanded (dd s); active := active (dd s) |} |}.
Proof.
  intros H. unfold set_tabindex.
  by destruct (index_valid (menuItems (dd s)) z H) as [x ->].
Qed.

Lemma focusItem_out_of_range (s : World) (z : Z) :
  z < 0 \/ Z.of_nat (length (menuItems (dd s))) <= z ->
  focusItem (JS.Num z) s = JS.Returns s.
Proof.
  intros H. unfold focusItem. cbn [JS.lt JS.ge JS.length_of].
  destruct H as [H|H].
  - by rewrite (proj2 (Z.ltb_lt z 0)) by lia.
  - by rewrite (proj2 (Z.leb_le _ z)), orb_true_r by lia.
Qed.

(** Focusing an item in range: the previous tab stop, if any, is taken
    back, the new item gets it and the focus, and the call returns. *)
Lemma focusItem_moves (s : World) (i j : Z) :
  well_formed s i -> 0 <= j < Z.of_nat (length (menuItems (dd s))) ->
  exists s', focusItem (JS.Num j) s = JS.Returns s'
             /\ currentIndex (dd s') = JS.Num j
             /\ menuItems (dd s')
                = alter (with_tabindex "0") (Z.to_nat j)
                    (if 0 <=? i
                     then alter (with_tabindex "-1") (Z.to_nat i) (menuItems (dd s))
                     else menuItems (dd s))
             /\ menu (dd s') = menu (dd s)
             /\ isOpen (dd s') = isOpen (dd s)
             /\ active (dd s') = Some (OnItem (Z.to_nat j)).
Proof.
  intros (Hc & Hi & Hn) Hj. unfold focusItem. rewrite Hc.
  cbn [JS.lt JS.ge JS.length_of].
  rewrite (proj2 (Z.ltb_ge j 0)), (proj2 (Z.leb_gt _ j)) by lia.
  cbn [orb]. destruct (0 <=? i) eqn:E.
  - apply Z.leb_le in E. rewrite set_tabindex_valid by lia. cbn [JS.bind].
    rewrite set_tabindex_valid by (cbn; rewrite length_alter; lia).
    cbn [JS.bind]. eexists. split; [reflexivity|]. done.
  - cbn [JS.bind]. rewrite set_tabindex_valid by (cbn; lia).
    cbn [JS.bind]. eexists. split; [reflexivity|]. done.
Qed.

Lemma focusItem_valid (s : World) (i j : Z) :
  well_formed s i -> 0 <= j < Z.of_nat (length (menuItems (dd s))) ->
  exists s', focusItem (JS.Num j) s = JS.Returns s'
             /\ well_formed s' j
             /\ length (menuItems (dd s')) = length (menuItems (dd s))
             /\ active (dd s') = Some (OnItem (Z.to_nat j))
             /\ (roving s i -> roving s' j)
             /\ menu (dd s') = menu (dd s).
Proof.
  intros Hwf Hj.
  destruct (focusItem_moves s i j Hwf Hj) as (s' & Hr & Hc & Hs & Hm & _ & Ha).
  destruct Hwf as (_ & Hi & Hn).
  assert (length (menuItems (dd s')) = length (menuItems (dd s))) as Hlen.
  { rewrite Hs. destruct (0 <=? i); by rewrite !length_alter. }
  exists s'. split; [done|]. split; [|split; [done|split; [done|split; [|done]]]].
  - split; [done|]. rewrite Hlen. split; [lia|done].
  - intros Hrov k x. rewrite Hs.
    destruct (decide (k = Z.to_nat j)) as [->|Hkj].
    + rewrite list_lookup_alter, decide_True by done.
      intros [y [_ ->]]%fmap_Some. cbn. split; [lia|done].
    + rewrite list_lookup_alter_ne by done.
      destruct (0 <=? i) eqn:E.
      * apply Z.leb_le in E.
        destruct (decide (k = Z.to_nat i)) as [->|Hki].
        -- rewrite list_lookup_alter, decide_True by done.
           intros [y [_ ->]]%fmap_Some. cbn. split; [done|lia].
        -- rewrite list_lookup_alter_ne by done. intros Hk.
           rewrite (Hrov k x Hk). lia.
      * apply Z.leb_gt in E. intros Hk. rewrite (Hrov k x Hk). lia.
Qed.

Lemma rem_next (i n : Z) :
  -1 <= i < n -> 1 <= n -> 0 <= Z.rem (i + 1) n < n.
Proof. intros H Hn. rewrite Z.rem_mod_nonneg by lia. apply Z.mod_pos_bound. lia. Qed.

Lemma rem_previous (i n : Z) :
  -1 <= i < n -> 1 <= n -> 0 <= Z.rem (i - 1 + n) n < n.
Proof.
  intros H Hn. destruct (decide (0 <= i - 1 + n)) as [Hp|Hp].
  - rewrite Z.rem_mod_nonneg by lia. apply Z.mod_pos_bound. lia.
  - assert (n = 1) as -> by lia. assert (i = -1) as -> by lia.
    change (Z.rem (-1 - 1 + 1) 1) with 0. lia.
Qed.

Lemma focusNextItem_valid (s : World) (i : Z) :
  well_formed s i ->
  let n := Z.of_nat (length (menuItems (dd s))) in
  exists s', focusNextItem s = JS.Returns s'
             /\ well_formed s' (Z.rem (i + 1) n)
             /\ length (menuItems (dd s')) = length (menuItems (dd s))
             /\ active (dd s') = Some (OnItem (Z.to_nat (Z.rem (i + 1) n)))
             /\ (roving s i -> roving s' (Z.rem (i + 1) n))
             /\ menu (dd s') = menu (dd s).
Proof.
  intros Hwf n. pose proof Hwf as (Hc & Hi & Hn).
  unfold focusNextItem, JS.length_of. rewrite Hc. cbn [JS.add JS.rem].
  rewrite (proj2 (Z.eqb_neq _ 0)) by lia.
  apply focusItem_valid; [done|]. apply rem_next; lia.
Qed.

Lemma focusPreviousItem_valid (s : World) (i : Z) :
  well_formed s i ->
  let n := Z.of_nat (length (menuItems (dd s))) in
  exists s', focusPreviousItem s = JS.Returns s'
             /\ well_formed s' (Z.rem (i - 1 + n) n)
             /\ length (menuItems (dd s')) = length (menuItems (dd s))
             /\ active (dd s') = Some (OnItem (Z.to_nat (Z.rem (i - 1 + n) n)))
             /\ (roving s i -> roving s' (Z.rem (i - 1 + n) n))
             /\ menu (dd s') = menu (dd s).
Proof.
  intros Hwf n. pose proof Hwf as (Hc & Hi & Hn).
  unfold focusPreviousItem, JS.length_of. rewrite Hc. cbn [JS.add JS.sub JS.rem].
  rewrite (proj2 (Z.eqb_neq _ 0)) by lia.
  apply focusItem_valid; [done|]. apply rem_previous; lia.
Qed.

Lemma announce_state_returns (msg : string) (s : World) :
  exists s', announce_state msg s = JS.Returns s' /\ dd s' = dd s.
Proof. unfold announce_state. destruct (_ && _); by eexists. Qed.

Lemma open_valid (s : World) (i : Z) :
  well_formed s i -> roving s i -> menu (dd s) <> None ->
  exists s' j, open s = JS.Returns s' /\ well_formed s' j /\ roving s' j
               /\ menu (dd s') <> None.
Proof.
  intros Hwf Hr Hm. unfold open. destruct (isOpen (dd s)); [by exists s, i|].
  pose proof Hwf as (Hc & Hi & Hn).
  unfold on_menu. cbn [dd set_isOpen menu].
  destruct (menu (dd s)) as [m|] eqn:Em; [|done]. cbn [JS.bind].
  match goal with
  | |- context [announce_state _ ?t] =>
      destruct (announce_state_returns "Menu opened" t) as (s1 & -> & Hdd)
  end.
  cbn [JS.bind]. unfold focusFirstItem.
  assert (well_formed s1 i) as Hwf1.
  { unfold well_formed. rewrite Hdd. cbn. done. }
  assert (roving s1 i) as Hr1.
  { unfold roving. rewrite Hdd. cbn. done. }
  destruct (focusItem_valid s1 i 0 Hwf1) as (s' & ? & ? & _ & _ & ? & Hm').
  { destruct Hwf1 as (_ & _ & ?). lia. }
  exists s', 0. split; [done|]. split; [done|]. split; [auto|].
  rewrite Hm', Hdd. done.
Qed.

(** Every operation on the focused item returns and keeps the dropdown
    well formed, with its tab stop, if any, on the current item. *)
Lemma dropdown_apply_valid (o : Op) (s : World) (i : Z) :
  well_formed s i -> roving s i -> menu (dd s) <> None ->
  exists s' j, apply o s = JS.Returns s' /\ well_formed s' j /\ roving s' j
               /\ menu (dd s') <> None.
Proof.
  intros Hwf Hr Hm. pose proof Hwf as (Hc & Hi & Hn).
  destruct o as [|z| | | |]; cbn [apply].
  - by apply (open_valid s i).
  - destruct (decide (0 <= z < Z.of_nat (length (menuItems (dd s))))) as [Hz|Hz].
    + destruct (focusItem_valid s i z Hwf Hz) as (s' & ? & ? & _ & _ & ? & Hm').
      exists s', z. rewrite Hm'. auto.
    + exists s, i. split; [|done]. apply focusItem_out_of_range. lia.
  - destruct (focusItem_valid s i 0 Hwf) as (s' & ? & ? & _ & _ & ? & Hm'); [lia|].
    exists s', 0. rewrite Hm'. auto.
  - unfold focusLastItem, JS.length_of. cbn [JS.sub].
    destruct (focusItem_valid s i (Z.of_nat (length (menuItems (dd s))) - 1) Hwf)
      as (s' & ? & ? & _ & _ & ? & Hm'); [lia|].
    exists s'. eexists. rewrite Hm'. eauto.
  - destruct (focusNextItem_valid s i Hwf) as (s' & ? & ? & _ & _ & ? & Hm').
    exists s'. eexists. rewrite Hm'. eauto.
  - destruct (focusPreviousItem_valid s i Hwf) as (s' & ? & ? & _ & _ & ? & Hm').
    exists s'. eexists. rewrite Hm'. eauto.
Qed.

Lemma dropdown_run_valid (os : list Op) (s : World) (i : Z) :
  well_formed s i -> roving s i -> menu (dd s) <> None ->
  exists s' j, run os s = JS.Returns s' /\ well_formed s' j /\ roving s' j.
Proof.
  revert s i. induction os as [|o os IH]; intros s i Hwf Hr Hm.
  - by exists s, i.
  - destruct (dropdown_apply_valid o s i Hwf Hr Hm) as (s1 & j & Ha & Hwf1 & Hr1 & Hm1).
    destruct (IH s1 j Hwf1 Hr1 Hm1) as (s' & j' & Hrun & ? & ?).
    exists s', j'. split; [|done].
    unfold run in *. cbn [foldl JS.bind]. by rewrite Ha.
Qed.

Lemma dropdown_construct_valid (opts : Options) (m : Menu) (items : list MenuItem) (w : Window) :
  items <> [] ->
  exists s, construct opts (Some (m, items)) w = JS.Returns s
            /\ well_formed s (-1) /\ roving s (-1) /\ menu (dd s) <> None.
Proof.
  intros Hne. eexists. split; [reflexivity|]. split; [|split; [|done]].
  - split; [done|]. cbn. rewrite length_fmap.
    destruct items; [done|]. cbn. split; lia.
  - intros k x. cbn. rewrite list_lookup_fmap.
    intros [y [_ ->]]%fmap_Some. cbn. split; [done|lia].
Qed.

Lemma dropdown_roving_tab_stops (s : World) (i : Z) :
  well_formed s i -> roving s i ->
  tab_stops s = if decide (i = -1) then [] else [Z.to_nat i].
Proof.
  intros (_ & Hi & _) Hr. unfold tab_stops, JS.positions. case_decide as Hd.
  - apply positions_from_none. intros k x Hk. unfold tab_stop.
    apply bool_decide_eq_false. rewrite (Hr k x Hk). lia.
  - rewrite (positions_from_unique _ _ 0 (Z.to_nat i)); [done|lia|].
    intros k x Hk. unfold tab_stop. rewrite bool_decide_eq_true, (Hr k x Hk). lia.
Qed.

(** After [k] calls of [focusNextItem] from an item the current index
    has advanced by [k], around the end. *)
Lemma focusNextItem_times (k : nat) (s : World) (i : Z) :
  well_formed s i -> 0 <= i ->
  let n := Z.of_nat (length (menuItems (dd s))) in
  exists s', JS.times k focusNextItem s = JS.Returns s'
             /\ well_formed s' ((i + Z.of_nat k) mod n)
             /\ length (menuItems (dd s')) = length (menuItems (dd s))
             /\ (k <> 0%nat ->
                 active (dd s') = Some (OnItem (Z.to_nat ((i + Z.of_nat k) mod n)))).
Proof.
  intros Hwf H0 n. assert (0 < n) as Hn by (destruct Hwf as (_ & _ & ?); lia).
  induction k as [|k IH].
  - exists s. cbn. rewrite Z.add_0_r, Z.mod_small by (destruct Hwf as (_ & ? & _); lia).
    done.
  - destruct IH as (s1 & Hrun & Hwf1 & Hlen & _).
    destruct (focusNextItem_valid s1 _ Hwf1) as (s' & Hn' & Hwf' & Hlen' & Ha & _).
    rewrite Hlen in Hwf', Ha. fold n in Hwf', Ha.
    assert (Z.rem ((i + Z.of_nat k) mod n + 1) n = (i + Z.of_nat (S k)) mod n) as Heq.
    { pose proof (Z.mod_pos_bound (i + Z.of_nat k) n Hn).
      rewrite Z.rem_mod_nonneg, Z.add_mod_idemp_l by lia. f_equal. lia. }
    rewrite Heq in Hwf', Ha.
    exists s'. rewrite times_S_r, Hrun. cbn [JS.bind].
    split; [done|]. split; [done|]. split; [congruence|done].
Qed.

End DropdownFacts.

(** * The claims on focus, slides and missing structure *)

Module FocusFacts.
Import A11y JSFacts.

(** C9: [goToSlide(i)] with [i] the current slide returns at its guard:
    slides, dots, current slide and announcer are the ones before the
    call, and no timer is added. *)
Theorem goToSlide_current_is_noop (s : Carousel.World) (i : Z) :
  Carousel.currentSlide (Carousel.car s) = JS.Num i ->
  Carousel.goToSlide (JS.Num i) s = JS.Returns s.
Proof. apply CarouselFacts.goToSlide_current. Qed.

Lemma goToSlide_current_is_noop_witness :
  Carousel.currentSlide (Carousel.car Carousel.four_slides) = JS.Num 0
  /\ Carousel.goToSlide (JS.Num 0) Carousel.four_slides
     = JS.Returns Carousel.four_slides.
Proof.
  split; [reflexivity|].
  apply (goToSlide_current_is_noop Carousel.four_slides 0). reflexivity.
Defined.

(** C8: a dropdown whose trigger designates no menu throws while it is
    constructed, in [setupAccessibility], and throws again when its
    trigger is activated; a carousel without slides is constructed, but
    [nextSlide] and [previousSlide] throw on it and leave [NaN] as its
    current slide. *)
Theorem missing_structure_throws (dopts : Dropdown.Options) (copts : Carousel.Options)
    (w : Window) :
  let d := Dropdown.construct dopts None w in
  let c := Carousel.construct copts [] w in
  JS.returned d = false
  /\ JS.returned (Dropdown.open (JS.state_of d)) = false
  /\ JS.returned (Carousel.nextSlide c) = false
  /\ JS.returned (Carousel.previousSlide c) = false
  /\ Carousel.currentSlide (Carousel.car (JS.state_of (Carousel.nextSlide c))) = JS.NaN.
Proof. done. Qed.

(** C6, as stated, fails on a dropdown: right after its construction
    over three items none of them carries [tabindex="0"]. *)
Lemma dropdown_starts_without_tab_stop :
  JS.returned Dropdown.three_entries = true
  /\ ~ (exists i, Dropdown.tab_stops (JS.state_of Dropdown.three_entries) = [i]).
Proof. split; [done|]. intros [i H]. vm_compute in H. discriminate. Qed.

(** Closing a dropdown resets its current index and leaves the
    [tabindex] of the item that had it: once reopened, two items carry
    [tabindex="0"]. *)
Example reopened_dropdown_has_two_tab_stops :
  Dropdown.tab_stops
    (JS.state_of (Dropdown.three_entries >>> Dropdown.open >>> Dropdown.focusLastItem
                    >>> Dropdown.close >>> Dropdown.open))
  = [0%nat; 2%nat].
Proof. reflexivity. Qed.

(** C6, amended: a carousel constructed over at least one slide has,
    after any sequence of [goToSlide], [nextSlide] and [previousSlide],
    exactly one slide with [tabindex="0"], the current one.  A dropdown
    constructed over at least one item starts with every item carrying
    [tabindex="-1"] and none carrying [tabindex="0"]; after any sequence
    of [open], [focusItem],
    [focusFirstItem], [focusLastItem], [focusNextItem] and
    [focusPreviousItem], either its current index is still [-1] and no
    item carries it, or exactly the current item does. *)
Theorem roving_tab_stop
    (copts : Carousel.Options) (markup : list Carousel.Slide) (cops : list Carousel.Op)
    (dopts : Dropdown.Options) (m : Dropdown.Menu) (items : list Dropdown.MenuItem)
    (dops : list Dropdown.Op) (w : Window) :
  markup <> [] -> items <> [] ->
  (exists c i,
      Carousel.run cops (Carousel.construct copts markup w) = JS.Returns c
      /\ Carousel.currentSlide (Carousel.car c) = JS.Num (Z.of_nat i)
      /\ Carousel.tab_stops c = [i])
  /\ (exists d0 d,
         Dropdown.construct dopts (Some (m, items)) w = JS.Returns d0
         /\ Forall (fun x => Dropdown.tabindex x = Some "-1")
              (Dropdown.menuItems (Dropdown.dd d0))
         /\ Dropdown.tab_stops d0 = []
         /\ Dropdown.run dops d0 = JS.Returns d
         /\ (Dropdown.currentIndex (Dropdown.dd d) = JS.Num (-1)
             /\ Dropdown.tab_stops d = []
             \/ exists i, Dropdown.currentIndex (Dropdown.dd d) = JS.Num (Z.of_nat i)
                          /\ Dropdown.tab_stops d = [i])).
Proof.
  intros Hm Hi. split.
  - destruct (CarouselFacts.carousel_construct_valid copts markup w Hm) as (Hwf & Hr).
    destruct (CarouselFacts.carousel_run_valid cops _ 0 Hwf Hr) as (c & j & Hrun & Hwf' & Hr').
    exists c, (Z.to_nat j). split; [done|].
    rewrite (CarouselFacts.carousel_roving_tab_stops c j Hwf' Hr').
    destruct Hwf' as (-> & ? & _). split; [f_equal; lia|done].
  - destruct (DropdownFacts.dropdown_construct_valid dopts m items w Hi)
      as (d0 & Hc & Hwf & Hr & Hmenu).
    destruct (DropdownFacts.dropdown_run_valid dops d0 (-1) Hwf Hr Hmenu)
      as (d & j & Hrun & Hwf' & Hr').
    exists d0, d. split; [done|].
    split.
    { injection Hc as <-. cbn [Dropdown.dd Dropdown.menuItems].
      apply Forall_fmap, Forall_forall. by intros x _. }
    split; [by rewrite (DropdownFacts.dropdown_roving_tab_stops d0 (-1) Hwf Hr)|].
    split; [done|].
    rewrite (DropdownFacts.dropdown_roving_tab_stops d j Hwf' Hr').
    destruct Hwf' as (-> & ? & _). case_decide as Hj.
    + left. by rewrite Hj.
    + right. exists (Z.to_nat j). split; [f_equal; lia|done].
Qed.

Lemma roving_tab_stop_witness :
  [Carousel.plain_slide; Carousel.plain_slide] <> []
  /\ [Dropdown.plain_item; Dropdown.plain_item] <> []
  /\ (exists c i,
         Carousel.run [Carousel.Next; Carousel.GoTo 0; Carousel.Previous]
           (Carousel.construct Carousel.defaults
              [Carousel.plain_slide; Carousel.plain_slide] fresh_window)
         = JS.Returns c
         /\ Carousel.currentSlide (Carousel.car c) = JS.Num (Z.of_nat i)
         /\ Carousel.tab_stops c = [i])
  /\ (exists d0 d,
         Dropdown.construct Dropdown.defaults
           (Some (Dropdown.plain_menu, [Dropdown.plain_item; Dropdown.plain_item]))
           fresh_window = JS.Returns d0
         /\ Forall (fun x => Dropdown.tabindex x = Some "-1")
              (Dropdown.menuItems (Dropdown.dd d0))
         /\ Dropdown.tab_stops d0 = []
         /\ Dropdown.run [Dropdown.Open; Dropdown.FocusPrevious] d0 = JS.Returns d
         /\ (Dropdown.currentIndex (Dropdown.dd d) = JS.Num (-1)
             /\ Dropdown.tab_stops d = []
             \/ exists i, Dropdown.currentIndex (Dropdown.dd d) = JS.Num (Z.of_nat i)
                          /\ Dropdown.tab_stops d = [i])).
Proof.
  split; [discriminate|]. split; [discriminate|].
  apply (roving_tab_stop Carousel.defaults [Carousel.plain_slide; Carousel.plain_slide]
           [Carousel.Next; Carousel.GoTo 0; Carousel.Previous]
           Dropdown.defaults Dropdown.plain_menu
           [Dropdown.plain_item; Dropdown.plain_item]
           [Dropdown.Open; Dropdown.FocusPrevious] fresh_window); discriminate.
Defined.

(** C7: on [n] items with a valid current index [i], [focusNextItem]
    moves the current index to [(i + 1) mod n], [focusPreviousItem] to
    [(i - 1 + n) mod n], and [n] calls of [focusNextItem] bring the
    current index, and the focus, back to [i]; the same holds for
    [nextSlide] and [previousSlide] on the [n] slides of a carousel. *)
Theorem focus_next_is_cyclic (d : Dropdown.World) (c : Carousel.World) (i j : Z) :
  Dropdown.well_formed d i -> 0 <= i -> Carousel.well_formed c j ->
  let n := length (Dropdown.menuItems (Dropdown.dd d)) in
  let m := length (Carousel.slides (Carousel.car c)) in
  (exists d', Dropdown.focusNextItem d = JS.Returns d'
              /\ Dropdown.currentIndex (Dropdown.dd d') = JS.Num ((i + 1) mod Z.of_nat n))
  /\ (exists d', Dropdown.focusPreviousItem d = JS.Returns d'
                 /\ Dropdown.currentIndex (Dropdown.dd d')
                    = JS.Num ((i - 1 + Z.of_nat n) mod Z.of_nat n))
  /\ (exists d', JS.times n Dropdown.focusNextItem d = JS.Returns d'
                 /\ Dropdown.currentIndex (Dropdown.dd d') = JS.Num i
                 /\ Dropdown.active (Dropdown.dd d')
                    = Some (Dropdown.OnItem (Z.to_nat i)))
  /\ (exists c', Carousel.nextSlide c = JS.Returns c'
                 /\ Carousel.currentSlide (Carousel.car c')
                    = JS.Num ((j + 1) mod Z.of_nat m))
  /\ (exists c', Carousel.previousSlide c = JS.Returns c'
                 /\ Carousel.currentSlide (Carousel.car c')
                    = JS.Num ((j - 1 + Z.of_nat m) mod Z.of_nat m))
  /\ (exists c', JS.times m Carousel.nextSlide c = JS.Returns c'
                 /\ Carousel.currentSlide (Carousel.car c') = JS.Num j).
Proof.
  intros Hd Hi Hc n m.
  pose proof Hd as (_ & Hi' & Hn). pose proof Hc as (_ & Hj & _).
  fold n in Hi', Hn. fold m in Hj.
  assert ((i + Z.of_nat n) mod Z.of_nat n = i) as Hcyc_d.
  { rewrite <- (Z.mul_1_l (Z.of_nat n)) at 1. rewrite Z.mod_add by lia.
    apply Z.mod_small. lia. }
  assert ((j + Z.of_nat m) mod Z.of_nat m = j) as Hcyc_c.
  { rewrite <- (Z.mul_1_l (Z.of_nat m)) at 1. rewrite Z.mod_add by lia.
    apply Z.mod_small. lia. }
  repeat split.
  - destruct (DropdownFacts.focusNextItem_valid d i Hd) as (d' & Hr & (Hcur & _) & _).
    exists d'. split; [done|]. fold n in Hcur. by rewrite Hcur, Z.rem_mod_nonneg by lia.
  - destruct (DropdownFacts.focusPreviousItem_valid d i Hd) as (d' & Hr & (Hcur & _) & _).
    exists d'. split; [done|]. fold n in Hcur. by rewrite Hcur, Z.rem_mod_nonneg by lia.
  - destruct (DropdownFacts.focusNextItem_times n d i Hd Hi) as (d' & Hr & (Hcur & _) & _ & Ha).
    fold n in Hcur, Ha. rewrite Hcyc_d in Hcur, Ha.
    exists d'. split; [done|]. split; [done|]. apply Ha. lia.
  - destruct (CarouselFacts.nextSlide_valid c j Hc) as (c' & Hr & (Hcur & _) & _).
    by exists c'.
  - destruct (CarouselFacts.previousSlide_valid c j Hc) as (c' & Hr & (Hcur & _) & _).
    by exists c'.
  - destruct (CarouselFacts.nextSlide_times m c j Hc) as (c' & Hr & (Hcur & _) & _).
    fold m in Hcur. rewrite Hcyc_c in Hcur. by exists c'.
Qed.

Lemma focus_next_is_cyclic_witness :
  Dropdown.well_formed
    (JS.state_of (Dropdown.three_entries >>> Dropdown.open >>> Dropdown.focusLastItem)) 2
  /\ 0 <= 2
  /\ Carousel.well_formed Carousel.four_slides 0
  /\ (exists d', JS.times 3 Dropdown.focusNextItem
                   (JS.state_of (Dropdown.three_entries >>> Dropdown.open
                                   >>> Dropdown.focusLastItem))
                 = JS.Returns d'
                 /\ Dropdown.currentIndex (Dropdown.dd d') = JS.Num 2
                 /\ Dropdown.active (Dropdown.dd d') = Some (Dropdown.OnItem 2))
  /\ (exists c', JS.times 4 Carousel.nextSlide Carousel.four_slides = JS.Returns c'
                 /\ Carousel.currentSlide (Carousel.car c') = JS.Num 0).
Proof.
  assert (Dropdown.well_formed
            (JS.state_of (Dropdown.three_entries >>> Dropdown.open
                            >>> Dropdown.focusLastItem)) 2) as Hd.
  { split; [reflexivity|]. change (-1 <= 2 < 3 /\ (1 <= 3)%nat). lia. }
  assert (Carousel.well_formed Carousel.four_slides 0) as Hc.
  { split; [reflexivity|]. split; [change (0 <= 0 < 4); lia|right; reflexivity]. }
  split; [exact Hd|]. split; [lia|]. split; [exact Hc|].
  pose proof (focus_next_is_cyclic _ _ 2 0 Hd ltac:(lia) Hc) as H.
  cbv zeta in H. destruct H as (_ & _ & H3 & _ & _ & H6).
  split; [exact H3 | exact H6].
Defined.

End FocusFacts.

(** * Further facts about the load-more controller *)

(** * Further facts about the load-more controller *)

Module PaginationInvariants.
Import A11y A11yFacts Pagination PaginationFacts PaginationViews.

Lemma pagination_run_snoc (es : list Event) (e : Event) (s : World) :
  run (es ++ [e]) s = step (run es s) e.
Proof. unfold run. by rewrite foldl_app. Qed.

(** Induction over the events that led to a state. *)
Lemma reachable_ind (P : World -> Prop) (s0 : World) :
  P s0 -> (forall s e, P s -> P (step s e)) -> forall es, P (run es s0).
Proof.
  intros H0 Hstep es. induction es as [|e es IH] using rev_ind; [done|].
  rewrite pagination_run_snoc. by apply Hstep.
Qed.

Lemma step_options (s : World) (e : Event) :
  options (ctl (step s e)) = options (ctl s).
Proof.
  destruct e as [|r|dt]; cbn [step].
  - unfold loadMore. by destruct (_ || _).
  - destruct (inFlight s); [done|].
    destruct r as [[[|x l]|]|err]; cbn; try done.
    + destruct (_ && _); cbn; by destruct (addItems_fields (x :: l) s) as (_ & -> & _).
    + by destruct (has_a11y _).
  - destruct (elapse_surface dt s) as (Hs & _). unfold surface in Hs. congruence.
Qed.

Lemma loadMore_body_inFlight (r : Fetched) (s : World) :
  inFlight (loadMore_body r s) = inFlight s.
Proof.
  destruct r as [[[|i l]|]|e]; cbn; try done.
  - destruct (_ && _); cbn; unfold addItems; by destruct (JS.index _ _).
  - by destruct (has_a11y _).
Qed.

(** X1: at most one fetch is in flight, and one is in flight exactly
    while [isLoading] is true. *)
Theorem single_flight (opts : Options) (wrapper : bool) (markup : list Child)
    (w : Window) (es : list Event) :
  let s := run es (start opts wrapper markup w) in
  inFlight s = (if isLoading (ctl s) then 1 else 0)%nat.
Proof.
  apply (reachable_ind (fun s => inFlight s = (if isLoading (ctl s) then 1 else 0)%nat)).
  - cbn. unfold construct. by destruct wrapper, (showPageNumbers opts).
  - intros s e H. destruct e as [|r|dt]; cbn [step].
    + unfold loadMore. destruct (isLoading (ctl s)) eqn:El; cbn [orb]; [by rewrite El|].
      destruct (hasMore (ctl s)); cbn [negb]; [cbn; by rewrite H | by rewrite El].
    + destruct (inFlight s) as [|n] eqn:En; cbn iota; [by rewrite En|].
      destruct (isLoading (ctl s)); [|done].
      change (Nat.pred (inFlight (loadMore_body r s)) = 0%nat).
      rewrite loadMore_body_inFlight, En. by inversion H.
    + destruct (elapse_surface dt s) as (Hs & _ & ->).
      by rewrite (surface_isLoading _ _ Hs).
Qed.

(** X2: the control surface always reflects the state: [aria-busy] and
    the disabling of the button follow [isLoading], the button reads the
    loading text while loading, otherwise the load-more text or, once
    exhausted, the no-more text, and the status text is the loading
    notice while loading and empty otherwise.  The options never
    change. *)
Theorem surface_reflects_state (opts : Options) (wrapper : bool) (markup : list Child)
    (w : Window) (es : list Event) :
  let p := ctl (run es (start opts wrapper markup w)) in
  options p = opts
  /\ aria_busy p = (if isLoading p then "true" else "false")
  /\ btn_disabled p = isLoading p
  /\ btn_text p = (if isLoading p then loadingText opts
                   else if hasMore p then loadMoreText opts else noMoreText opts)
  /\ statusMessage p = (if isLoading p then "Loading new items..." else "").
Proof.
  intros p.
  assert (options p = opts) as Ho.
  { subst p. apply (reachable_ind (fun s => options (ctl s) = opts)).
    - cbn. unfold construct. by destruct wrapper, (showPageNumbers opts).
    - intros s e H. by rewrite step_options. }
  split; [done|].
  assert (presented p) as Hp.
  { apply presented_reachable. by exists opts, wrapper, markup, w, es. }
  unfold presented in Hp. rewrite <- Ho.
  destruct p as [o cp ti il hm ch ab bd bt sm pinfo fo]. cbn in *.
  inversion Hp as [[Hab Hbd Hbt Hsm]]. rewrite Hab, Hbd, Hbt, Hsm.
  by destruct il.
Qed.


Lemma kinds_alter (v : option string) (i : nat) (l : list Child) :
  kind <$> alter (set_tabindex v) i l = kind <$> l.
Proof.
  rewrite (list_fmap_alter kind (set_tabindex v) id); [|by apply Forall_true].
  by apply list_alter_id.
Qed.

Lemma fire_kinds (a : TimerAction) (s : World) : kinds (ctl (fire a s)) = kinds (ctl s).
Proof. destruct a as [|i]; [done|]. apply kinds_alter. Qed.

Lemma elapse_kinds (dt : Z) (s : World) : kinds (ctl (elapse dt s)) = kinds (ctl s).
Proof.
  unfold elapse. generalize (due (now (win s) + Z.max 0 dt) (timers (win s))).
  intros l.
  match goal with |- kinds (ctl (foldl _ ?t l)) = _ => change (kinds (ctl s)) with (kinds (ctl t)); generalize t end.
  induction l as [|a l IH]; intros t; [done|].
  cbn [foldl]. by rewrite IH, fire_kinds.
Qed.

Lemma append_items_kinds (items : list ItemData) (p : AccessiblePagination) :
  kinds (append_items items p) = kinds p ++ (kind <$> fragment (totalItems p) items).
Proof.
  unfold append_items, kinds. destruct (showPageNumbers _); cbn.
  - unfold updatePageInfo. cbn. destruct (pageInfo p); cbn; by rewrite fmap_app.
  - by rewrite fmap_app.
Qed.

Lemma addItems_kinds (items : list ItemData) (s : World) :
  kinds (ctl (addItems items s))
  = kinds (ctl s) ++ (kind <$> fragment (totalItems (ctl s)) items).
Proof.
  unfold addItems. destruct (JS.index _ _); cbn [ctl on_ctl on_win].
  - unfold kinds at 1. cbn [focus_child children]. rewrite kinds_alter.
    apply append_items_kinds.
  - apply append_items_kinds.
Qed.

(** What a step does to the list of children and to the count: a
    settlement with items appends one child per item, numbered on from the
    count; nothing else changes either. *)
Lemma step_kinds (s : World) (e : Event) :
  exists items,
    kinds (ctl (step s e)) = kinds (ctl s) ++ (kind <$> fragment (totalItems (ctl s)) items)
    /\ totalItems (ctl (step s e)) = totalItems (ctl s) + Z.of_nat (length items)
    /\ (currentPage (ctl (step s e)) = currentPage (ctl s)
        \/ currentPage (ctl (step s e)) = currentPage (ctl s) + 1).
Proof.
  destruct e as [|r|dt]; cbn [step].
  - exists []. unfold loadMore.
    destruct (_ || _); cbn; (split; [by rewrite app_nil_r | lia]).
  - destruct (inFlight s); [exists []; cbn; split; [by rewrite app_nil_r | lia]|].
    destruct r as [[[|x l]|]|err].
    + exists []. cbn. split; [by rewrite app_nil_r | lia].
    + exists (x :: l).
      destruct (settled_with_items x l s) as (-> & -> & _).
      split; [|lia]. cbn. destruct (_ && _); cbn; apply addItems_kinds.
    + exists []. cbn. split; [by rewrite app_nil_r | lia].
    + exists []. cbn. destruct (has_a11y _); cbn; (split; [by rewrite app_nil_r | lia]).
  - exists []. destruct (elapse_surface dt s) as (Hs & _). unfold surface in Hs.
    assert (totalItems (ctl (elapse dt s)) = totalItems (ctl s)) as -> by congruence.
    assert (currentPage (ctl (elapse dt s)) = currentPage (ctl s)) as -> by congruence.
    rewrite elapse_kinds. cbn. split; [by rewrite app_nil_r | lia].
Qed.

(** X3: children of the items container are only ever appended, never
    removed or reordered, and [totalItems] and [currentPage] never
    decrease. *)
Theorem items_only_appended (s : World) (es : list Event) :
  kinds (ctl s) `prefix_of` kinds (ctl (run es s))
  /\ totalItems (ctl s) <= totalItems (ctl (run es s))
  /\ currentPage (ctl s) <= currentPage (ctl (run es s)).
Proof.
  apply (reachable_ind (fun t => kinds (ctl s) `prefix_of` kinds (ctl t)
                                 /\ totalItems (ctl s) <= totalItems (ctl t)
                                 /\ currentPage (ctl s) <= currentPage (ctl t))).
  - done.
  - intros t e (Hk & Ht & Hc). destruct (step_kinds t e) as (items & -> & -> & Hp).
    split; [by apply prefix_app_r|]. split; lia.
Qed.


Lemma construct_layout (opts : Options) (wrapper : bool) (markup : list Child) :
  let p := construct opts wrapper markup in
  totalItems p = Z.of_nat (length markup)
  /\ Z.of_nat (length (kinds p)) = Z.of_nat (length markup) + extra_children wrapper.
Proof.
  unfold construct, kinds.
  destruct wrapper, (showPageNumbers opts); cbn; rewrite ?length_fmap, ?length_app; cbn;
    (split; [done | lia]).
Qed.

(** The children of a controller are those it was constructed with,
    followed by one child per counted item beyond the markup, numbered on
    from the markup. *)
Lemma layout (opts : Options) (wrapper : bool) (markup : list Child) (w : Window)
    (es : list Event) :
  let p := ctl (run es (start opts wrapper markup w)) in
  exists ik,
    kinds p = kinds (construct opts wrapper markup) ++ ik
    /\ Z.of_nat (length ik) = totalItems p - Z.of_nat (length markup)
    /\ forall (j : nat) k,
         ik !! j = Some k ->
         exists h d,
           k = Item ("Item " +:+ JS.show (Z.of_nat (length markup) + Z.of_nat j + 1)) h d.
Proof.
  apply (reachable_ind
           (fun s => exists ik,
                kinds (ctl s) = kinds (construct opts wrapper markup) ++ ik
                /\ Z.of_nat (length ik) = totalItems (ctl s) - Z.of_nat (length markup)
                /\ forall (j : nat) k,
                     ik !! j = Some k ->
                     exists h d,
                       k = Item ("Item " +:+ JS.show (Z.of_nat (length markup)
                                                      + Z.of_nat j + 1)) h d)).
  - exists []. cbn [start ctl]. rewrite app_nil_r.
    destruct (construct_layout opts wrapper markup) as (-> & _).
    split; [done|]. split; [cbn; lia|]. intros j k Hk. by rewrite lookup_nil in Hk.
  - intros s e (ik & Hk & Hlen & Hlab).
    destruct (step_kinds s e) as (items & -> & -> & _).
    exists (ik ++ (kind <$> fragment (totalItems (ctl s)) items)).
    split; [by rewrite Hk, app_assoc|].
    split.
    { rewrite length_app, length_fmap. unfold fragment. rewrite length_imap. lia. }
    intros j k. rewrite lookup_app. destruct (ik !! j) as [k'|] eqn:E.
    + intros [= <-]. by apply Hlab.
    + apply lookup_ge_None in E. rewrite list_lookup_fmap. unfold fragment.
      rewrite list_lookup_imap.
      destruct (items !! (j - length ik)%nat) as [it|]; [|done]. cbn.
      intros [= <-]. eexists _, _. f_equal. f_equal. f_equal. lia.
Qed.

Lemma layout_count (opts : Options) (wrapper : bool) (markup : list Child)
    (w : Window) (es : list Event) :
  let p := ctl (run es (start opts wrapper markup w)) in
  Z.of_nat (length (children p)) = totalItems p + extra_children wrapper
  /\ Z.of_nat (length markup) <= totalItems p.
Proof.
  intros p. destruct (layout opts wrapper markup w es) as (ik & Hk & Hlen & _).
  fold p in Hk, Hlen.
  destruct (construct_layout opts wrapper markup) as (_ & Hc).
  assert (length (children p) = length (kinds p)) as -> by (unfold kinds; by rewrite length_fmap).
  rewrite Hk, length_app. lia.
Qed.

(** X4: the items container holds [totalItems] children when it is a
    wrapper of its own, and three more (the skip link, the controls and
    the end anchor) when it is the container itself; [totalItems] is at
    least the number of children found in the markup. *)
Theorem children_count (opts : Options) (wrapper : bool) (markup : list Child)
    (w : Window) (es : list Event) :
  let p := ctl (run es (start opts wrapper markup w)) in
  Z.of_nat (length (children p)) = totalItems p + extra_children wrapper
  /\ Z.of_nat (length markup) <= totalItems p.
Proof. exact (layout_count opts wrapper markup w es). Qed.

(** X5: the items appended by the controller are labelled in sequence:
    the [j]-th counted item (from 1), when it is beyond the markup, is an
    item element with [aria-label] "Item j". *)
Theorem items_labelled_in_sequence (opts : Options) (wrapper : bool)
    (markup : list Child) (w : Window) (es : list Event) (j : Z) :
  let p := ctl (run es (start opts wrapper markup w)) in
  Z.of_nat (length markup) < j <= totalItems p ->
  exists c h d,
    children p !! Z.to_nat (j - 1 + extra_children wrapper) = Some c
    /\ kind c = Item ("Item " +:+ JS.show j) h d.
Proof.
  intros p Hj. destruct (layout opts wrapper markup w es) as (ik & Hk & Hlen & Hlab).
  set (q := ctl (run es (start opts wrapper markup w))) in *. subst p.
  destruct (construct_layout opts wrapper markup) as (_ & Hc).
  assert (0 <= extra_children wrapper) as Hx by (by destruct wrapper).
  assert (exists k, ik !! Z.to_nat (j - 1 - Z.of_nat (length markup)) = Some k) as [k Hik].
  { apply lookup_lt_is_Some_2. lia. }
  destruct (Hlab _ _ Hik) as (h & d & ->).
  assert (kinds q !! Z.to_nat (j - 1 + extra_children wrapper)
          = Some (Item ("Item " +:+ JS.show j) h d)) as Hkp.
  { rewrite Hk, lookup_app_r by lia.
    replace (Z.to_nat (j - 1 + extra_children wrapper)
             - length (kinds (construct opts wrapper markup)))%nat
      with (Z.to_nat (j - 1 - Z.of_nat (length markup)))
      by lia.
    rewrite Hik. do 4 f_equal. lia. }
  unfold kinds in Hkp. rewrite list_lookup_fmap in Hkp.
  destruct (children q !! _) as [c|]; [|done]. cbn in Hkp.
  exists c, h, d. split; [done|congruence].
Qed.

Lemma items_labelled_in_sequence_witness :
  Z.of_nat (length three_items) < 5 <= totalItems (ctl (after_calls 1 scenario))
  /\ exists c h d,
       children (ctl (after_calls 1 scenario)) !! 4%nat = Some c
       /\ kind c = Item "Item 5" h d.
Proof.
  assert (Z.of_nat (length three_items) < 5
          <= totalItems (ctl (run [LoadMore; Elapse 1000;
                                    Settle (Resolved (Some (response scenario)))]
                                (start defaults true three_items fresh_window)))) as H
    by (change (3 < 5 <= 13); lia).
  split; [exact H|].
  exact (items_labelled_in_sequence defaults true three_items fresh_window
           [LoadMore; Elapse 1000; Settle (Resolved (Some (response scenario)))] 5 H).
Defined.


(** [addItems] when the child at position [totalItems] exists once the
    new items are appended: that child gets the focus and a timer. *)
Lemma addItems_focuses (x : ItemData) (l : list ItemData) (s : World) (c : Child) :
  0 <= totalItems (ctl s) ->
  (children (ctl s) ++ fragment (totalItems (ctl s)) (x :: l))
    !! Z.to_nat (totalItems (ctl s)) = Some c ->
  let t := Z.to_nat (totalItems (ctl s)) in
  children (ctl (addItems (x :: l) s))
  = alter (set_tabindex (Some "-1")) t
      (children (ctl s) ++ fragment (totalItems (ctl s)) (x :: l))
  /\ focused (ctl (addItems (x :: l) s)) = Some t
  /\ win (addItems (x :: l) s) = setTimeout (RemoveTabindex t) 100 (win s).
Proof.
  intros H0 Hc t. unfold addItems.
  assert (children (append_items (x :: l) (ctl s))
          = children (ctl s) ++ fragment (totalItems (ctl s)) (x :: l)) as Hch.
  { unfold append_items. destruct (showPageNumbers _); [|done].
    unfold updatePageInfo. cbn. by destruct (pageInfo _). }
  assert (totalItems (append_items (x :: l) (ctl s))
          = totalItems (ctl s) + Z.of_nat (length (x :: l))) as Ht.
  { unfold append_items. destruct (showPageNumbers _); [|done].
    unfold updatePageInfo. cbn. by destruct (pageInfo _). }
  cbn [ctl on_ctl]. rewrite Ht, Z.add_simpl_r. unfold JS.index.
  rewrite (proj2 (Z.ltb_ge _ 0)) by done. rewrite Hch, Hc.
  cbn [ctl on_ctl on_win win focus_child children focused]. by rewrite Hch.
Qed.

Lemma settled_children (x : ItemData) (l : list ItemData) (s : World) :
  children (ctl (loadMore_settled (Resolved (Some (x :: l))) s))
  = children (ctl (addItems (x :: l) s))
  /\ focused (ctl (loadMore_settled (Resolved (Some (x :: l))) s))
     = focused (ctl (addItems (x :: l) s))
  /\ now (win (loadMore_settled (Resolved (Some (x :: l))) s))
     = now (win (addItems (x :: l) s))
  /\ forall u, u ∈ timers (win (addItems (x :: l) s)) ->
               u ∈ timers (win (loadMore_settled (Resolved (Some (x :: l))) s)).
Proof.
  cbn. destruct (_ && _); cbn; [|done]. repeat split.
  - unfold announce. by destruct (a11y _).
  - intros u Hu. unfold announce. destruct (a11y _); [|done]. cbn.
    by apply schedule_keeps.
Qed.

(** What is left of a child's [tabindex] once a list of timers has run. *)
Lemma fire_all_child (acts : list TimerAction) (s : World) (i : nat) (c : Child) :
  children (ctl s) !! i = Some c ->
  children (ctl (foldl (fun x a => fire a x) s acts)) !! i
  = Some (if decide (RemoveTabindex i ∈ acts) then set_tabindex None c else c).
Proof.
  intros Hc. induction acts as [|a acts IH] using rev_ind.
  - cbn. rewrite Hc. case_decide as H; [by apply elem_of_nil in H|done].
  - rewrite foldl_app. cbn [foldl].
    assert (forall a', a' <> RemoveTabindex i ->
              (RemoveTabindex i ∈ acts ++ [a'] <-> RemoveTabindex i ∈ acts)) as Hsn.
    { intros a' Ha. rewrite elem_of_app, list_elem_of_singleton.
      split; [intros [?|?]; [done | congruence] | tauto]. }
    destruct a as [|j].
    + change (children (ctl (fire ClearAnnouncer ?t))) with (children (ctl t)).
      rewrite IH. f_equal. pose proof (Hsn ClearAnnouncer ltac:(discriminate)) as Hs.
      repeat case_decide; tauto || done.
    + change (children (ctl (fire (RemoveTabindex j) ?t)))
        with (alter (set_tabindex None) j (children (ctl t))).
      destruct (decide (j = i)) as [->|Hne].
      * rewrite list_lookup_alter, decide_True, IH by done.
        rewrite (decide_True (P := RemoveTabindex i ∈ acts ++ [RemoveTabindex i]))
          by (apply elem_of_app; right; by apply list_elem_of_singleton).
        by case_decide.
      * rewrite list_lookup_alter_ne, IH by done. f_equal.
        pose proof (Hsn (RemoveTabindex j) ltac:(congruence)) as Hs.
        repeat case_decide; tauto || done.
Qed.

Lemma elapse_child (dt : Z) (s : World) (i : nat) (c : Child) :
  children (ctl s) !! i = Some c ->
  children (ctl (elapse dt s)) !! i
  = Some (if decide (RemoveTabindex i ∈ due (now (win s) + Z.max 0 dt) (timers (win s)))
          then set_tabindex None c else c).
Proof. intros Hc. unfold elapse. by apply fire_all_child. Qed.

(** X6: when the items container is a wrapper of its own, a settlement
    with items moves the focus to the first of the new items, which gets
    [tabindex="-1"]; a tenth of a second later that attribute is removed
    again. *)
Theorem first_new_item_is_focused (opts : Options) (markup : list Child) (w : Window)
    (es : list Event) (x : ItemData) (l : list ItemData) :
  let s := run es (start opts true markup w) in
  let s' := loadMore_settled (Resolved (Some (x :: l))) s in
  let t := Z.to_nat (totalItems (ctl s)) in
  length (children (ctl s)) = t
  /\ focused (ctl s') = Some t
  /\ children (ctl s') !! t
     = Some (set_tabindex (Some "-1") (createItemElement x (totalItems (ctl s) + 1)))
  /\ children (ctl (elapse 100 s')) !! t
     = Some (createItemElement x (totalItems (ctl s) + 1)).
Proof.
  intros s s' t.
  destruct (layout_count opts true markup w es) as (Hlen & Hm).
  fold s in Hlen, Hm. cbn [extra_children] in Hlen.
  assert (length (children (ctl s)) = t) as Hl by (subst t; lia).
  assert ((children (ctl s) ++ fragment (totalItems (ctl s)) (x :: l)) !! t
          = Some (createItemElement x (totalItems (ctl s) + 1))) as Hc.
  { rewrite lookup_app_r by lia. rewrite Hl, Nat.sub_diag. cbn. do 2 f_equal. lia. }
  destruct (addItems_focuses x l s _ ltac:(lia) Hc) as (Hch & Hf & Hw).
  destruct (settled_children x l s) as (Hch' & Hf' & Hnow & Htim).
  fold s' in Hch', Hf', Hnow, Htim. fold t in Hch, Hf, Hw.
  assert (children (ctl s') !! t
          = Some (set_tabindex (Some "-1") (createItemElement x (totalItems (ctl s) + 1))))
    as Hfoc.
  { rewrite Hch', Hch, list_lookup_alter, decide_True, Hc by done. done. }
  split; [done|]. split; [by rewrite Hf'|]. split; [done|].
  rewrite (elapse_child 100 s' t _ Hfoc). rewrite decide_True; [done|].
  apply (due_elem _ (now (win s) + 100)).
  - apply Htim. rewrite Hw. cbn. apply schedule_elem.
  - rewrite Hnow, Hw. cbn. lia.
Qed.

(** X7: when the items container is the container itself, the skip link,
    the controls and the end anchor are among its children but not in
    [totalItems]: a settlement with items gives the focus and
    [tabindex="-1"] to a child that was there before, three places ahead of
    the first new item. *)
Theorem focus_falls_short_without_wrapper (opts : Options) (markup : list Child)
    (w : Window) (es : list Event) (x : ItemData) (l : list ItemData) :
  let s := run es (start opts false markup w) in
  let s' := loadMore_settled (Resolved (Some (x :: l))) s in
  let t := Z.to_nat (totalItems (ctl s)) in
  exists c,
    children (ctl s) !! t = Some c
    /\ focused (ctl s') = Some t
    /\ children (ctl s') !! t = Some (set_tabindex (Some "-1") c)
    /\ children (ctl s') !! (t + 3)%nat
       = Some (createItemElement x (totalItems (ctl s) + 1)).
Proof.
  intros s s' t.
  destruct (layout_count opts false markup w es) as (Hlen & Hm).
  fold s in Hlen, Hm. cbn [extra_children] in Hlen.
  assert (length (children (ctl s)) = (t + 3)%nat) as Hl by (subst t; lia).
  destruct (lookup_lt_is_Some_2 (children (ctl s)) t) as [c Hc]; [lia|].
  exists c. split; [done|].
  assert ((children (ctl s) ++ fragment (totalItems (ctl s)) (x :: l)) !! t = Some c) as Hc'
    by (by apply lookup_app_l_Some).
  destruct (addItems_focuses x l s _ ltac:(lia) Hc') as (Hch & Hf & _).
  destruct (settled_children x l s) as (Hch' & Hf' & _).
  fold s' in Hch', Hf'. fold t in Hch, Hf.
  split; [by rewrite Hf'|]. rewrite Hch', Hch. split.
  - by rewrite list_lookup_alter, decide_True, Hc' by done.
  - rewrite list_lookup_alter_ne by lia. rewrite lookup_app_r by lia.
    rewrite Hl, Nat.sub_diag. cbn. do 2 f_equal. lia.
Qed.


(** X8: against the simulated source, from [m] items in the markup, at
    most fifty, and [p] items per page, at least one, the count after [k]
    whole calls is [min 50 (m + k p)]; the controller is exhausted by the
    first call that finds fifty items loaded, and not before. *)
Theorem simulated_source_closed_form (opts : Options) (wrapper : bool)
    (markup : list Child) (w : Window) (k : nat) :
  1 <= itemsPerPage opts -> Z.of_nat (length markup) <= 50 ->
  let m := Z.of_nat (length markup) in
  let p := itemsPerPage opts in
  let s := after_calls k (start opts wrapper markup w) in
  totalItems (ctl s) = Z.min 50 (m + Z.of_nat k * p)
  /\ hasMore (ctl s) = bool_decide (k = 0%nat \/ m + (Z.of_nat k - 1) * p < 50)
  /\ isLoading (ctl s) = false.
Proof.
  intros Hp Hm m p.
  assert (forall k,
             let s := after_calls k (start opts wrapper markup w) in
             totalItems (ctl s) = Z.min 50 (m + Z.of_nat k * p)
             /\ hasMore (ctl s) = bool_decide (k = 0%nat \/ m + (Z.of_nat k - 1) * p < 50)
             /\ isLoading (ctl s) = false
             /\ options (ctl s) = opts) as H; [|by destruct (H k) as (? & ? & ? & _)].
  clear k. intros k. induction k as [|k IH].
  - cbn. unfold construct. destruct wrapper, (showPageNumbers opts); cbn; subst m; repeat split; lia.
  - destruct IH as (Ht & Hh & Hl & Ho). cbv zeta. rewrite after_calls_S.
    set (s := after_calls k (start opts wrapper markup w)) in *.
    assert (0 <= Z.of_nat k * p) as Hkp by nia.
    destruct (hasMore (ctl s)) eqn:Ehm.
    + destruct (loadMore_simulated_spec s Hl Ehm) as (_ & Ht' & Hh' & Hl' & Ho').
      rewrite Ho in Ht', Hh', Ho'. fold p in Ht', Hh'.
      symmetry in Hh. apply bool_decide_eq_true in Hh.
      assert (m + Z.of_nat k * p < 50 \/ (50 <= m + Z.of_nat k * p)) as [Hlt|Hge] by lia.
      * rewrite Ht', Hh', Hl', Ho', Ht. repeat split; [lia|].
        rewrite (proj2 (Z.ltb_lt _ _)) by lia. symmetry. apply bool_decide_eq_true. lia.
      * rewrite Ht', Hh', Hl', Ho', Ht. repeat split; [lia|].
        rewrite (proj2 (Z.ltb_ge _ _)) by lia. symmetry. apply bool_decide_eq_false. lia.
    + assert (loadMore_simulated s = s) as ->.
      { unfold loadMore_simulated. by rewrite Ehm, orb_true_r. }
      symmetry in Hh. apply bool_decide_eq_false in Hh.
      rewrite Ht, Ehm, Hl, Ho. repeat split; [lia|].
      symmetry. apply bool_decide_eq_false. lia.
Qed.

Lemma simulated_source_closed_form_witness :
  1 <= itemsPerPage defaults /\ Z.of_nat (length three_items) <= 50
  /\ totalItems (ctl (after_calls 2 scenario)) = Z.min 50 (3 + 2 * 10)
  /\ hasMore (ctl (after_calls 2 scenario)) = true
  /\ isLoading (ctl (after_calls 2 scenario)) = false.
Proof.
  split; [cbn; lia|]. split; [cbn; lia|].
  exact (simulated_source_closed_form defaults true three_items fresh_window 2
           ltac:(cbn; lia) ltac:(cbn; lia)).
Defined.

End PaginationInvariants.

(** * Facts about focus management *)

(** * Facts about focus management *)

Module FocusManagerFacts.
Import FocusManager.

Section Document.
Variable canFocus : Element -> bool.
Variable ancestor : Element -> Element -> bool.

Lemma restoreFocus_manageFocus (e a : Element) (o : FocusOptions) (m : Manager) :
  savePrevious o = true -> activeElement m = Some a ->
  focusHistory (restoreFocus canFocus (manageFocus canFocus (Some e) o m)) = focusHistory m
  /\ activeElement (restoreFocus canFocus (manageFocus canFocus (Some e) o m))
     = Some (if canFocus a then a else if canFocus e then e else a)
  /\ escapeListeners (restoreFocus canFocus (manageFocus canFocus (Some e) o m))
     = if restoreOnEscape o then escapeListeners m ++ [e] else escapeListeners m.
Proof.
  intros Hs Ha. unfold restoreFocus, manageFocus, focus. rewrite Hs, Ha.
  destruct (canFocus e); cbn; rewrite last_snoc; cbn;
    rewrite length_app; cbn; rewrite Nat.add_sub, take_app_length;
    by destruct (canFocus a).
Qed.

Lemma restoreFocus_pops (m : Manager) :
  focusHistory (restoreFocus canFocus m)
  = take (length (focusHistory m) - 1) (focusHistory m).
Proof.
  unfold restoreFocus. destruct (last (focusHistory m)) as [[p|]|] eqn:E.
  - unfold focus. by destruct (canFocus p).
  - done.
  - apply last_None in E. by rewrite E.
Qed.

Lemma iter_restore_pops (n : nat) (m : Manager) :
  focusHistory (Nat.iter n (restoreFocus canFocus) m)
  = take (length (focusHistory m) - n) (focusHistory m).
Proof.
  induction n as [|n IH].
  - cbn. by rewrite Nat.sub_0_r, firstn_all.
  - rewrite Nat.iter_succ, restoreFocus_pops, IH, take_take, length_take.
    f_equal. lia.
Qed.

(** [restoreFocus] looks at the history and at the focus only. *)
Lemma restoreFocus_ext (a b : Manager) :
  focusHistory a = focusHistory b -> activeElement a = activeElement b ->
  focusHistory (restoreFocus canFocus a) = focusHistory (restoreFocus canFocus b)
  /\ activeElement (restoreFocus canFocus a) = activeElement (restoreFocus canFocus b).
Proof.
  intros H1 H2. unfold restoreFocus, focus. rewrite H1.
  destruct (last (focusHistory b)) as [[p|]|]; [destruct (canFocus p)| |]; cbn; by rewrite ?H1, ?H2.
Qed.

Lemma unwinds (o : FocusOptions) (es : list Element) :
  savePrevious o = true ->
  forall (m : Manager) (a : Element),
    activeElement m = Some a ->
    let m' := Nat.iter (length es) (restoreFocus canFocus)
                (foldl (fun x e => manageFocus canFocus (Some e) o x) m es) in
    activeElement m' = Some (resting canFocus a es) /\ focusHistory m' = focusHistory m.
Proof.
  intros Hs. induction es as [|e es IH]; intros m a Ha.
  { cbn. unfold resting. cbn. rewrite Ha. by destruct (canFocus a). }
  cbn [length foldl]. rewrite Nat.iter_succ. cbv zeta.
  set (m1 := manageFocus canFocus (Some e) o m).
  assert (activeElement m1 = Some (if canFocus e then e else a)
          /\ focusHistory m1 = focusHistory m ++ [Some a]) as (Ha1 & Hh1).
  { unfold m1, manageFocus, focus. rewrite Hs, Ha. by destruct (canFocus e). }
  destruct (IH m1 _ Ha1) as (Hact & Hhist). cbv zeta in Hact, Hhist.
  set (mk := Nat.iter (length es) (restoreFocus canFocus)
               (foldl (fun x e0 => manageFocus canFocus (Some e0) o x) m1 es)) in *.
  unfold restoreFocus. rewrite Hhist, Hh1, last_snoc.
  rewrite length_app. cbn [length]. rewrite Nat.add_sub, take_app_length.
  unfold focus, resting. cbn [filter]. rewrite filter_cons.
  destruct (canFocus a) eqn:Ea; cbn [activeElement focusHistory]; [done|].
  split; [|done]. rewrite Hact. unfold resting.
  destruct (canFocus e) eqn:Ee.
  - rewrite Ee, decide_True by done. done.
  - rewrite Ea, decide_False by done. done.
Qed.

(** X9: [restoreFocus] undoes [manageFocus] last in, first out, as far as
    [focus()] lets it: after the focus of any number of elements has been
    managed (with the previous focus saved), as many calls of
    [restoreFocus] leave the history as it was; the focus is back on the
    element that had it at the start if that element can take the focus.
    If it cannot (the body, when nothing had the focus), the focus stays
    on the first managed element that could take it. *)
Theorem restoreFocus_unwinds (es : list Element) (o : FocusOptions) (m : Manager)
    (p : Element) :
  savePrevious o = true -> activeElement m = Some p ->
  let m' := Nat.iter (length es) (restoreFocus canFocus)
              (foldl (fun x e => manageFocus canFocus (Some e) o x) m es) in
  focusHistory m' = focusHistory m
  /\ activeElement m' = Some (resting canFocus p es)
  /\ (canFocus p = true -> activeElement m' = Some p)
  /\ (canFocus p = false ->
      forall e es', es = e :: es' -> canFocus e = true -> activeElement m' = Some e).
Proof.
  intros Hs Hp m'. destruct (unwinds o es Hs m p Hp) as (Ha & Hh). fold m' in Ha, Hh.
  split; [done|]. split; [done|]. rewrite Ha. unfold resting. split.
  - by intros ->.
  - intros -> e es' -> He. rewrite filter_cons, decide_True by done. done.
Qed.

End Document.

Lemma restoreFocus_unwinds_witness :
  savePrevious defaults = true /\ activeElement unfocused = Some 0%nat
  /\ focusHistory (Nat.iter 2 (restoreFocus flat_canFocus)
                     (manageFocus flat_canFocus (Some 2%nat) defaults
                        (manageFocus flat_canFocus (Some 1%nat) defaults unfocused))) = []
  /\ activeElement (Nat.iter 2 (restoreFocus flat_canFocus)
                      (manageFocus flat_canFocus (Some 2%nat) defaults
                         (manageFocus flat_canFocus (Some 1%nat) defaults unfocused)))
     = Some 1%nat.
Proof.
  split; [reflexivity|]. split; [reflexivity|].
  pose proof (restoreFocus_unwinds flat_canFocus [1%nat; 2%nat] defaults unfocused 0%nat
                eq_refl eq_refl) as (Hh & Ha & _).
  split; [exact Hh | exact Ha].
Defined.

Section Bubbling.
Variable canFocus : Element -> bool.
Variable ancestor : Element -> Element -> bool.

Lemma filter_hears_none (t : Element) (l : list Element) :
  (forall x, x ∈ l -> hears ancestor t x = false) ->
  filter (fun x => hears ancestor t x = true) l = []
  /\ filter (fun x => hears ancestor t x <> true) l = l.
Proof.
  induction l as [|y l IH]; [done|]. intros H.
  destruct IH as (H1 & H2). { intros x Hx. apply H. by right. }
  rewrite !filter_cons, H1, H2.
  assert (hears ancestor t y = false) as Hy by (apply H; by left).
  rewrite decide_False, decide_True by (by rewrite Hy). done.
Qed.

Lemma filter_hears_deaf (t : Element) (l : list Element) :
  forall x, x ∈ filter (fun x => hears ancestor t x <> true) l -> hears ancestor t x = false.
Proof. intros x [H _]%list_elem_of_filter. by destruct (hears ancestor t x). Qed.

(** X10: an Escape restores the focus once per [handleEscape] listener
    on the way from the target up, also those of managed ancestors, and
    removes these listeners, so that pressed again it changes nothing.
    Right after [manageFocus(e)] with the default options, when no
    listener was on the way yet, an Escape on [e] or inside it leaves the
    manager as it was before [manageFocus] if the element that had the
    focus can take it back; if it cannot, history and listeners are as
    before but the focus is where [e.focus()] put it. *)
Theorem pressEscape_once (e p t : Element) (m : Manager) :
  activeElement m = Some p ->
  hears ancestor t e = true ->
  (forall x, x ∈ escapeListeners m -> hears ancestor t x = false) ->
  pressEscape canFocus ancestor t (manageFocus canFocus (Some e) defaults m)
  = (if canFocus p then m else focus canFocus e m)
  /\ (forall t' m',
         pressEscape canFocus ancestor t' (pressEscape canFocus ancestor t' m')
         = pressEscape canFocus ancestor t' m')
  /\ (forall t' m',
         focusHistory (pressEscape canFocus ancestor t' m')
         = take (length (focusHistory m')
                 - length (filter (fun x => hears ancestor t' x = true)
                             (escapeListeners m')))
             (focusHistory m')).
Proof.
  intros Hp He Hm. split; [|split].
  - destruct (filter_hears_none t _ Hm) as (H1 & H2).
    destruct (restoreFocus_manageFocus canFocus e p defaults m eq_refl Hp)
      as (Hh & Ha & Hl).
    unfold pressEscape.
    assert (escapeListeners (manageFocus canFocus (Some e) defaults m)
            = escapeListeners m ++ [e]) as ->.
    { unfold manageFocus, focus. cbn. by destruct (canFocus e). }
    rewrite !filter_app, H1, H2, !filter_cons, !filter_nil.
    rewrite decide_True by exact He.
    rewrite decide_False by (intros H; by apply H).
    cbn [length app]. rewrite app_nil_r.
    change (Nat.iter 1 ?f ?x) with (f x).
    rewrite Hh, Ha. unfold focus. destruct m as [h a l]. cbn in *. subst a.
    by destruct (canFocus p), (canFocus e).
  - intros t' m'. unfold pressEscape at 1.
    cbn [escapeListeners pressEscape].
    change (escapeListeners (pressEscape canFocus ancestor t' m'))
      with (filter (fun x => hears ancestor t' x <> true) (escapeListeners m')).
    destruct (filter_hears_none t' _ (filter_hears_deaf t' (escapeListeners m')))
      as (-> & ->).
    cbn [length Nat.iter]. done.
  - intros t' m'. unfold pressEscape. cbn [focusHistory]. apply iter_restore_pops.
Qed.

End Bubbling.

Lemma pressEscape_once_witness :
  activeElement idle = Some 7%nat
  /\ hears flat_ancestor 3%nat 3%nat = true
  /\ (forall x, x ∈ escapeListeners idle -> hears flat_ancestor 3%nat x = false)
  /\ pressEscape flat_canFocus flat_ancestor 3%nat
       (manageFocus flat_canFocus (Some 3%nat) defaults idle) = idle.
Proof.
  assert (forall x, x ∈ escapeListeners idle -> hears flat_ancestor 3%nat x = false) as H.
  { intros x Hx. by apply elem_of_nil in Hx. }
  split; [reflexivity|]. split; [reflexivity|]. split; [exact H|].
  exact (proj1 (pressEscape_once flat_canFocus flat_ancestor 3%nat 7%nat 3%nat idle
                  eq_refl eq_refl H)).
Defined.

(** With the body managed as well, one Escape on an element runs the
    listener of the element and the listener of the body: the history is
    popped twice. *)
Example escape_reaches_managed_ancestor :
  let m := manageFocus flat_canFocus (Some 3%nat) defaults
             (manageFocus flat_canFocus (Some 0%nat) defaults idle) in
  focusHistory m = [Some 7%nat; Some 7%nat]
  /\ escapeListeners m = [0%nat; 3%nat]
  /\ pressEscape flat_canFocus flat_ancestor 3%nat m = idle.
Proof. by repeat split. Qed.

Section Trap.
Variable forward backward : Element -> Element.

Lemma pressTab_stays (focusable : list Element) (shiftKey : bool) (a : Element) :
  (forall x, x ∈ focusable -> last focusable <> Some x -> forward x ∈ focusable) ->
  (forall x, x ∈ focusable -> head focusable <> Some x -> backward x ∈ focusable) ->
  a ∈ focusable ->
  exists b, pressTab forward backward focusable shiftKey (Some a) = Some b
            /\ b ∈ focusable.
Proof.
  intros Hf Hb Ha. unfold pressTab, trapFocus.
  destruct focusable as [|x l] eqn:E; [by apply elem_of_nil in Ha|]. rewrite <- E in *.
  unfold handleTabKey. rewrite decide_True by done.
  destruct (head focusable) as [fi|] eqn:Eh; [|by rewrite E in Eh].
  destruct (last focusable) as [la|] eqn:El.
  2:{ apply last_None in El. congruence. }
  destruct shiftKey.
  - case_decide as Hd; cbn.
    + exists la. split; [done|]. by apply last_Some_elem_of.
    + exists (backward a). split; [done|]. apply Hb; [done|]. congruence.
  - case_decide as Hd; cbn.
    + exists fi. split; [done|]. by apply head_Some_elem_of.
    + exists (forward a). split; [done|]. apply Hf; [done|]. congruence.
Qed.

(** X11: focus trapped in a container stays there.  If the browser's own
    Tab leads from every focusable element of the container but the last
    to a focusable element of the container, and Shift+Tab from every one
    but the first, then from a focusable element of the container any
    sequence of Tab and Shift+Tab presses ends on a focusable element of the
    container. *)
Theorem trapFocus_keeps_focus_inside (focusable : list Element) (shifts : list bool)
    (a : Element) :
  (forall x, x ∈ focusable -> last focusable <> Some x -> forward x ∈ focusable) ->
  (forall x, x ∈ focusable -> head focusable <> Some x -> backward x ∈ focusable) ->
  a ∈ focusable ->
  exists b, pressTabs forward backward focusable shifts (Some a) = Some b
            /\ b ∈ focusable.
Proof.
  intros Hf Hb. revert a. induction shifts as [|sh shifts IH]; intros a Ha.
  - by exists a.
  - destruct (pressTab_stays focusable sh a Hf Hb Ha) as (b & Hp & Hin).
    destruct (IH b Hin) as (c & Hc & Hcin). exists c. split; [|done].
    unfold pressTabs in *. cbn [foldl]. by rewrite Hp.
Qed.

End Trap.

Lemma trapFocus_keeps_focus_inside_witness :
  (forall x, x ∈ [1%nat; 2%nat] -> last [1%nat; 2%nat] <> Some x -> S x ∈ [1%nat; 2%nat])
  /\ (forall x, x ∈ [1%nat; 2%nat] -> head [1%nat; 2%nat] <> Some x
                -> Nat.pred x ∈ [1%nat; 2%nat])
  /\ 2%nat ∈ [1%nat; 2%nat]
  /\ exists b, pressTabs S Nat.pred [1%nat; 2%nat] [false; false; true] (Some 2%nat) = Some b
               /\ b ∈ [1%nat; 2%nat].
Proof.
  assert (forall x, x ∈ [1%nat; 2%nat] -> last [1%nat; 2%nat] <> Some x
                    -> S x ∈ [1%nat; 2%nat]) as Hf.
  { intros x [->|[->|H]%elem_of_cons]%elem_of_cons Hl.
    - apply elem_of_cons. right. apply elem_of_cons. by left.
    - by destruct Hl.
    - by apply elem_of_nil in H. }
  assert (forall x, x ∈ [1%nat; 2%nat] -> head [1%nat; 2%nat] <> Some x
                    -> Nat.pred x ∈ [1%nat; 2%nat]) as Hb.
  { intros x [->|[->|H]%elem_of_cons]%elem_of_cons Hl.
    - by destruct Hl.
    - apply elem_of_cons. by left.
    - by apply elem_of_nil in H. }
  assert (2%nat ∈ [1%nat; 2%nat]) as Ha.
  { apply elem_of_cons. right. apply elem_of_cons. by left. }
  split; [exact Hf|]. split; [exact Hb|]. split; [exact Ha|].
  exact (trapFocus_keeps_focus_inside S Nat.pred [1%nat; 2%nat] [false; false; true]
           2%nat Hf Hb Ha).
Defined.

End FocusManagerFacts.

(** * Further facts about the carousel *)

(** * Further facts about the carousel *)

Module CarouselPlayerFacts.
Import A11y JSFacts CarouselFacts CarouselPlayer.
Import Carousel.

(** The whole effect of a move to another slide in range. *)
Lemma goToSlide_effect (s : World) (i j : Z) :
  well_formed s i -> 0 <= j < Z.of_nat (length (slides (car s))) -> j <> i ->
  goToSlide (JS.Num j) s
  = JS.Returns
      {| win := if announceSlides (Carousel.options (car s)) && has_a11y (win s)
                then announce ("Slide " +:+ JS.show (j + 1) +:+ " of "
                                 +:+ JS.show (Z.of_nat (length (slides (car s)))))
                              "polite" (win s)
                else win s;
         car := {| Carousel.options := Carousel.options (car s);
                   currentSlide := JS.Num j;
                   slides := alter show (Z.to_nat j) (alter hide (Z.to_nat i) (slides (car s)));
                   dots := match dots (car s) with
                           | [] => []
                           | _ :: _ => alter select (Z.to_nat j)
                                         (alter deselect (Z.to_nat i) (dots (car s)))
                           end |} |}.
Proof.
  intros (Hc & Hi & Hd) Hj Hne. unfold goToSlide. rewrite Hc.
  cbn [JS.lt JS.ge JS.length_of JS.strict_eq].
  rewrite (proj2 (Z.ltb_ge j 0)), (proj2 (Z.leb_gt _ j)), (proj2 (Z.eqb_neq j i)) by lia.
  cbn [orb JS.bind].
  rewrite on_slide_valid by done. cbn [JS.bind].
  rewrite on_slide_valid by (cbn; by rewrite length_alter). cbn [JS.bind].
  unfold update_dots. cbn [car dots currentSlide slides win Carousel.options set_current].
  destruct (dots (car s)) as [|d ds] eqn:Ed.
  - unfold announce_slide, slide_message.
    change (0 <? Z.of_nat (length (@nil Dot))) with false. cbv iota. cbn [JS.bind].
    cbn [car win Carousel.options currentSlide slides JS.add show_number].
    rewrite !length_alter. by destruct (_ && _).
  - rewrite <- Ed in *. destruct Hd as [Hd|Hd]; [by rewrite Ed in Hd|].
    rewrite (proj2 (Z.ltb_lt 0 _)) by (rewrite Ed; cbn; lia).
    rewrite on_dot_valid by (cbn; by rewrite Hd). cbn [JS.bind].
    rewrite on_dot_valid by (cbn; by rewrite length_alter, Hd). cbn [JS.bind].
    unfold announce_slide, slide_message.
    cbn [car win Carousel.options currentSlide slides dots JS.add show_number].
    rewrite !length_alter. by destruct (_ && _).
Qed.


Lemma canonical_current (s : World) (i : Z) (z : Z) :
  well_formed s i -> canonical s i -> 0 <= z < Z.of_nat (length (slides (car s))) ->
  exists s', goToSlide (JS.Num z) s = JS.Returns s'
             /\ well_formed s' z /\ canonical s' z
             /\ Carousel.options (car s') = Carousel.options (car s).
Proof.
  intros Hwf (Hs & Hd) Hz. destruct (decide (z = i)) as [->|Hne].
  { exists s. split; [apply goToSlide_current, Hwf|done]. }
  destruct (goToSlide_valid s i z Hwf Hz) as (s' & Hr & Hwf' & _).
  rewrite (goToSlide_effect s i z Hwf Hz Hne) in Hr. injection Hr as <-.
  eexists. split; [by apply (goToSlide_effect s i z)|]. split; [done|]. split; [|done].
  destruct Hwf as (_ & Hi & _). split.
  - intros k x. cbn [car slides].
    destruct (decide (k = Z.to_nat z)) as [->|Hkz].
    + rewrite list_lookup_alter, decide_True by done.
      intros [y [_ ->]]%fmap_Some. cbn.
      rewrite bool_decide_eq_false_2, decide_True by lia. done.
    + rewrite list_lookup_alter_ne by done.
      destruct (decide (k = Z.to_nat i)) as [->|Hki].
      * rewrite list_lookup_alter, decide_True by done.
        intros [y [_ ->]]%fmap_Some. cbn.
        rewrite bool_decide_eq_true_2, decide_False by lia. done.
      * rewrite list_lookup_alter_ne by done. intros Hk.
        destruct (Hs k x Hk) as (-> & ->).
        rewrite !bool_decide_eq_true_2, !decide_False by lia. done.
  - intros k d. cbn [car dots]. destruct (dots (car s)) as [|d0 ds] eqn:Ed;
      [by rewrite lookup_nil|]. rewrite <- Ed in *.
    destruct (decide (k = Z.to_nat z)) as [->|Hkz].
    + rewrite list_lookup_alter, decide_True by done.
      intros [y [_ ->]]%fmap_Some. rewrite decide_True by lia. done.
    + rewrite list_lookup_alter_ne by done.
      destruct (decide (k = Z.to_nat i)) as [->|Hki].
      * rewrite list_lookup_alter, decide_True by done.
        intros [y [_ ->]]%fmap_Some. rewrite decide_False by lia. done.
      * rewrite list_lookup_alter_ne by done. intros Hk.
        rewrite (Hd k d Hk) at 1. rewrite !decide_False by lia. done.
Qed.

Lemma apply_canonical (o : Op) (s : World) (i : Z) :
  well_formed s i -> canonical s i ->
  exists s' j, apply o s = JS.Returns s' /\ well_formed s' j /\ canonical s' j
               /\ Carousel.options (car s') = Carousel.options (car s).
Proof.
  intros Hwf Hc. pose proof Hwf as (Hcur & Hi & _).
  destruct o as [z| |]; cbn [apply].
  - destruct (decide (0 <= z < Z.of_nat (length (slides (car s))))) as [Hz|Hz].
    + destruct (canonical_current s i z Hwf Hc Hz) as (s' & ? & ? & ? & ?).
      by exists s', z.
    + exists s, i. split; [|done]. apply goToSlide_out_of_range. lia.
  - unfold nextSlide, JS.length_of. rewrite Hcur. cbn [JS.add].
    rewrite rem_nonneg by lia.
    destruct (canonical_current s i ((i + 1) mod Z.of_nat (length (slides (car s)))) Hwf Hc)
      as (s' & ? & ? & ? & ?); [apply Z.mod_pos_bound; lia|].
    exists s'. by eexists.
  - unfold previousSlide, JS.length_of. rewrite Hcur. cbn [JS.add JS.sub].
    rewrite rem_nonneg by lia.
    destruct (canonical_current s i
                ((i - 1 + Z.of_nat (length (slides (car s))))
                   mod Z.of_nat (length (slides (car s)))) Hwf Hc)
      as (s' & ? & ? & ? & ?); [apply Z.mod_pos_bound; lia|].
    exists s'. by eexists.
Qed.

Lemma run_canonical (os : list Op) (s : World) (i : Z) :
  well_formed s i -> canonical s i ->
  exists s' j, run os s = JS.Returns s' /\ well_formed s' j /\ canonical s' j.
Proof.
  revert s i. induction os as [|o os IH]; intros s i Hwf Hc.
  - by exists s, i.
  - destruct (apply_canonical o s i Hwf Hc) as (s1 & j & Ha & Hwf1 & Hc1 & _).
    destruct (IH s1 j Hwf1 Hc1) as (s' & j' & Hrun & ? & ?).
    exists s', j'. split; [|done].
    unfold run in *. cbn [foldl JS.bind]. by rewrite Ha.
Qed.

Lemma construct_canonical (opts : Carousel.Options) (x : Slide) (markup : list Slide)
    (w : Window) :
  hidden x = false -> canonical (Carousel.construct opts (x :: markup) w) 0.
Proof.
  intros Hx. split.
  - intros k y. cbn [Carousel.construct car slides]. unfold setupStructure.
    rewrite list_lookup_imap. intros [y' [Hy ->]]%fmap_Some. cbn.
    destruct (decide (k = 0%nat)) as [->|Hk].
    + cbn in Hy. injection Hy as <-. rewrite Hx.
      rewrite bool_decide_eq_false_2, decide_True by lia. done.
    + rewrite bool_decide_eq_true_2, decide_False by lia. done.
  - intros k d. cbn [Carousel.construct car dots]. unfold make_dots.
    destruct (_ && _); [|by rewrite lookup_nil].
    rewrite list_lookup_fmap. intros [k' [Hk ->]]%fmap_Some.
    apply lookup_seq in Hk as [-> _]. cbn.
    destruct (decide (k = 0%nat)) as [->|Hk0];
      [rewrite decide_True by lia | rewrite decide_False by lia]; done.
Qed.

(** X12: when the first slide is not hidden in the markup, a carousel
    shows exactly one slide at any time, the current one, and its dots,
    when it has any, mark exactly that slide as selected. *)
Theorem one_slide_shown (opts : Carousel.Options) (x : Slide) (markup : list Slide)
    (w : Window) (os : list Op) :
  hidden x = false ->
  exists s i,
    run os (Carousel.construct opts (x :: markup) w) = JS.Returns s
    /\ currentSlide (car s) = JS.Num (Z.of_nat i)
    /\ JS.positions (fun y => negb (hidden y)) (slides (car s)) = [i]
    /\ (dots (car s) = []
        \/ JS.positions (fun d => bool_decide (aria_selected d = "true")) (dots (car s)) = [i]
           /\ JS.positions blue (dots (car s)) = [i]).
Proof.
  intros Hx.
  destruct (CarouselFacts.carousel_construct_valid opts (x :: markup) w) as (Hwf & _);
    [done|].
  destruct (run_canonical os _ 0 Hwf (construct_canonical opts x markup w Hx))
    as (s & j & Hrun & (Hcur & Hj & Hdots) & (Hs & Hd)).
  exists s, (Z.to_nat j). split; [done|]. split; [rewrite Hcur; f_equal; lia|].
  split.
  - unfold JS.positions. rewrite (positions_from_unique _ _ 0 (Z.to_nat j)); [done|lia|].
    intros k y Hk. destruct (Hs k y Hk) as (-> & _).
    rewrite negb_true_iff, bool_decide_eq_false. lia.
  - destruct Hdots as [Hn|Hlen]; [by left|right].
    assert (forall k d, dots (car s) !! k = Some d ->
                        (aria_selected d = "true" <-> k = Z.to_nat j)
                        /\ (blue d = true <-> k = Z.to_nat j)) as Hdd.
    { intros k d Hk. rewrite (Hd k d Hk).
      destruct (decide (Z.of_nat k = j)); cbn; (split; split; try done; lia). }
    unfold JS.positions. split.
    + rewrite (positions_from_unique _ _ 0 (Z.to_nat j)); [done|lia|].
      intros k d Hk. rewrite bool_decide_eq_true. by apply Hdd.
    + rewrite (positions_from_unique _ _ 0 (Z.to_nat j)); [done|lia|].
      intros k d Hk. by apply Hdd.
Qed.

Lemma one_slide_shown_witness :
  hidden plain_slide = false
  /\ exists s i,
       run [Next; Next; Previous]
         (Carousel.construct Carousel.defaults [plain_slide; plain_slide; plain_slide]
            fresh_window) = JS.Returns s
       /\ currentSlide (car s) = JS.Num (Z.of_nat i)
       /\ JS.positions (fun y => negb (hidden y)) (slides (car s)) = [i]
       /\ (dots (car s) = []
           \/ JS.positions (fun d => bool_decide (aria_selected d = "true")) (dots (car s))
              = [i]
              /\ JS.positions blue (dots (car s)) = [i]).
Proof.
  split; [reflexivity|].
  exact (one_slide_shown Carousel.defaults plain_slide [plain_slide; plain_slide]
           fresh_window [Next; Next; Previous] eq_refl).
Defined.

(** X13: a move to another slide is announced, politely, as "Slide k of
    n" with [k] counted from one, when the carousel announces its slides
    and an announcer is loaded; otherwise the page is left as it is. *)
Theorem slide_change_is_announced (s : World) (i j : Z) :
  well_formed s i -> 0 <= j < Z.of_nat (length (slides (car s))) -> j <> i ->
  exists s',
    goToSlide (JS.Num j) s = JS.Returns s'
    /\ currentSlide (car s') = JS.Num j
    /\ if announceSlides (Carousel.options (car s)) && has_a11y (win s)
       then channel (win s')
            = Some ("polite", "Slide " +:+ JS.show (j + 1) +:+ " of "
                                +:+ JS.show (Z.of_nat (length (slides (car s)))))
       else win s' = win s.
Proof.
  intros Hwf Hj Hne. eexists. split; [by apply (goToSlide_effect s i j)|].
  split; [done|]. cbn [win]. destruct (announceSlides _); [|done]. cbn [andb].
  unfold has_a11y, announce, channel. by destruct (a11y (win s)).
Qed.

Lemma slide_change_is_announced_witness :
  well_formed four_slides 0 /\ 0 <= 2 < Z.of_nat (length (slides (car four_slides)))
  /\ 2 <> 0
  /\ exists s', goToSlide (JS.Num 2) four_slides = JS.Returns s'
                /\ currentSlide (car s') = JS.Num 2
                /\ channel (win s') = Some ("polite", "Slide 3 of 4").
Proof.
  assert (well_formed four_slides 0) as Hwf.
  { split; [reflexivity|]. split; [change (0 <= 0 < 4); lia|right; reflexivity]. }
  assert (0 <= 2 < Z.of_nat (length (slides (car four_slides)))) as Hj
    by (change (0 <= 2 < 4); lia).
  split; [exact Hwf|]. split; [exact Hj|]. split; [lia|].
  exact (slide_change_is_announced four_slides 0 2 Hwf Hj ltac:(lia)).
Defined.


Lemma labels_alter (f : Slide -> Slide) (k : nat) (l : list Slide) :
  (forall x, aria_label (f x) = aria_label x) ->
  aria_label <$> alter f k l = aria_label <$> l.
Proof.
  intros Hf. rewrite (list_fmap_alter aria_label f id); [|by apply Forall_true].
  by apply list_alter_id.
Qed.

(** What a move in range leaves alone: the options, the labels of the
    slides and the number of dots. *)
Lemma goToSlide_frame (s : World) (i z : Z) :
  well_formed s i -> 0 <= z < Z.of_nat (length (slides (car s))) ->
  exists s', goToSlide (JS.Num z) s = JS.Returns s'
             /\ aria_label <$> slides (car s') = aria_label <$> slides (car s)
             /\ length (dots (car s')) = length (dots (car s)).
Proof.
  intros Hwf Hz. destruct (decide (z = i)) as [->|Hne].
  { exists s. split; [apply goToSlide_current, Hwf|done]. }
  eexists. split; [by apply (goToSlide_effect s i z)|]. cbn [car slides dots].
  split; [by rewrite !labels_alter|].
  destruct (dots (car s)) eqn:Ed; [done|]. by rewrite !length_alter.
Qed.

(** A carousel in canonical form is determined by its options, its
    current slide, the labels of its slides and the number of its dots. *)
Lemma canonical_eq (a b : World) (i : Z) :
  canonical a i -> canonical b i ->
  Carousel.options (car a) = Carousel.options (car b) ->
  currentSlide (car a) = currentSlide (car b) ->
  aria_label <$> slides (car a) = aria_label <$> slides (car b) ->
  length (dots (car a)) = length (dots (car b)) ->
  car a = car b.
Proof.
  intros (Hsa & Hda) (Hsb & Hdb) Ho Hc Hlab Hld.
  assert (slides (car a) = slides (car b)) as Hs.
  { apply list_eq_same_length with (length (slides (car b))); [done| |].
    { apply (f_equal length) in Hlab. by rewrite !length_fmap in Hlab. }
    intros k x y _ Hx Hy. destruct (Hsa k x Hx) as (H1 & H2).
    destruct (Hsb k y Hy) as (H3 & H4).
    assert (aria_label x = aria_label y) as H5.
    { apply (f_equal (fun l => l !! k)) in Hlab.
      rewrite !list_lookup_fmap, Hx, Hy in Hlab. by injection Hlab. }
    destruct x, y. cbn in *. congruence. }
  assert (dots (car a) = dots (car b)) as Hd.
  { apply list_eq_same_length with (length (dots (car b))); [done..|].
    intros k x y _ Hx Hy. rewrite (Hda k x Hx), (Hdb k y Hy). by case_decide. }
  destruct (car a), (car b). cbn in *. congruence.
Qed.

(** X14: [previousSlide] undoes [nextSlide]: on a carousel in canonical
    form, going to the next slide and back leaves slides, dots and current
    slide exactly as they were. *)
Theorem previous_undoes_next (s : World) (i : Z) :
  well_formed s i -> canonical s i ->
  exists s1 s2,
    nextSlide s = JS.Returns s1 /\ previousSlide s1 = JS.Returns s2 /\ car s2 = car s.
Proof.
  intros Hwf Hc. pose proof Hwf as (Hcur & Hi & _).
  set (n := Z.of_nat (length (slides (car s)))) in *.
  assert (0 <= (i + 1) mod n < n) as Hj by (apply Z.mod_pos_bound; lia).
  assert (nextSlide s = goToSlide (JS.Num ((i + 1) mod n)) s) as Hnext.
  { unfold nextSlide, JS.length_of. rewrite Hcur. cbn [JS.add]. by rewrite rem_nonneg by lia. }
  destruct (canonical_current s i _ Hwf Hc Hj) as (s1 & Hr1 & Hwf1 & Hc1 & Ho1).
  destruct (goToSlide_frame s i _ Hwf Hj) as (s1' & Hr1' & Hlab1 & Hd1).
  rewrite Hr1 in Hr1'. injection Hr1' as <-.
  assert (length (slides (car s1)) = length (slides (car s))) as Hlen1.
  { apply (f_equal length) in Hlab1. by rewrite !length_fmap in Hlab1. }
  assert (((i + 1) mod n - 1 + n) mod n = i) as Hback.
  { destruct (decide (i + 1 < n)).
    - rewrite (Z.mod_small (i + 1)) by lia.
      replace (i + 1 - 1 + n) with (i + 1 * n) by lia.
      rewrite Z.mod_add by lia. apply Z.mod_small. lia.
    - assert ((i + 1) mod n = 0) as ->
        by (replace (i + 1) with n by lia; apply Z_mod_same_full).
      rewrite Z.mod_small by lia. lia. }
  assert (previousSlide s1 = goToSlide (JS.Num i) s1) as Hprev.
  { unfold previousSlide, JS.length_of. destruct Hwf1 as (-> & _).
    cbn [JS.add JS.sub]. rewrite Hlen1. fold n. rewrite rem_nonneg by lia.
    by rewrite Hback. }
  assert (0 <= i < Z.of_nat (length (slides (car s1)))) as Hi1 by (rewrite Hlen1; done).
  destruct (canonical_current s1 _ i Hwf1 Hc1 Hi1) as (s2 & Hr2 & Hwf2 & Hc2 & Ho2).
  destruct (goToSlide_frame s1 _ i Hwf1 Hi1) as (s2' & Hr2' & Hlab2 & Hd2).
  rewrite Hr2 in Hr2'. injection Hr2' as <-.
  exists s1, s2. split; [by rewrite Hnext|]. split; [by rewrite Hprev|].
  apply (canonical_eq s2 s i Hc2 Hc); [congruence| |congruence|congruence].
  destruct Hwf2 as (-> & _). by rewrite Hcur.
Qed.

Lemma previous_undoes_next_witness :
  well_formed four_slides 0 /\ canonical four_slides 0
  /\ exists s1 s2,
       nextSlide four_slides = JS.Returns s1 /\ previousSlide s1 = JS.Returns s2
       /\ car s2 = car four_slides.
Proof.
  assert (well_formed four_slides 0) as Hwf.
  { split; [reflexivity|]. split; [change (0 <= 0 < 4); lia|right; reflexivity]. }
  assert (canonical four_slides 0) as Hc by (by apply construct_canonical).
  split; [exact Hwf|]. split; [exact Hc|].
  exact (previous_undoes_next four_slides 0 Hwf Hc).
Defined.


(** Whether it returns or throws, no method of the carousel touches the
    options. *)
Lemma bind_options (c : JS.completion World) (g : World -> JS.completion World)
    (o : Carousel.Options) :
  Carousel.options (car (JS.state_of c)) = o ->
  (forall s, Carousel.options (car (JS.state_of (g s))) = Carousel.options (car s)) ->
  Carousel.options (car (JS.state_of (c >>> g))) = o.
Proof. intros Hc Hg. destruct c as [s|s]; cbn in *; [by rewrite Hg|done]. Qed.

Lemma goToSlide_options (idx : JS.number) (s : World) :
  Carousel.options (car (JS.state_of (goToSlide idx s))) = Carousel.options (car s).
Proof.
  assert (forall i f t, Carousel.options (car (JS.state_of (on_slide i f t)))
                        = Carousel.options (car t)) as Hslide.
  { intros i f t. unfold on_slide. by destruct (JS.index _ _). }
  assert (forall i f t, Carousel.options (car (JS.state_of (on_dot i f t)))
                        = Carousel.options (car t)) as Hdot.
  { intros i f t. unfold on_dot. by destruct (JS.index _ _). }
  assert (forall i t, Carousel.options (car (JS.state_of (update_dots i t)))
                      = Carousel.options (car t)) as Hdots.
  { intros i t. unfold update_dots. destruct (0 <? _); [|done].
    apply bind_options; [apply Hdot | intros u; apply Hdot]. }
  assert (forall t, Carousel.options (car (JS.state_of (announce_slide t)))
                    = Carousel.options (car t)) as Hann.
  { intros t. unfold announce_slide. by destruct (_ && _). }
  unfold goToSlide. destruct (_ || _); [done|].
  apply bind_options; [|apply Hann].
  apply bind_options; [|apply Hdots].
  apply bind_options; [|apply Hslide].
  apply bind_options; [done|apply Hslide].
Qed.

Lemma on_world_state (f : World -> JS.completion World) (p : Player) :
  world (JS.state_of (on_world f p)) = JS.state_of (f (world p))
  /\ isPlaying (JS.state_of (on_world f p)) = isPlaying p
  /\ playInterval (JS.state_of (on_world f p)) = playInterval p
  /\ intervals (JS.state_of (on_world f p)) = intervals p
  /\ playPauseBtn (JS.state_of (on_world f p)) = playPauseBtn p.
Proof. unfold on_world. by destruct (f (world p)). Qed.

(** What an event does to the play state: nothing, a [play()] or a
    [pause()]; the options stay. *)
Lemma handle_play_state (e : Event) (p : Player) :
  let q := JS.state_of (handle e p) in
  CarouselPlayer.options q = CarouselPlayer.options p
  /\ ((isPlaying q, playInterval q, intervals q, playPauseBtn q)
      = (isPlaying p, playInterval p, intervals p, playPauseBtn p)
      \/ (isPlaying q, playInterval q, intervals q, playPauseBtn q)
         = (isPlaying (play p), playInterval (play p), intervals (play p),
            playPauseBtn (play p))
      \/ (isPlaying q, playInterval q, intervals q, playPauseBtn q)
         = (isPlaying (pause p), playInterval (pause p), intervals (pause p),
            playPauseBtn (pause p))).
Proof.
  assert (forall f,
             (forall s, Carousel.options (car (JS.state_of (f s))) = Carousel.options (car s)) ->
             let q := JS.state_of (on_world f p) in
             CarouselPlayer.options q = CarouselPlayer.options p
             /\ ((isPlaying q, playInterval q, intervals q, playPauseBtn q)
                 = (isPlaying p, playInterval p, intervals p, playPauseBtn p)
                 \/ (isPlaying q, playInterval q, intervals q, playPauseBtn q)
                    = (isPlaying (play p), playInterval (play p), intervals (play p),
                       playPauseBtn (play p))
                 \/ (isPlaying q, playInterval q, intervals q, playPauseBtn q)
                    = (isPlaying (pause p), playInterval (pause p), intervals (pause p),
                       playPauseBtn (pause p)))) as Hw.
  { intros f Hf. cbv zeta. destruct (on_world_state f p) as (Hwd & -> & -> & -> & ->).
    split; [|by left]. unfold CarouselPlayer.options. by rewrite Hwd, Hf. }
  assert (forall s, Carousel.options (car (JS.state_of (nextSlide s)))
                    = Carousel.options (car s)) as Hn
    by (intros s; apply goToSlide_options).
  assert (forall s, Carousel.options (car (JS.state_of (previousSlide s)))
                    = Carousel.options (car s)) as Hp
    by (intros s; apply goToSlide_options).
  assert (CarouselPlayer.options (play p) = CarouselPlayer.options p) as Hplay.
  { unfold play. by destruct (_ || _). }
  cbv zeta in *.
  destruct e as [| | |i|key dot| | | | |]; cbn [handle].
  - clear Hw. destruct (playPauseBtn p) eqn:Eb; cbn [JS.state_of];
      [|split; [done|left; by rewrite Eb]].
    unfold togglePlayPause. destruct (isPlaying p).
    + split; [reflexivity | right; right; reflexivity].
    + split; [exact Hplay | right; left; reflexivity].
  - destruct (showArrows _); [by apply Hw | cbn [JS.state_of]; split; [done|by left]].
  - destruct (showArrows _); [by apply Hw | cbn [JS.state_of]; split; [done|by left]].
  - unfold clickDot.
    destruct (_ !! i); [apply Hw; intros s; apply goToSlide_options
                       | cbn [JS.state_of]; split; [done|by left]].
  - unfold keydown. repeat case_decide; try (by apply Hw);
      try (apply Hw; intros s; apply goToSlide_options);
      try (cbn [JS.state_of]; split; [done|by left]).
    destruct dot as [d|]; [|cbn [JS.state_of]; split; [done|by left]].
    unfold clickDot.
    destruct (_ !! d); [apply Hw; intros s; apply goToSlide_options
                       | cbn [JS.state_of]; split; [done|by left]].
  - destruct (pauseOnHover _); cbn [JS.state_of];
      [split; [reflexivity | right; right; reflexivity] | split; [done|by left]].
  - destruct (_ && _); cbn [JS.state_of];
      [split; [exact Hplay | right; left; reflexivity] | split; [done|by left]].
  - destruct (pauseOnFocus _); cbn [JS.state_of];
      [split; [reflexivity | right; right; reflexivity] | split; [done|by left]].
  - destruct (_ && _); cbn [JS.state_of];
      [split; [exact Hplay | right; left; reflexivity] | split; [done|by left]].
  - destruct (intervals p) eqn:En;
      [cbn [JS.state_of]; split; [done|left; by rewrite En] | by apply Hw].
Qed.

Lemma player_run_snoc (es : list Event) (e : Event) (p : Player) :
  CarouselPlayer.run (es ++ [e]) p = JS.state_of (handle e (CarouselPlayer.run es p)).
Proof. unfold CarouselPlayer.run. by rewrite foldl_app. Qed.

(** X15: a carousel that was not asked to autoplay, or whose user asks
    for reduced motion, never plays: whatever the events, also clicks on
    a play button made before reduced motion was taken into account,
    [isPlaying] stays false and no interval is set. *)
Theorem autoplay_stays_off (opts : Carousel.Options) (markup : list Slide) (w : Window)
    (es : list Event) :
  autoPlay opts = false \/ shouldReduceMotion <$> a11y w = Some true ->
  let p := CarouselPlayer.run es (CarouselPlayer.construct opts markup w) in
  isPlaying p = false /\ playInterval p = false /\ intervals p = 0%nat.
Proof.
  intros H.
  assert (let p := CarouselPlayer.run es (CarouselPlayer.construct opts markup w) in
          autoPlay (CarouselPlayer.options p) = false
          /\ isPlaying p = false /\ playInterval p = false /\ intervals p = 0%nat) as Hinv;
    [|by destruct Hinv as (_ & ?)].
  induction es as [|e es IH] using rev_ind.
  - cbn. repeat split. unfold effective_options.
    destruct H as [H|H]; destruct (a11y w) as [am|]; cbn in *; try done.
    + by destruct (shouldReduceMotion am).
    + injection H as ->. done.
  - cbv zeta in *. rewrite player_run_snoc.
    set (p := CarouselPlayer.run es (CarouselPlayer.construct opts markup w)) in *.
    destruct IH as (Ha & Hi & Hpi & Hn).
    destruct (handle_play_state e p) as (Ho & Hs). cbv zeta in Ho, Hs.
    rewrite Ho. split; [done|].
    assert (play p = p) as Hplay by (unfold play; by rewrite Ha).
    destruct Hs as [Hs|[Hs|Hs]]; injection Hs as -> -> -> _.
    + done.
    + by rewrite Hplay.
    + unfold pause. cbn. by rewrite Hpi.
Qed.

Lemma autoplay_stays_off_witness :
  (autoPlay autoplaying = false \/ shouldReduceMotion <$> a11y calm_window = Some true)
  /\ isPlaying (CarouselPlayer.run [ClickPlayPause; MouseEnter; MouseLeave; FocusOut]
                  (CarouselPlayer.construct autoplaying [plain_slide; plain_slide]
                     calm_window)) = false.
Proof.
  split; [right; reflexivity|].
  exact (proj1 (autoplay_stays_off autoplaying [plain_slide; plain_slide] calm_window
                  [ClickPlayPause; MouseEnter; MouseLeave; FocusOut]
                  (or_intror eq_refl))).
Defined.

(** X16: the carousel never runs two intervals: exactly one interval is
    set while [isPlaying] is true and none otherwise, and the play/pause
    button, when there is one, is labelled "Pause carousel" while playing
    and "Play carousel" otherwise. *)
Theorem one_interval_at_most (opts : Carousel.Options) (markup : list Slide) (w : Window)
    (es : list Event) :
  let p := CarouselPlayer.run es (CarouselPlayer.construct opts markup w) in
  intervals p = (if isPlaying p then 1 else 0)%nat
  /\ playInterval p = isPlaying p
  /\ playPauseBtn p
     = if autoPlay opts
       then Some (if isPlaying p then "Pause carousel" else "Play carousel")
       else None.
Proof.
  induction es as [|e es IH] using rev_ind.
  - cbn. by destruct (autoPlay opts).
  - cbv zeta in *. rewrite player_run_snoc.
    set (p := CarouselPlayer.run es (CarouselPlayer.construct opts markup w)) in *.
    destruct IH as (Hn & Hpi & Hb).
    destruct (handle_play_state e p) as (_ & Hs). cbv zeta in Hs.
    destruct Hs as [Hs|[Hs|Hs]]; injection Hs as -> -> -> ->.
    + done.
    + unfold play. destruct (negb _ || isPlaying p) eqn:E; [done|].
      apply orb_false_elim in E as (_ & E). cbn. rewrite Hn, E, Hb.
      by destruct (autoPlay opts).
    + unfold pause. cbn. rewrite Hpi, Hn, Hb.
      by destruct (isPlaying p), (autoPlay opts).
Qed.

(** X17: the keyboard listener on a carousel with slides, with or
    without dots: Home shows the first slide and End the last; Space or
    Enter on a dot shows the slide of that dot, and elsewhere changes
    nothing; a key the listener does not name changes nothing; none of
    these throws. *)
Theorem keyboard_navigation (p : Player) (i : Z) (key : string) :
  well_formed (world p) i ->
  key ∉ ["ArrowLeft"; "ArrowRight"; "Home"; "End"; " "; "Enter"] ->
  let n := Z.of_nat (length (slides (car (world p)))) in
  (exists q, keydown "Home" None p = JS.Returns q
             /\ currentSlide (car (world q)) = JS.Num 0)
  /\ (exists q, keydown "End" None p = JS.Returns q
                /\ currentSlide (car (world q)) = JS.Num (n - 1))
  /\ (forall d : nat,
         (d < length (dots (car (world p))))%nat ->
         exists q, keydown "Enter" (Some d) p = JS.Returns q
                   /\ keydown " " (Some d) p = JS.Returns q
                   /\ currentSlide (car (world q)) = JS.Num (Z.of_nat d))
  /\ keydown "Enter" None p = JS.Returns p
  /\ keydown " " None p = JS.Returns p
  /\ keydown key None p = JS.Returns p.
Proof.
  intros Hwf Hkey n. pose proof Hwf as (_ & Hi & Hdots). fold n in Hi.
  assert (forall z, 0 <= z < n ->
            exists q, on_world (goToSlide (JS.Num z)) p = JS.Returns q
                      /\ currentSlide (car (world q)) = JS.Num z) as Hgo.
  { intros z Hz. destruct (goToSlide_valid (world p) i z Hwf Hz) as (s' & Hr & (Hc & _) & _).
    unfold on_world. rewrite Hr. by eexists. }
  split; [|split; [|split; [|split; [|split]]]].
  - unfold keydown. repeat (case_decide; try congruence). apply Hgo. lia.
  - unfold keydown. repeat (case_decide; try congruence).
    unfold last_index, JS.length_of. cbn [JS.sub]. apply Hgo. fold n. lia.
  - intros d Hd.
    assert (Z.of_nat d < n) as Hdn.
    { destruct Hdots as [E|E]; [rewrite E in Hd; cbn in Hd; lia|]. subst n. lia. }
    destruct (lookup_lt_is_Some_2 _ _ Hd) as [dot Edot].
    destruct (Hgo (Z.of_nat d)) as (q & Hq & Hc); [lia|].
    exists q. split; [|split; [|done]]; unfold keydown, clickDot; rewrite Edot;
      repeat (case_decide; try congruence); try done;
      match goal with H : ~ (_ \/ _) |- _ => exfalso; apply H; auto end.
  - unfold keydown. by repeat (case_decide; try congruence).
  - unfold keydown. by repeat (case_decide; try congruence).
  - unfold keydown. repeat case_decide; try done; exfalso; apply Hkey; subst;
      repeat (try (apply elem_of_cons; left; reflexivity); apply elem_of_cons; right).
    all: match goal with H : _ \/ _ |- _ => destruct H; subst end;
      repeat (try (apply elem_of_cons; left; reflexivity); apply elem_of_cons; right).
Qed.

Lemma keyboard_navigation_witness :
  well_formed (world (CarouselPlayer.construct Carousel.defaults [plain_slide] fresh_window)) 0
  /\ ("Tab" ∉ ["ArrowLeft"; "ArrowRight"; "Home"; "End"; " "; "Enter"])
  /\ dots (car (world (CarouselPlayer.construct Carousel.defaults [plain_slide]
                         fresh_window))) = []
  /\ exists q, keydown "End" None
                 (CarouselPlayer.construct Carousel.defaults [plain_slide] fresh_window)
               = JS.Returns q
               /\ currentSlide (car (world q)) = JS.Num 0.
Proof.
  assert (well_formed (world (CarouselPlayer.construct Carousel.defaults [plain_slide]
                                fresh_window)) 0) as Hwf.
  { split; [reflexivity|]. split; [change (0 <= 0 < 1); lia|left; reflexivity]. }
  assert ("Tab" ∉ ["ArrowLeft"; "ArrowRight"; "Home"; "End"; " "; "Enter"]) as Hk.
  { intros H. repeat (apply elem_of_cons in H as [H|H]; [discriminate|]).
    by apply elem_of_nil in H. }
  split; [exact Hwf|]. split; [exact Hk|]. split; [reflexivity|].
  exact (proj1 (proj2 (keyboard_navigation _ 0 "Tab" Hwf Hk))).
Defined.

(** On four slides with their dots, Enter on the third dot shows the
    third slide. *)
Example enter_on_a_dot :
  exists q, keydown "Enter" (Some 2%nat)
              (CarouselPlayer.construct Carousel.defaults
                 [plain_slide; plain_slide; plain_slide; plain_slide] fresh_window)
            = JS.Returns q
            /\ currentSlide (car (world q)) = JS.Num 2.
Proof. eexists. split; reflexivity. Qed.

End CarouselPlayerFacts.

(** * Further facts about the dropdown *)

Module DropdownEventFacts.
Import A11y JSFacts Dropdown DropdownFacts DropdownEvents.

Lemma bind_returns {S} (c : JS.completion S) (k : S -> JS.completion S) (s' : S) :
  c >>> k = JS.Returns s' -> exists s1, c = JS.Returns s1 /\ k s1 = JS.Returns s'.
Proof. destruct c as [s1|s1]; cbn; [eauto|discriminate]. Qed.

Lemma set_tabindex_frame (i : JS.number) (v : string) (s s' : World) :
  set_tabindex i v s = JS.Returns s' ->
  same_shell s s' /\ currentIndex (dd s') = currentIndex (dd s).
Proof.
  unfold set_tabindex. destruct (JS.index _ i); [|discriminate].
  intros [= <-]. by repeat split.
Qed.

Lemma focusItem_frame (idx : JS.number) (s s' : World) :
  focusItem idx s = JS.Returns s' -> same_shell s s'.
Proof.
  unfold focusItem.
  destruct (JS.lt idx (JS.Num 0) || JS.ge idx (JS.length_of (menuItems (dd s)))).
  { intros [= <-]. by repeat split. }
  intros H.
  apply bind_returns in H as (s3 & H & [= <-]).
  apply bind_returns in H as (s2 & H & H2).
  apply bind_returns in H as (s1 & H & [= <-]).
  apply set_tabindex_frame in H2 as [(?&?&?&?&?) _]. cbn in *.
  assert (same_shell s s1) as (?&?&?&?&?).
  { destruct (JS.ge (currentIndex (dd s)) (JS.Num 0)).
    - by apply set_tabindex_frame in H as [? _].
    - injection H as <-. by repeat split. }
  repeat split; cbn; congruence.
Qed.

Lemma focusItem_steady (n : nat) (s : World) (i j : Z) :
  agrees s -> length (menuItems (dd s)) = n -> well_formed s i ->
  0 <= j < Z.of_nat n ->
  exists s', focusItem (JS.Num j) s = JS.Returns s' /\ steady n s'
             /\ currentIndex (dd s') = JS.Num j
             /\ active (dd s') = Some (OnItem (Z.to_nat j))
             /\ isOpen (dd s') = isOpen (dd s).
Proof.
  intros (m & Hm & Hh & He) Hn Hwf Hj. subst n.
  destruct (focusItem_valid s i j Hwf Hj) as (s' & E & Hwf' & Hlen & Ha & _ & _).
  destruct (focusItem_frame _ _ _ E) as (_ & Em & Eo & Ee & _).
  exists s'. split; [done|]. split; [|by destruct Hwf' as [? _]].
  split; [|split; [done|]].
  - exists m. rewrite Em, Eo, Ee. done.
  - exists j. split; [done|]. lia.
Qed.

Lemma steady_focusItem (n : nat) (s : World) (j : Z) :
  steady n s -> 0 <= j < Z.of_nat n ->
  exists s', focusItem (JS.Num j) s = JS.Returns s' /\ steady n s'
             /\ currentIndex (dd s') = JS.Num j
             /\ active (dd s') = Some (OnItem (Z.to_nat j))
             /\ isOpen (dd s') = isOpen (dd s).
Proof. intros (Ha & Hn & i & Hwf & _). by apply (focusItem_steady n s i). Qed.

Lemma steady_range (n : nat) (s : World) :
  steady n s -> (1 <= n)%nat.
Proof. intros (_ & <- & i & (_ & _ & H) & _). done. Qed.

Lemma steady_focusFirstItem (n : nat) (s : World) :
  steady n s ->
  exists s', focusFirstItem s = JS.Returns s' /\ steady n s'
             /\ currentIndex (dd s') = JS.Num 0
             /\ active (dd s') = Some (OnItem 0)
             /\ isOpen (dd s') = isOpen (dd s).
Proof.
  intros H. pose proof (steady_range n s H).
  apply (steady_focusItem n s 0 H). lia.
Qed.

Lemma steady_focusLastItem (n : nat) (s : World) :
  steady n s ->
  exists s', focusLastItem s = JS.Returns s' /\ steady n s'
             /\ currentIndex (dd s') = JS.Num (Z.of_nat n - 1)
             /\ active (dd s') = Some (OnItem (n - 1))
             /\ isOpen (dd s') = isOpen (dd s).
Proof.
  intros H. pose proof (steady_range n s H). pose proof H as (_ & Hn & _).
  destruct (steady_focusItem n s (Z.of_nat n - 1) H ltac:(lia))
    as (s' & E & ? & ? & Ha & ?).
  exists s'. replace (Z.to_nat (Z.of_nat n - 1)) with (n - 1)%nat in Ha by lia.
  unfold focusLastItem, JS.length_of. rewrite Hn. cbn [JS.sub]. done.
Qed.

Lemma steady_focusNextItem (n : nat) (s : World) :
  steady n s -> exists s', focusNextItem s = JS.Returns s' /\ steady n s'
                           /\ isOpen (dd s') = isOpen (dd s).
Proof.
  intros H. pose proof H as (_ & Hl & i & Hwf & _).
  pose proof Hwf as (Hc & Hr & Hn).
  unfold focusNextItem, JS.length_of. rewrite Hc, Hl in *. cbn [JS.add JS.rem].
  rewrite (proj2 (Z.eqb_neq _ 0)) by lia.
  pose proof (rem_next i _ Hr ltac:(lia)) as H0.
  destruct (steady_focusItem n s _ H H0) as (s' & ? & ? & ? & ? & ?). eauto.
Qed.

Lemma steady_focusPreviousItem (n : nat) (s : World) :
  steady n s -> exists s', focusPreviousItem s = JS.Returns s' /\ steady n s'
                           /\ isOpen (dd s') = isOpen (dd s).
Proof.
  intros H. pose proof H as (_ & Hl & i & Hwf & _).
  pose proof Hwf as (Hc & Hr & Hn).
  unfold focusPreviousItem, JS.length_of. rewrite Hc, Hl in *. cbn [JS.add JS.sub JS.rem].
  rewrite (proj2 (Z.eqb_neq _ 0)) by lia.
  pose proof (rem_previous i _ Hr ltac:(lia)) as H0.
  destruct (steady_focusItem n s _ H H0) as (s' & ? & ? & ? & ? & ?). eauto.
Qed.

Lemma steady_open (n : nat) (s : World) :
  steady n s ->
  exists s', open s = JS.Returns s' /\ steady n s' /\ isOpen (dd s') = true
             /\ (isOpen (dd s) = false ->
                 currentIndex (dd s') = JS.Num 0 /\ active (dd s') = Some (OnItem 0)).
Proof.
  intros H. unfold open. destruct (isOpen (dd s)) eqn:Eo.
  { exists s. split; [done|]. split; [done|]. split; [done|]. discriminate. }
  pose proof H as ((m & Hm & Hh & He) & Hl & i & Hwf & Hi).
  unfold on_menu. cbn [set_isOpen dd menu win]. rewrite Hm. cbn [JS.bind].
  match goal with |- context [announce_state ?msg ?x] =>
    destruct (announce_state_returns msg x) as (s1 & -> & Ed) end.
  cbn [JS.bind]. cbn in Ed.
  assert (agrees s1) as H1. { exists (show_menu m). rewrite Ed. by cbn. }
  assert (well_formed s1 i) as H2.
  { destruct Hwf as (?&?&?). unfold well_formed. rewrite Ed. by cbn. }
  assert (length (menuItems (dd s1)) = n) as H3. { rewrite Ed. by cbn. }
  pose proof (steady_range n s H).
  destruct (focusItem_steady n s1 i 0 H1 H3 H2 ltac:(lia)) as (s' & E & ? & ? & ? & Eo').
  exists s'. split; [done|]. split; [done|].
  rewrite Eo', Ed. cbn. done.
Qed.

Lemma steady_close (n : nat) (s : World) :
  steady n s ->
  exists s', close s = JS.Returns s' /\ steady n s' /\ isOpen (dd s') = false
             /\ menuItems (dd s') = menuItems (dd s)
             /\ active (dd s') = active (dd s)
             /\ (isOpen (dd s) = true -> currentIndex (dd s') = JS.Num (-1)).
Proof.
  intros H. unfold close. destruct (isOpen (dd s)) eqn:Eo; cbn [negb].
  2:{ exists s. split; [done|]. split; [done|]. split; [done|]. split; [done|].
      split; [done|]. discriminate. }
  pose proof H as ((m & Hm & Hh & He) & Hl & i & Hwf & Hi).
  unfold on_menu. cbn [set_isOpen dd menu win]. rewrite Hm. cbn [JS.bind].
  match goal with |- context [announce_state ?msg ?x] =>
    destruct (announce_state_returns msg x) as (s1 & -> & Ed) end.
  cbn in Ed.
  exists s1. split; [done|]. unfold steady, agrees, well_formed. rewrite Ed. cbn.
  split; [|done]. split; [by exists (hide_menu m)|]. split; [done|].
  exists (-1). destruct Hwf as (?&?&?). repeat split; try done; lia.
Qed.

Lemma steady_toggle (n : nat) (s : World) :
  steady n s ->
  exists s', toggle s = JS.Returns s' /\ steady n s'
             /\ isOpen (dd s') = negb (isOpen (dd s)).
Proof.
  intros H. unfold toggle. destruct (isOpen (dd s)) eqn:Eo.
  - destruct (steady_close n s H) as (s' & ? & ? & ? & _). eauto.
  - destruct (steady_open n s H) as (s' & ? & ? & ? & _). eauto.
Qed.

Lemma steady_focus_trigger (n : nat) (s : World) :
  steady n s -> steady n (set_active OnTrigger s).
Proof. done. Qed.

Lemma steady_triggerKeydown (n : nat) (key : string) (s : World) :
  steady n s -> exists s', triggerKeydown key s = JS.Returns s' /\ steady n s'.
Proof.
  intros H. unfold triggerKeydown. repeat case_decide.
  - destruct (steady_open n s H) as (s' & ? & ? & _). eauto.
  - destruct (steady_open n s H) as (s1 & -> & Hs1 & _). cbn [JS.bind].
    destruct (steady_focusFirstItem n s1 Hs1) as (s' & ? & ? & _). eauto.
  - destruct (steady_open n s H) as (s1 & -> & Hs1 & _). cbn [JS.bind].
    destruct (steady_focusLastItem n s1 Hs1) as (s' & ? & ? & _). eauto.
  - eauto.
Qed.

Lemma steady_documentKeydown (n : nat) (key : string) (s : World) :
  steady n s -> exists s', documentKeydown key s = JS.Returns s' /\ steady n s'.
Proof.
  intros H. unfold documentKeydown.
  destruct (_ && _ && _); [|eauto].
  destruct (steady_close n s H) as (s1 & -> & Hs1 & _). cbn [JS.bind].
  unfold focus_trigger. eauto using steady_focus_trigger.
Qed.

Lemma steady_documentClick (n : nat) (inMenu : bool) (s : World) :
  steady n s -> exists s', documentClick inMenu s = JS.Returns s' /\ steady n s'.
Proof.
  intros H. unfold documentClick.
  destruct (closeOnClickOutside _); [|eauto].
  pose proof H as [(m & -> & _) _].
  destruct inMenu; [eauto|].
  destruct (steady_close n s H) as (s1 & -> & Hs1 & _). eauto.
Qed.

Section AnySelection.
Variable sel : World -> JS.completion World.

Lemma steady_handleMenuKeydown (n : nat) (key : string) (s : World) :
  key <> "Enter" -> key <> " " -> steady n s ->
  exists s', handleMenuKeydown sel key s = JS.Returns s' /\ steady n s'.
Proof.
  intros K1 K2 H. unfold handleMenuKeydown. repeat case_decide.
  - destruct (steady_focusNextItem n s H) as (s' & ? & ? & _). eauto.
  - destruct (steady_focusPreviousItem n s H) as (s' & ? & ? & _). eauto.
  - destruct (steady_focusFirstItem n s H) as (s' & ? & ? & _). eauto.
  - destruct (steady_focusLastItem n s H) as (s' & ? & ? & _). eauto.
  - tauto.
  - destruct (steady_close n s H) as (s1 & -> & ? & _). cbn [JS.bind].
    unfold focus_trigger. eauto using steady_focus_trigger.
  - destruct (steady_close n s H) as (s1 & ? & ? & _). eauto.
  - eauto.
Qed.

Lemma steady_handle (n : nat) (e : Event) (s : World) :
  ~ selects e -> steady n s ->
  exists s', handle sel e s = JS.Returns s' /\ steady n s'.
Proof.
  intros He H. destruct e as [|key|key| |key]; cbn [handle].
  - destruct (steady_toggle n s H) as (s' & ? & ? & _). eauto.
  - destruct (steady_triggerKeydown n key s H) as (s1 & -> & H1). cbn [and_then].
    by apply steady_documentKeydown.
  - pose proof H as [(m & -> & _) _].
    destruct (steady_handleMenuKeydown n key s) as (s1 & -> & H1); [| |done|].
    + intros ->. apply He. by left.
    + intros ->. apply He. by right.
    + cbn [and_then]. by apply steady_documentKeydown.
  - by apply steady_documentClick.
  - by apply steady_documentKeydown.
Qed.

Lemma steady_run (n : nat) (es : list Event) (s : World) :
  Forall (fun e => ~ selects e) es -> steady n s ->
  exists s', DropdownEvents.run sel es s = JS.Returns s' /\ steady n s'.
Proof.
  induction es as [|e es IH] using rev_ind; intros Hes H.
  { exists s. done. }
  apply Forall_app in Hes as [Hes He]. rewrite Forall_singleton in He.
  destruct (IH Hes H) as (s1 & E1 & H1).
  unfold DropdownEvents.run in *. rewrite foldl_app. cbn [foldl]. rewrite E1. cbn [JS.bind].
  by apply steady_handle.
Qed.

End AnySelection.

Lemma steady_construct (opts : Options) (m : Menu) (items : list MenuItem) (w : Window) :
  items <> [] ->
  exists s, construct opts (Some (m, items)) w = JS.Returns s /\ steady (length items) s
            /\ isOpen (dd s) = false.
Proof.
  intros Hi. eexists. split; [reflexivity|]. split; [|done].
  unfold steady, agrees, well_formed. cbn [dd menu menuItems isOpen currentIndex aria_expanded].
  rewrite length_fmap.
  split; [|split; [done|]].
  - eexists. split; [reflexivity|]. done.
  - exists (-1). split; [|done].
    destruct items; [done|]. cbn [length]. repeat split; lia.
Qed.

(** X18: a dropdown built over a menu with at least one item never throws
    in a listener, whatever the sequence of clicks and keys that select no
    item: after every event the menu is hidden exactly when the dropdown
    is closed, [aria-expanded] of the trigger says the same, the current
    index is [-1] or the position of an item, and it is an item while the
    dropdown is open. *)
Theorem events_keep_dropdown_consistent
    (sel : World -> JS.completion World) (opts : Options) (m : Menu)
    (items : list MenuItem) (w : Window) (es : list Event) :
  items <> [] -> Forall (fun e => ~ selects e) es ->
  exists s0 s m' i,
    construct opts (Some (m, items)) w = JS.Returns s0
    /\ DropdownEvents.run sel es s0 = JS.Returns s
    /\ menu (dd s) = Some m'
    /\ hidden m' = negb (isOpen (dd s))
    /\ aria_expanded (dd s) = Some (JS.show_bool (isOpen (dd s)))
    /\ currentIndex (dd s) = JS.Num i
    /\ -1 <= i < Z.of_nat (length items)
    /\ (isOpen (dd s) = true -> 0 <= i).
Proof.
  intros Hi Hes.
  destruct (steady_construct opts m items w Hi) as (s0 & E0 & H0 & _).
  destruct (steady_run sel _ es s0 Hes H0)
    as (s & E & (m' & ? & ? & ?) & Hl & i & (? & ? & ?) & ?).
  exists s0, s, m', i. rewrite <- Hl. done.
Qed.


Lemma events_keep_dropdown_consistent_witness :
  [plain_item; plain_item] <> []
  /\ Forall (fun e => ~ selects e) [TriggerKey "ArrowUp"; MenuKey "ArrowDown"; OutsideClick]
  /\ exists s0 s m' i,
       construct defaults (Some (plain_menu, [plain_item; plain_item])) fresh_window
       = JS.Returns s0
       /\ DropdownEvents.run JS.Returns
            [TriggerKey "ArrowUp"; MenuKey "ArrowDown"; OutsideClick] s0 = JS.Returns s
       /\ menu (dd s) = Some m'
       /\ hidden m' = negb (isOpen (dd s))
       /\ aria_expanded (dd s) = Some (JS.show_bool (isOpen (dd s)))
       /\ currentIndex (dd s) = JS.Num i
       /\ -1 <= i < Z.of_nat (length [plain_item; plain_item])
       /\ (isOpen (dd s) = true -> 0 <= i).
Proof.
  assert (Forall (fun e => ~ selects e)
            [TriggerKey "ArrowUp"; MenuKey "ArrowDown"; OutsideClick]) as Hes.
  { repeat constructor; intros [H|H]; discriminate H. }
  split; [discriminate|]. split; [exact Hes|].
  exact (events_keep_dropdown_consistent JS.Returns defaults plain_menu
           [plain_item; plain_item] fresh_window _ ltac:(discriminate) Hes).
Defined.

(** X19: the keys on the trigger.  [ArrowDown] leaves the dropdown open
    on its first item and [ArrowUp] on its last, whether it was open or
    not; [Enter] and the space bar open it, on the first item if it was
    closed; every other key changes nothing. *)
Theorem trigger_keys (n : nat) (s : World) (key : string) :
  steady n s ->
  key ∉ ["Enter"; " "; "ArrowDown"; "ArrowUp"] ->
  (exists s', triggerKeydown "ArrowDown" s = JS.Returns s'
              /\ isOpen (dd s') = true /\ currentIndex (dd s') = JS.Num 0
              /\ active (dd s') = Some (OnItem 0))
  /\ (exists s', triggerKeydown "ArrowUp" s = JS.Returns s'
                 /\ isOpen (dd s') = true
                 /\ currentIndex (dd s') = JS.Num (Z.of_nat n - 1)
                 /\ active (dd s') = Some (OnItem (n - 1)))
  /\ (exists s', triggerKeydown "Enter" s = JS.Returns s'
                 /\ triggerKeydown " " s = JS.Returns s'
                 /\ isOpen (dd s') = true
                 /\ (isOpen (dd s) = false ->
                     currentIndex (dd s') = JS.Num 0 /\ active (dd s') = Some (OnItem 0)))
  /\ triggerKeydown key s = JS.Returns s.
Proof.
  intros H Hk. unfold triggerKeydown.
  destruct (steady_open n s H) as (s1 & E1 & H1 & Eo & Hc).
  repeat split.
  - rewrite decide_False by (intros [?|?]; discriminate).
    rewrite decide_True by done. rewrite E1. cbn [JS.bind].
    destruct (steady_focusFirstItem n s1 H1) as (s' & ? & ? & ? & ? & Eo').
    exists s'. rewrite Eo'. done.
  - rewrite decide_False by (intros [?|?]; discriminate).
    rewrite decide_False by discriminate.
    rewrite decide_True by done. rewrite E1. cbn [JS.bind].
    destruct (steady_focusLastItem n s1 H1) as (s' & ? & ? & ? & ? & Eo').
    exists s'. rewrite Eo'. done.
  - exists s1. rewrite decide_True by (by left). rewrite decide_True by (by right). done.
  - rewrite !elem_of_cons, elem_of_nil in Hk.
    repeat case_decide; tauto || done.
Qed.

Lemma trigger_keys_witness :
  steady 3 (JS.state_of three_entries)
  /\ ("Tab" ∉ ["Enter"; " "; "ArrowDown"; "ArrowUp"])
  /\ exists s', triggerKeydown "ArrowUp" (JS.state_of three_entries) = JS.Returns s'
                /\ isOpen (dd s') = true
                /\ currentIndex (dd s') = JS.Num (Z.of_nat 3 - 1)
                /\ active (dd s') = Some (OnItem (3 - 1)).
Proof.
  assert (steady 3 (JS.state_of three_entries)) as Hs.
  { split; [by exists {| hidden := true; instructions := true |}|].
    split; [reflexivity|]. exists (-1). split; [|discriminate].
    split; [reflexivity|]. split; [change (-1 <= -1 < 3); lia|].
    change (1 <= 3)%nat. lia. }
  assert ("Tab" ∉ ["Enter"; " "; "ArrowDown"; "ArrowUp"]) as Hk.
  { intros H. repeat (apply elem_of_cons in H as [H|H]; [discriminate|]).
    by apply elem_of_nil in H. }
  split; [exact Hs|]. split; [exact Hk|].
  exact (proj1 (proj2 (trigger_keys 3 _ "Tab" Hs Hk))).
Defined.

(** X20: leaving an open dropdown.  [Escape] in the menu closes it, resets
    the current index to [-1] and puts the focus on the trigger, and the
    listener of the document then finds it closed; [Tab] closes it and
    leaves the focus where it is; [Escape] elsewhere does what [Escape] in
    the menu does if [closeOnEscape] is set and nothing otherwise; a click
    outside closes it if [closeOnClickOutside] is set and does nothing
    otherwise.  None of them touches the items. *)
Theorem leaving_the_menu
    (sel : World -> JS.completion World) (n : nat) (s : World) :
  steady n s -> isOpen (dd s) = true ->
  (exists s', handle sel (MenuKey "Escape") s = JS.Returns s'
              /\ closed_from s (Some OnTrigger) s')
  /\ (exists s', handle sel (MenuKey "Tab") s = JS.Returns s'
                 /\ closed_from s (active (dd s)) s')
  /\ (if closeOnEscape (options (dd s))
      then exists s', handle sel (OutsideKey "Escape") s = JS.Returns s'
                      /\ closed_from s (Some OnTrigger) s'
      else handle sel (OutsideKey "Escape") s = JS.Returns s)
  /\ (if closeOnClickOutside (options (dd s))
      then exists s', handle sel OutsideClick s = JS.Returns s'
                      /\ closed_from s (active (dd s)) s'
      else handle sel OutsideClick s = JS.Returns s).
Proof.
  intros H Ho. set (closed := closed_from s).
  destruct (steady_close n s H) as (s1 & E1 & H1 & Eo & Ei & Ea & Ec).
  specialize (Ec Ho).
  pose proof H as ((m & Em & _) & _).
  assert (closed (active (dd s)) s1) as Hc.
  { destruct H1 as ((m1 & Em1 & Eh & Ee) & _).
    unfold closed, closed_from. rewrite Em1, Ee, Eo. cbn. rewrite Eh, Eo. done. }
  assert (closed (Some OnTrigger) (set_active OnTrigger s1)) as Hc'.
  { destruct Hc as (?&?&?&?&?&?). by repeat split. }
  assert (documentKeydown "Escape" s1 = JS.Returns s1) as Ed1.
  { unfold documentKeydown. rewrite Eo. by rewrite andb_false_r. }
  assert (documentKeydown "Escape" (set_active OnTrigger s1)
          = JS.Returns (set_active OnTrigger s1)) as Ed2.
  { unfold documentKeydown. cbn [set_active dd isOpen options]. rewrite Eo.
    by rewrite andb_false_r. }
  assert (documentKeydown "Tab" s1 = JS.Returns s1) as Ed3.
  { unfold documentKeydown. by rewrite andb_false_r. }
  repeat split.
  - exists (set_active OnTrigger s1). split; [|done].
    cbn [handle]. rewrite Em. unfold handleMenuKeydown.
    repeat (rewrite decide_False by (discriminate || (intros [?|?]; discriminate))).
    rewrite decide_True by done. rewrite E1. cbn [JS.bind focus_trigger and_then]. done.
  - exists s1. split; [|done].
    cbn [handle]. rewrite Em. unfold handleMenuKeydown.
    repeat (rewrite decide_False by (discriminate || (intros [?|?]; discriminate))).
    rewrite decide_True by done. rewrite E1. cbn [and_then]. done.
  - cbn [handle]. unfold documentKeydown. rewrite Ho.
    destruct (closeOnEscape _); cbn [andb].
    + exists (set_active OnTrigger s1). rewrite bool_decide_eq_true_2 by done.
      rewrite E1. done.
    + done.
  - cbn [handle]. unfold documentClick. rewrite Em.
    destruct (closeOnClickOutside _); [|done]. by exists s1.
Qed.

Lemma leaving_the_menu_witness :
  steady 3 open_on_last /\ isOpen (dd open_on_last) = true
  /\ exists s', handle JS.Returns (MenuKey "Escape") open_on_last = JS.Returns s'
                /\ closed_from open_on_last (Some OnTrigger) s'.
Proof.
  assert (steady 3 open_on_last) as Hs.
  { split; [by exists {| hidden := false; instructions := true |}|].
    split; [reflexivity|]. exists 2. split; [|lia].
    split; [reflexivity|]. split; [change (-1 <= 2 < 3); lia|].
    change (1 <= 3)%nat. lia. }
  split; [exact Hs|]. split; [reflexivity|].
  exact (proj1 (leaving_the_menu JS.Returns 3 open_on_last Hs eq_refl)).
Defined.

(** X21: [close] resets the current index and leaves the [tabindex] of the
    items alone.  Closing a dropdown whose current item [i] is its one tab
    stop leaves item [i] a tab stop; opening it again makes the first item
    a tab stop as well, so that two items carry [tabindex="0"] unless [i]
    was the first. *)
Theorem closing_leaves_the_tab_stop (n : nat) (s : World) (i : Z) :
  steady n s -> isOpen (dd s) = true ->
  currentIndex (dd s) = JS.Num i -> roving s i ->
  exists s' s'',
    close s = JS.Returns s' /\ open s' = JS.Returns s''
    /\ currentIndex (dd s') = JS.Num (-1)
    /\ tab_stops s' = [Z.to_nat i]
    /\ currentIndex (dd s'') = JS.Num 0
    /\ tab_stops s'' = if decide (i = 0) then [0%nat] else [0%nat; Z.to_nat i].
Proof.
  intros H Ho Hc Hr.
  pose proof H as (_ & Hl & i' & Hwf & Hi). specialize (Hi Ho).
  assert (i' = i) as -> by (destruct Hwf as (? & _); congruence).
  destruct (steady_close n s H) as (s1 & E1 & H1 & Eo & Ei & Ea & Ec).
  specialize (Ec Ho).
  destruct (steady_open n s1 H1) as (s2 & E2 & H2 & Eo2 & Ec2).
  destruct (Ec2 Eo) as [Ec3 _].
  exists s1, s2. split; [done|]. split; [done|]. split; [done|].
  split.
  { unfold tab_stops. rewrite Ei.
    pose proof (dropdown_roving_tab_stops s i Hwf Hr) as Ht.
    rewrite decide_False in Ht by lia. done. }
  split; [done|].
  (* the items after reopening *)
  assert (menuItems (dd s2) = alter (with_tabindex "0") 0%nat (menuItems (dd s))) as Em.
  { revert E2. unfold open. rewrite Eo.
    destruct H1 as ((m1 & Em1 & _) & Hl1 & _).
    unfold on_menu. cbn [set_isOpen dd menu win]. rewrite Em1. cbn [JS.bind].
    match goal with |- context [announce_state ?msg ?x] =>
      destruct (announce_state_returns msg x) as (s3 & -> & Ed) end.
    cbn [JS.bind]. cbn in Ed. intros E2.
    assert (well_formed s3 (-1)) as Hwf3.
    { unfold well_formed. rewrite Ed. cbn. rewrite Ec, Ei.
      destruct Hwf as (_ & ? & ?). repeat split; try done; lia. }
    destruct (focusItem_moves s3 (-1) 0 Hwf3) as (s4 & E4 & _ & Em4 & _).
    { destruct Hwf3 as (_ & _ & ?). lia. }
    unfold focusFirstItem in E2. rewrite E4 in E2. injection E2 as <-.
    rewrite Em4. cbn. rewrite Ed. cbn. by rewrite Ei. }
  unfold tab_stops, JS.positions. rewrite Em.
  destruct (menuItems (dd s)) as [|y l] eqn:El.
  { destruct Hwf as (_ & _ & Hn). rewrite El in Hn. cbn in Hn. lia. }
  cbn [alter list_alter JS.positions_from]. unfold tab_stop at 1. cbn [with_tabindex tabindex].
  rewrite bool_decide_eq_true_2 by done.
  case_decide as Hd.
  - f_equal. apply positions_from_none. intros k x Hk. unfold tab_stop.
    apply bool_decide_eq_false. unfold roving in Hr. rewrite El in Hr.
    rewrite (Hr (S k) x Hk). lia.
  - f_equal. rewrite (positions_from_unique _ _ 1 (Z.to_nat i - 1)).
    + f_equal. lia.
    + destruct Hwf as (_ & Hrange & _). rewrite El in Hrange. cbn [length] in Hrange. lia.
    + intros k x Hk. unfold tab_stop. rewrite bool_decide_eq_true.
      unfold roving in Hr. rewrite El in Hr. rewrite (Hr (S k) x Hk). lia.
Qed.

Lemma closing_leaves_the_tab_stop_witness :
  steady 3 open_on_last /\ isOpen (dd open_on_last) = true
  /\ currentIndex (dd open_on_last) = JS.Num 2 /\ roving open_on_last 2
  /\ exists s' s'',
       close open_on_last = JS.Returns s' /\ open s' = JS.Returns s''
       /\ currentIndex (dd s') = JS.Num (-1)
       /\ tab_stops s' = [Z.to_nat 2]
       /\ currentIndex (dd s'') = JS.Num 0
       /\ tab_stops s'' = if decide (2 = 0) then [0%nat] else [0%nat; Z.to_nat 2].
Proof.
  assert (steady 3 open_on_last) as Hs.
  { split; [by exists {| hidden := false; instructions := true |}|].
    split; [reflexivity|]. exists 2. split; [|lia].
    split; [reflexivity|]. split; [change (-1 <= 2 < 3); lia|].
    change (1 <= 3)%nat. lia. }
  assert (roving open_on_last 2) as Hr.
  { intros k x. destruct k as [|[|[|k]]]; intros [= <-]; cbn; split; (done || lia). }
  split; [exact Hs|]. split; [reflexivity|]. split; [reflexivity|]. split; [exact Hr|].
  exact (closing_leaves_the_tab_stop 3 open_on_last 2 Hs eq_refl eq_refl Hr).
Defined.

Lemma focusItem_NaN (s : World) :
  JS.ge (currentIndex (dd s)) (JS.Num 0) = false ->
  focusItem JS.NaN s = JS.Throws (set_currentIndex JS.NaN s).
Proof. intros H. unfold focusItem. cbn [JS.lt JS.ge orb]. rewrite H. reflexivity. Qed.

Lemma empty_menu_focus (s : World) :
  menuItems (dd s) = [] ->
  JS.ge (currentIndex (dd s)) (JS.Num 0) = false ->
  focusNextItem s = JS.Throws (set_currentIndex JS.NaN s)
  /\ focusPreviousItem s = JS.Throws (set_currentIndex JS.NaN s)
  /\ focusFirstItem s = JS.Returns s
  /\ focusLastItem s = JS.Returns s.
Proof.
  intros Hm Hc. unfold focusNextItem, focusPreviousItem, focusFirstItem, focusLastItem.
  cbv zeta. rewrite Hm.
  assert (forall a, JS.rem a (JS.length_of (@nil MenuItem)) = JS.NaN) as Hrem.
  { by intros [z|]. }
  rewrite !Hrem. rewrite (focusItem_NaN s Hc).
  repeat split; unfold focusItem; by rewrite Hm.
Qed.

(** X22: a menu without items.  The dropdown is built and opens, with no
    current item; [ArrowDown] and [ArrowUp] in the menu then compute
    [NaN] as the index (a remainder by [0]), which passes the range test
    of [focusItem]: the listener throws on [menuItems[NaN]] and leaves
    [NaN] as the current index, and does so again at the next arrow key.
    [Home] and [End] return without a change. *)
Theorem arrow_keys_throw_in_an_empty_menu
    (sel : World -> JS.completion World) (opts : Options) (m : Menu) (w : Window) :
  exists s0 s1,
    construct opts (Some (m, [])) w = JS.Returns s0
    /\ open s0 = JS.Returns s1
    /\ isOpen (dd s1) = true /\ currentIndex (dd s1) = JS.Num (-1)
    /\ handleMenuKeydown sel "ArrowDown" s1 = JS.Throws (set_currentIndex JS.NaN s1)
    /\ handleMenuKeydown sel "ArrowUp" s1 = JS.Throws (set_currentIndex JS.NaN s1)
    /\ handleMenuKeydown sel "ArrowDown" (set_currentIndex JS.NaN s1)
       = JS.Throws (set_currentIndex JS.NaN s1)
    /\ handleMenuKeydown sel "Home" s1 = JS.Returns s1
    /\ handleMenuKeydown sel "End" s1 = JS.Returns s1.
Proof.
  set (s0 := {| win := w;
                dd := {| options := opts; menu := Some (add_instructions (hide_menu m));
                         menuItems := []; isOpen := false; currentIndex := JS.Num (-1);
                         aria_expanded := Some "false"; active := None |} |}).
  set (x := {| win := w;
               dd := {| options := opts;
                        menu := Some (show_menu (add_instructions (hide_menu m)));
                        menuItems := []; isOpen := true; currentIndex := JS.Num (-1);
                        aria_expanded := Some "true"; active := None |} |}).
  assert (open s0 = announce_state "Menu opened" x >>> focusFirstItem) as Eopen
    by reflexivity.
  destruct (announce_state_returns "Menu opened" x) as (s1 & E & Ed).
  exists s0, s1. split; [reflexivity|].
  assert (menuItems (dd s1) = []) as Hm by (by rewrite Ed).
  assert (JS.ge (currentIndex (dd s1)) (JS.Num 0) = false) as Hc by (by rewrite Ed).
  destruct (empty_menu_focus s1 Hm Hc) as (En & Ep & Ef & El).
  split. { rewrite Eopen, E. exact Ef. }
  split; [by rewrite Ed|]. split; [by rewrite Ed|].
  unfold handleMenuKeydown.
  repeat (rewrite decide_False by (discriminate || (intros [?|?]; discriminate))
          || rewrite decide_True by done).
  by repeat split.
Qed.

End DropdownEventFacts.
